(** * IndexMark: the autoregressive decoding engine (generatearcon.py)

    A shallow embedding of [src/autoregressive/models/generatearcon.py]:
    the distribution filter ([top_k_top_p_filtering]), the sampler ([sample]),
    the two step functions ([prefill], [decode_one_token]), the decode loop
    ([decode_n_tokens]) and the generation driver ([generate]).

    Modelling choices.
    - Floating-point numbers are idealised as rationals ([Q]); the filter's
      sentinel [-inf] is the extra value [NegInf] of [num].  The exponential
      used by softmax is a parameter [expw] of the development, and so is
      the rounding error [rounding] of the one test whose outcome can turn
      on it, [cumulative_probs > top_p] in the nucleus filter.
    - Tensors are nested lists (outermost dimension first); they are
      rectangular in the program, so the length of a row is [size(-1)].
    - Python objects that are mutated or whose identity matters (logits handed
      to the filter, the two output buffers) live in a store [heap]; the model
      object, its causal mask and its caches are the [model] field of the world.
    - Python exceptions are the [Raise] outcomes of the monad [M]; the world at
      the point of the raise is kept. *)

From Stdlib Require Import QArith Qminmax Qabs Lqa ZArith Lia Sorted.
From stdpp Require Import base list strings.

(** ** Numbers *)

(** A float that is a finite number or the filter's sentinel [-inf]. *)
Inductive num := NegInf | Fin (q : Q).

Definition Qltb (x y : Q) : bool := negb (Qle_bool y x).

(** [a < b] on floats. *)
Definition num_lt (a b : num) : bool :=
  match a, b with
  | NegInf, Fin _ => true
  | Fin x, Fin y => Qltb x y
  | _, NegInf => false
  end.

(** [a == b] on floats. *)
Definition num_eqb (a b : num) : bool :=
  match a, b with
  | NegInf, NegInf => true
  | Fin x, Fin y => Qeq_bool x y
  | _, _ => false
  end.

Definition is_fin (a : num) : bool :=
  match a with NegInf => false | Fin _ => true end.

Definition Qsum (l : list Q) : Q := foldr Qplus 0%Q l.

(** ** Exceptions *)

Inductive exn :=
  | IndexError
  | ValueError
  | RuntimeError
  | AssertionError
  | TypeError
  | Exception (msg : string).

Inductive result (A : Type) := Ok (a : A) | Raise (e : exn).
Arguments Ok {A} a.
Arguments Raise {A} e.

Definition rbind {A B} (r : result A) (f : A -> result B) : result B :=
  match r with Ok a => f a | Raise e => Raise e end.

(** All elements in order, stopping at the first exception. *)
Fixpoint rmapM {A B} (f : A -> result B) (l : list A) : result (list B) :=
  match l with
  | [] => Ok []
  | x :: l' => rbind (f x) (fun y => rbind (rmapM f l') (fun ys => Ok (y :: ys)))
  end.

(** ** Tensor operations on rows *)

Definition countb {A} (f : A -> bool) (l : list A) : nat :=
  length (List.filter f l).

(** [torch.sort(row, descending=True)]: the values with their positions.
    Equal values keep their order of appearance here; [torch.sort] promises
    no order among them, so what is stated of the nucleus filter is stated
    of values, counts and masses, which no order of equal values changes. *)
Fixpoint insert_desc (x : num * nat) (l : list (num * nat)) : list (num * nat) :=
  match l with
  | [] => [x]
  | y :: l' =>
      if num_lt (fst x) (fst y) then y :: insert_desc x l' else x :: y :: l'
  end.

Definition sort_desc (row : list num) : list (num * nat) :=
  foldr insert_desc [] (zip row (seq 0 (length row))).

(** [torch.topk(row, k)[0]]: the [k] largest values, largest first. *)
Definition topk_values (row : list num) (k : Z) : result (list num) :=
  if ((k <? 0) || (Z.of_nat (length row) <? k))%Z then Raise RuntimeError
  else Ok (take (Z.to_nat k) (map fst (sort_desc row))).

(** [t[..., -1]] *)
Definition last_elem {A} (l : list A) : result A :=
  match last l with Some x => Ok x | None => Raise IndexError end.

(** [row[mask] = v] *)
Definition masked_fill (row : list num) (mask : list bool) (v : num) : list num :=
  zip_with (fun x (m : bool) => if m then v else x) row mask.

(** [min(max(top_k, min_tokens_to_keep), logits.size(-1))] *)
Definition clamp_top_k (top_k min_tokens_to_keep : Z) (vocab : nat) : Z :=
  Z.min (Z.max top_k min_tokens_to_keep) (Z.of_nat vocab).

(** [logits < torch.topk(logits, top_k)[0][..., -1, None]] on one row. *)
Definition top_k_mask (top_k min_tokens_to_keep : Z) (row : list num)
  : result (list bool) :=
  let top_k := clamp_top_k top_k min_tokens_to_keep (length row) in
  rbind (topk_values row top_k) (fun vals =>
  rbind (last_elem vals) (fun thr =>
  Ok (map (fun x => num_lt x thr) row))).

Fixpoint cumsum_from (acc : Q) (l : list Q) : list Q :=
  match l with
  | [] => []
  | x :: l' => (acc + x)%Q :: cumsum_from (acc + x)%Q l'
  end.

(** [torch.cumsum(row, dim=-1)] *)
Definition cumsum (l : list Q) : list Q := cumsum_from 0%Q l.

(** [t[..., :n] = 0] on a boolean row, for a positive [n]. *)
Definition clear_prefix (n : Z) (mask : list bool) : list bool :=
  replicate (Nat.min (Z.to_nat n) (length mask)) false ++ drop (Z.to_nat n) mask.

(** [t[..., 1:] = t[..., :-1].clone()] *)
Definition shift_right (mask : list bool) : list bool :=
  match mask with
  | [] => []
  | b :: _ => b :: removelast mask
  end.

(** [t[..., 0] = 0] *)
Definition clear_first (mask : list bool) : result (list bool) :=
  match mask with
  | [] => Raise IndexError
  | _ :: rest => Ok (false :: rest)
  end.

(** [self.scatter(1, index, src)] on one row: [out[index[j]] = src[j]]. *)
Definition scatter (self : list bool) (index : list nat) (src : list bool)
  : list bool :=
  foldl (fun out p => <[fst p := snd p]> out) self (zip index src).

Section Softmax.

(** The exponential behind [F.softmax]. *)
Variable expw : Q -> Q.

Definition expn (x : num) : Q :=
  match x with NegInf => 0%Q | Fin q => expw q end.

(** [F.softmax(row, dim=-1)] *)
Definition softmax (row : list num) : list Q :=
  let ws := map expn row in
  map (fun w => (w / Qsum ws)%Q) ws.

(** Floating point in the test [cumulative_probs > top_p]:
    [rounding top_p sorted_logits i] is what the arithmetic of the tensors
    adds to the exact cumulative probability at position [i] of the sorted
    row (the errors of [F.softmax] and [torch.cumsum], and of [top_p] once
    it is cast to the type of the tensor). *)
Variable rounding : Q -> list num -> nat -> Q.

(** The removal mask of the nucleus filter on one row, in vocabulary order. *)
Definition top_p_mask (top_p : Q) (min_tokens_to_keep : Z) (row : list num)
  : result (list bool) :=
  let sorted := sort_desc row in
  let sorted_logits := map fst sorted in
  let sorted_indices := map snd sorted in
  let cumulative_probs :=
    imap (fun i c => (c + rounding top_p sorted_logits i)%Q)
         (cumsum (softmax sorted_logits)) in
  let sorted_indices_to_remove := map (fun c => Qltb top_p c) cumulative_probs in
  let sorted_indices_to_remove :=
    if (1 <? min_tokens_to_keep)%Z
    then clear_prefix min_tokens_to_keep sorted_indices_to_remove
    else sorted_indices_to_remove in
  let sorted_indices_to_remove := shift_right sorted_indices_to_remove in
  rbind (clear_first sorted_indices_to_remove) (fun sorted_indices_to_remove =>
  Ok (scatter sorted_indices_to_remove sorted_indices sorted_indices_to_remove)).

End Softmax.

(** ** Shapes, broadcasting and slice assignment *)

(** The shape of a rectangular nested list, read off its first elements. *)
Definition shape2 {A} (t : list (list A)) : list nat :=
  [length t; length (hd [] t)].

Definition shape3 {A} (t : list (list (list A))) : list nat :=
  [length t; length (hd [] t); length (hd [] (hd [] t))].

(** Elementwise operation on one dimension under broadcasting: a dimension of
    size 1 is repeated, other sizes have to agree. *)
Definition bcast_zip {A B C} (f : A -> B -> result C) (a : list A) (b : list B)
  : result (list C) :=
  match a, b with
  | [x], _ => rmapM (f x) b
  | _, [y] => rmapM (fun x => f x y) a
  | _, _ =>
      if (length a =? length b)%nat
      then rmapM (fun p => f (fst p) (snd p)) (zip a b)
      else Raise RuntimeError
  end.

Fixpoint strip_ones (s : list nat) : list nat :=
  match s with
  | 1%nat :: s' => strip_ones s'
  | _ => s
  end.

(** [src.expand(dst)] is defined; both shapes innermost dimension first. *)
Fixpoint expandable (src dst : list nat) : bool :=
  match src, dst with
  | [], _ => true
  | _ :: _, [] => false
  | a :: src', b :: dst' =>
      ((a =? b)%nat || (a =? 1)%nat) && expandable src' dst'
  end.

(** Whether [dst[...] = src] is accepted: equal shapes, or the source, its
    leading dimensions of size 1 dropped, expands to the destination. *)
Definition setitem_ok (dst src : list nat) : bool :=
  bool_decide (dst = src) || expandable (reverse (strip_ones src)) (reverse dst).

(** A source dimension brought to size [n]. *)
Definition bcast {A} (n : nat) (l : list A) : list A :=
  match l with
  | [x] => replicate n x
  | _ => l
  end.

(** [buf[:, lo:hi] = src] on a 2-D buffer. *)
Definition setitem_cols {A} (buf : list (list A)) (lo hi : nat)
    (src : list (list A)) : result (list (list A)) :=
  let width := length (hd [] buf) in
  let lo := Nat.min lo width in
  let w := (Nat.min hi width - lo)%nat in
  if setitem_ok [length buf; w] (shape2 src) then
    Ok (zip_with (fun row srow => take lo row ++ bcast w srow ++ drop (lo + w) row)
                 buf (bcast (length buf) src))
  else Raise RuntimeError.

(** [buf[:, lo:hi] = src] on a 3-D buffer. *)
Definition setitem_cols3 {A} (buf : list (list (list A))) (lo hi : nat)
    (src : list (list (list A))) : result (list (list (list A))) :=
  let width := length (hd [] buf) in
  let inner := length (hd [] (hd [] buf)) in
  let lo := Nat.min lo width in
  let w := (Nat.min hi width - lo)%nat in
  if setitem_ok [length buf; w; inner] (shape3 src) then
    Ok (zip_with (fun row srow =>
                    take lo row ++ map (bcast inner) (bcast w srow)
                    ++ drop (lo + w) row)
                 buf (bcast (length buf) src))
  else Raise RuntimeError.

(** [buf[:, j] = src] on a 3-D buffer, [src] of three dimensions: accepted
    only when the first dimension of [src] has size 1 and is dropped. *)
Definition setitem_col3 {A} (buf : list (list (list A))) (j : nat)
    (src : list (list (list A))) : result (list (list (list A))) :=
  let width := length (hd [] buf) in
  let inner := length (hd [] (hd [] buf)) in
  if (width <=? j)%nat then Raise IndexError
  else if setitem_ok [length buf; inner] (shape3 src) then
    Ok (zip_with (fun row v => <[j := bcast inner v]> row)
                 buf (bcast (length buf) (hd [] src)))
  else Raise RuntimeError.

(** [torch.cat(ts, dim=1)] on 2-D tensors. *)
Definition torch_cat_dim1 {A} (ts : list (list (list A)))
  : result (list (list A)) :=
  match ts with
  | [] => Raise RuntimeError
  | t :: rest =>
      if forallb (fun u => (length u =? length t)%nat) rest
      then Ok (foldr (fun u acc => zip_with app u acc) (map (fun _ => []) t) ts)
      else Raise RuntimeError
  end.

Fixpoint chunks {A} (fuel size : nat) (l : list A) : list (list A) :=
  match fuel with
  | O => []
  | S fuel' =>
      match l with
      | [] => []
      | _ :: _ => take size l :: chunks fuel' size (drop size l)
      end
  end.

(** [torch.split(t, split_size, dim=0)]: pieces of [split_size] entries, the
    last one shorter when the length is no multiple. *)
Definition torch_split {A} (t : list A) (split_size : nat) : list (list A) :=
  chunks (length t) split_size t.

(** [a, b = pieces] *)
Definition unpack2 {A} (pieces : list A) : result (A * A) :=
  match pieces with
  | [a; b] => Ok (a, b)
  | _ => Raise ValueError
  end.

(** [uncond_logits + (cond_logits - uncond_logits) * cfg_scale] *)
Definition cfg_mix (cond_logits uncond_logits : list (list (list Q)))
    (cfg_scale : Q) : list (list (list Q)) :=
  zip_with (zip_with (zip_with (fun c u => (u + (c - u) * cfg_scale)%Q)))
           cond_logits uncond_logits.

(** [t[b, s, v]] *)
Definition entry3 (t : list (list (list Q))) (b s v : nat) : option Q :=
  match t !! b with
  | Some x => match x !! s with Some row => row !! v | None => None end
  | None => None
  end.

(** ** Sampling options and conditioning *)

(** [**sampling_kwargs] of the source. *)
Record sampling_kwargs := {
  temperature : Q;
  top_k : Z;
  top_p : Q;
  sample_logits : bool
}.

(** A Python [dict] from token id to token id, in insertion order. *)
Definition index_map := list (Z * Z).

(** The conditioning tensor: class ids of shape [(batch)], or text embeddings
    of shape [(batch, length, dim)]. *)
Inductive cond_t :=
  | ClassCond (c : list Z)
  | TextCond (e : list (list (list Q))).

(** [cond.shape[0]] *)
Definition cond_shape0 (cond : cond_t) : nat :=
  match cond with
  | ClassCond c => length c
  | TextCond e => length e
  end.

(** [cond.shape[1]] *)
Definition cond_shape1 (cond : cond_t) : result nat :=
  match cond with
  | ClassCond _ => Raise IndexError
  | TextCond e => Ok (length (hd [] e))
  end.

(** [torch.ones_like(cond) * model.num_classes] *)
Definition null_class (cond : cond_t) (num_classes : Z) : cond_t :=
  match cond with
  | ClassCond c => ClassCond (map (fun _ => (1 * num_classes)%Z) c)
  | TextCond e =>
      TextCond (map (map (map (fun _ => (1 * inject_Z num_classes)%Q))) e)
  end.

(** [torch.cat([cond, cond_null])] *)
Definition torch_cat_cond (cond cond_null : cond_t) : result cond_t :=
  match cond, cond_null with
  | ClassCond a, ClassCond b => Ok (ClassCond (a ++ b))
  | TextCond a, TextCond b =>
      if bool_decide (tail (shape3 a) = tail (shape3 b))
      then Ok (TextCond (a ++ b))
      else Raise RuntimeError
  | _, _ => Raise RuntimeError
  end.

(** [torch.cat([cond, torch.zeros_like(cond) + uncond_embedding])].  For class
    ids the sum has two dimensions (or does not broadcast), and [torch.cat]
    refuses it. *)
Definition cat_null_text (cond : cond_t) (uncond_embedding : list (list Q))
  : result cond_t :=
  match cond with
  | ClassCond _ => Raise RuntimeError
  | TextCond e =>
      rbind (rmapM (fun x =>
               bcast_zip (fun row urow =>
                            bcast_zip (fun z v => Ok (z + v)%Q)
                                      (map (fun _ => 0%Q) row) urow)
                         x uncond_embedding) e)
            (fun cond_null => torch_cat_cond cond (TextCond cond_null))
  end.

(** [causal_mask[:, :, :T] = causal_mask[:, :, :T] * emb_masks.unsqueeze(1)] *)
Definition mask_columns (causal_mask : list (list (list Z))) (T : nat)
    (emb_masks : list (list Z)) : result (list (list (list Z))) :=
  let sliced := map (map (take T)) causal_mask in
  rbind (bcast_zip (fun mb eb =>
                      rmapM (fun row =>
                               bcast_zip (fun a b => Ok (a * b)%Z) row eb) mb)
                   sliced emb_masks)
        (fun prod =>
           if bool_decide (shape3 prod = shape3 sliced)
           then Ok (zip_with (zip_with (fun row new => new ++ drop T row))
                             causal_mask prod)
           else Raise RuntimeError).

(** [torch.eye(n, m)[i, j]] *)
Definition eye (i j : nat) : Z := if (i =? j)%nat then 1%Z else 0%Z.

(** [causal_mask[:] = causal_mask * (1 - eye_matrix) + eye_matrix] *)
Definition force_diagonal (causal_mask : list (list (list Z)))
  : list (list (list Z)) :=
  map (imap (fun i row =>
               imap (fun j v => (v * (1 - eye i j) + eye i j)%Z) row))
      causal_mask.

(** ** The world: store, observable calls, model object *)

(** A location of the store. *)
Abbreviation loc := nat (only parsing).

Inductive tensor :=
  | Float3 (t : list (list (list Q)))
  | Float2 (t : list (list num))
  | Int2 (t : list (list Z)).

Inductive event :=
  | Printed (s : string)
  | CalledSetupCaches (max_batch_size max_seq_length : Z)
  | CalledForward (idx : option (list (list Z))) (cond_idx : option cond_t)
      (input_pos : list Z).

(** The predictor as the engine sees it; [Cache] is the type of its
    key-value caches and whatever else it keeps. *)
Record Model (Cache : Type) := {
  model_type : string;
  num_classes : Z;
  uncond_embedding : list (list Q);
  causal_mask : list (list (list Z));
  cache : Cache
}.

Arguments model_type {Cache} _.
Arguments num_classes {Cache} _.
Arguments uncond_embedding {Cache} _.
Arguments causal_mask {Cache} _.
Arguments cache {Cache} _.

Record World (Cache : Type) := {
  heap : list tensor;
  trace : list event;
  model : Model Cache;
  rng : nat
}.

Arguments heap {Cache} _.
Arguments trace {Cache} _.
Arguments model {Cache} _.
Arguments rng {Cache} _.

(** ** A concrete predictor

    A small model on which the engine can be run: a vocabulary of four
    tokens, the same logits at every position, a lower-triangular causal
    mask, and a counter for a cache. *)

(** A positive, increasing stand-in for the exponential, exact at 0. *)
Definition exp_model (q : Q) : Q :=
  if Qltb q 0 then (1 / (1 - q))%Q else (1 + q)%Q.

(** Arithmetic without rounding error. *)
Definition no_rounding (top_p : Q) (sorted_logits : list num) (i : nat) : Q :=
  0%Q.

(** A generator that always draws the first token. *)
Definition draw_first (n : nat) (row : list Q) : nat := 0%nat.

Definition demo_forward (m : Model nat) (idx : option (list (list Z)))
    (cond_idx : option cond_t) (input_pos : list Z)
  : list (list (list Q)) * Model nat :=
  let batch :=
    match idx, cond_idx with
    | Some x, _ => length x
    | None, Some c => cond_shape0 c
    | None, None => 0%nat
    end in
  (replicate batch [[2%Q; 1%Q; (1 # 10)%Q; (1 # 10)%Q]], m).

(** A predictor whose logits differ from one batch row to the next: row [b]
    is [[b; 1; 0; 0]] at its one position. *)
Definition graded_forward (m : Model nat) (idx : option (list (list Z)))
    (cond_idx : option cond_t) (input_pos : list Z)
  : list (list (list Q)) * Model nat :=
  let batch :=
    match idx, cond_idx with
    | Some x, _ => length x
    | None, Some c => cond_shape0 c
    | None, None => 0%nat
    end in
  (map (fun b => [[inject_Z (Z.of_nat b); 1%Q; 0%Q; 0%Q]]) (seq 0 batch), m).

(** [torch.tril(torch.ones(s, s))], once per batch row. *)
Definition tril (b s : nat) : list (list (list Z)) :=
  replicate b
    (map (fun i => map (fun j => if (j <=? i)%nat then 1%Z else 0%Z) (seq 0 s))
         (seq 0 s)).

Definition demo_setup_caches (max_batch_size max_seq_length : Z)
    (m : Model nat) : Model nat :=
  {| model_type := model_type m;
     num_classes := num_classes m;
     uncond_embedding := uncond_embedding m;
     causal_mask := tril (Z.to_nat max_batch_size) (Z.to_nat max_seq_length);
     cache := S (cache m) |}.

Definition demo_model (mode : string) : Model nat :=
  {| model_type := mode; num_classes := 1000; uncond_embedding := [];
     causal_mask := tril 1 3; cache := 0%nat |}.

Definition demo_world (mode : string) (cells : list tensor) : World nat :=
  {| heap := cells; trace := []; model := demo_model mode; rng := 0%nat |}.

Definition greedy_kwargs (top_k : Z) (top_p : Q) : sampling_kwargs :=
  {| temperature := 1; top_k := top_k; top_p := top_p; sample_logits := false |}.

(** Sampling options with both filters on, and a mapping that pairs the
    tokens 0 and 1. *)
Definition sampling_kwargs_demo : sampling_kwargs :=
  {| temperature := 1; top_k := 3; top_p := 9 # 10; sample_logits := true |}.

Definition pairing_demo : index_map := [(0, 1)]%Z.

Section Engine.

(** The exponential behind softmax. *)
Variable expw : Q -> Q.
(** The rounding error of the nucleus test, see [top_p_mask]. *)
Variable rounding : Q -> list num -> nat -> Q.
(** [torch.multinomial]'s choice for one row: the index drawn at the given
    state of the generator from the given distribution. *)
Variable multinomial_draw : nat -> list Q -> nat.
(** The key-value caches and whatever else the predictor keeps. *)
Variable Cache : Type.

Local Abbreviation Model := (Model Cache).
Local Abbreviation World := (World Cache).

(** [model.setup_caches(max_batch_size, max_seq_length, dtype)] *)
Variable setup_caches : Z -> Z -> Model -> Model.
(** [model(idx, cond_idx, input_pos)]: the logits and the updated model. *)
Variable forward :
  Model -> option (list (list Z)) -> option cond_t -> list Z ->
  list (list (list Q)) * Model.

Definition M (A : Type) : Type := World -> result A * World.

#[global] Instance M_ret : MRet M := fun A a w => (Ok a, w).
#[global] Instance M_bind : MBind M := fun A B f m w =>
  match m w with
  | (Ok a, w') => f a w'
  | (Raise e, w') => (Raise e, w')
  end.

Definition raise {A} (e : exn) : M A := fun w => (Raise e, w).

Definition lift {A} (r : result A) : M A := fun w => (r, w).

Definition set_heap (h : list tensor) (w : World) : World :=
  {| heap := h; trace := trace w; model := model w; rng := rng w |}.

Definition alloc (t : tensor) : M loc := fun w =>
  (Ok (length (heap w)), set_heap (heap w ++ [t]) w).

Definition read (l : loc) : M tensor := fun w =>
  match heap w !! l with
  | Some t => (Ok t, w)
  | None => (Raise RuntimeError, w)
  end.

Definition write (l : loc) (t : tensor) : M unit := fun w =>
  (Ok tt, set_heap (<[l := t]> (heap w)) w).

Definition read_float3 (l : loc) : M (list (list (list Q))) :=
  t ← read l;
  match t with Float3 v => mret v | _ => raise TypeError end.

Definition read_float2 (l : loc) : M (list (list num)) :=
  t ← read l;
  match t with Float2 v => mret v | _ => raise TypeError end.

Definition read_int2 (l : loc) : M (list (list Z)) :=
  t ← read l;
  match t with Int2 v => mret v | _ => raise TypeError end.

Definition emit (e : event) : M unit := fun w =>
  (Ok tt, {| heap := heap w; trace := trace w ++ [e];
             model := model w; rng := rng w |}).

Definition print (s : string) : M unit := emit (Printed s).

Definition get_model : M Model := fun w => (Ok (model w), w).

Definition set_model (m : Model) : M unit := fun w =>
  (Ok tt, {| heap := heap w; trace := trace w; model := m; rng := rng w |}).

(** ** The distribution filter *)

(** [logits[indices_to_remove] = filter_value], in place. *)
Definition masked_fill_inplace (logits : loc) (mask : list (list bool))
    (filter_value : num) : M unit :=
  t ← read_float2 logits;
  write logits
    (Float2 (zip_with (fun row m => masked_fill row m filter_value) t mask)).

Definition top_k_top_p_filtering (logits : loc) (top_k : Z) (top_p : Q)
    (filter_value : num) (min_tokens_to_keep : Z) : M loc :=
  (if (0 <? top_k)%Z then
     t ← read_float2 logits;
     indices_to_remove ← lift (rmapM (top_k_mask top_k min_tokens_to_keep) t);
     masked_fill_inplace logits indices_to_remove filter_value
   else mret tt);;
  (if Qltb top_p 1 then
     t ← read_float2 logits;
     indices_to_remove ←
       lift (rmapM (top_p_mask expw rounding top_p min_tokens_to_keep) t);
     masked_fill_inplace logits indices_to_remove filter_value
   else mret tt);;
  mret logits.

(** ** The sampler *)

(** [max(temperature, 1e-5)] *)
Definition floor_temperature (temperature : Q) : Q :=
  Qmax temperature (1 # 100000).

(** [row[i]] for a Python integer [i]: negative indices count from the end. *)
Definition tensor_index (row : list Q) (i : Z) : result Q :=
  let n := Z.of_nat (length row) in
  let j := if (i <? 0)%Z then (i + n)%Z else i in
  if ((j <? 0) || (n <=? j))%Z then Raise IndexError
  else match row !! Z.to_nat j with
       | Some p => Ok p
       | None => Raise IndexError
       end.

(** [torch.multinomial(probs, num_samples=1)]: one draw per row. *)
Fixpoint multinomial_rows (probs : list (list Q)) : M (list nat) :=
  match probs with
  | [] => mret []
  | row :: rest =>
      i ← (fun w => (Ok (multinomial_draw (rng w) row),
                     {| heap := heap w; trace := trace w;
                        model := model w; rng := S (rng w) |}));
      (if (i <? length row)%nat then mret tt else raise RuntimeError);;
      drawn ← multinomial_rows rest;
      mret (i :: drawn)
  end.

(** Position of the first largest entry at or after position [i]. *)
Fixpoint argmax_from (best : Q) (besti i : nat) (row : list Q) : Q * nat :=
  match row with
  | [] => (best, besti)
  | p :: rest =>
      if Qltb best p then argmax_from p i (S i) rest
      else argmax_from best besti (S i) rest
  end.

(** [torch.topk(row, k=1)]: the largest entry and its position. *)
Definition top1 (row : list Q) : result (Q * nat) :=
  match row with
  | [] => Raise RuntimeError
  | p :: rest => Ok (argmax_from p 0%nat 1%nat rest)
  end.

(** [selected_idx in index_mapping] and [index_mapping[selected_idx]] *)
Fixpoint dict_get (d : index_map) (k : Z) : option Z :=
  match d with
  | [] => None
  | (k', v) :: d' => if (k' =? k)%Z then Some v else dict_get d' k
  end.

(** The [for key, value in index_mapping.items()] loop: the key of the first
    item whose value is [selected_idx]. *)
Fixpoint first_key_of (d : index_map) (selected_idx : Z) : option Z :=
  match d with
  | [] => None
  | (key, value) :: d' =>
      if (value =? selected_idx)%Z then Some key
      else first_key_of d' selected_idx
  end.

(** One iteration of the loop over the batch: [paired_confidence[b, 0]]. *)
Definition paired_confidence_row (index_mapping : index_map)
    (probs_b : list Q) (selected_idx : Z) : result Q :=
  match dict_get index_mapping selected_idx with
  | Some paired_idx => tensor_index probs_b paired_idx
  | None =>
      match first_key_of index_mapping selected_idx with
      | Some key => tensor_index probs_b key
      | None => Ok 0%Q
      end
  end.

Definition paired_confidences (index_mapping : option index_map)
    (probs : list (list Q)) (idx : list nat) : result (list Q) :=
  match index_mapping with
  | None => Ok (map (fun _ => 0%Q) idx)
  | Some d =>
      rmapM (fun p => paired_confidence_row d (fst p) (Z.of_nat (snd p)))
            (zip probs idx)
  end.

(** The draw: [torch.multinomial] and [torch.gather] when [sample_logits],
    [torch.topk(probs, k=1)] otherwise. *)
Definition choose_tokens (sample_logits : bool) (probs : list (list Q))
  : M (list Q * list nat) :=
  if sample_logits then
    idx ← multinomial_rows probs;
    mret (zip_with (fun row i => nth i row 0%Q) probs idx, idx)
  else
    r ← lift (rmapM top1 probs);
    mret (map fst r, map snd r).

Definition sample (logits : loc) (kw : sampling_kwargs)
    (index_mapping : option index_map)
    : M (list (list Z) * list (list (list Q))) :=
  t ← read_float3 logits;
  last ← lift (rmapM last_elem t);
  logits ← alloc (Float2
    (map (map (fun x => Fin (x / floor_temperature (temperature kw))%Q)) last));
  logits ← (if (0 <? top_k kw)%Z || Qltb (top_p kw) 1
            then top_k_top_p_filtering logits (top_k kw) (top_p kw) NegInf 1
            else mret logits);
  lg ← read_float2 logits;
  let probs := map (softmax expw) lg in
  '(token_confidence, idx) ← choose_tokens (sample_logits kw) probs;
  paired_confidence ← lift (paired_confidences index_mapping probs idx);
  let con_pairs :=
    zip_with (fun tc pc => [[tc; pc]]) token_confidence paired_confidence in
  mret (map (fun i => [Z.of_nat i]) idx, con_pairs).

(** ** The step functions *)

(** [logits, _ = model(idx, cond_idx, input_pos)] *)
Definition call_model (idx : option (list (list Z)))
    (cond_idx : option cond_t) (input_pos : list Z) : M loc :=
  emit (CalledForward idx cond_idx input_pos);;
  m ← get_model;
  let '(logits, m') := forward m idx cond_idx input_pos in
  set_model m';;
  alloc (Float3 logits).

Definition prefill (cond_idx : cond_t) (input_pos : list Z) (cfg_scale : Q)
    (index_mapping : option index_map) (kw : sampling_kwargs)
    : M (list (list Z) * list (list (list Q))) :=
  logits ←
    (if Qltb 1 cfg_scale then
       logits ← call_model None (Some cond_idx) input_pos;
       let logits_combined := logits in
       t ← read_float3 logits_combined;
       if (2 <=? length t)%nat then
         '(cond_logits, uncond_logits) ←
           lift (unpack2 (torch_split t (length t / 2)));
         alloc (Float3 (cfg_mix cond_logits uncond_logits cfg_scale))
       else
         print "Warning: Not enough samples for CFG in prefill";;
         mret logits_combined
     else
       call_model None (Some cond_idx) input_pos);
  sample logits kw index_mapping.

Definition decode_one_token (x : list (list Z)) (input_pos : list Z)
    (cfg_scale : Q) (cfg_flag : bool)
    (index_mapping : option index_map) (kw : sampling_kwargs)
    : M (list (list Z) * list (list (list Q))) :=
  (if (length input_pos =? 1)%nat then mret tt else raise AssertionError);;
  logits ←
    (if Qltb 1 cfg_scale then
       let x_combined := x ++ x in
       logits ← call_model (Some x_combined) None input_pos;
       let logits_combined := logits in
       t ← read_float3 logits_combined;
       if (2 <=? length t)%nat then
         '(cond_logits, uncond_logits) ←
           lift (unpack2 (torch_split t (length t / 2)));
         if cfg_flag
         then alloc (Float3 (cfg_mix cond_logits uncond_logits cfg_scale))
         else alloc (Float3 cond_logits)
       else
         print "Warning: Not enough samples for CFG in decode_one_token";;
         mret logits_combined
     else
       call_model (Some x) None input_pos);
  sample logits kw index_mapping.

(** ** The decode loop *)

(** The loop of [decode_n_tokens] from iteration [i] on, [n] iterations left. *)
Fixpoint decode_loop (n : nat) (i : Z) (cfg_flag : bool)
    (cur_token : list (list Z)) (input_pos : list Z)
    (new_tokens : list (list (list Z)))
    (new_confidences : list (list (list (list Q))))
    (cfg_scale : Q) (cfg_interval : Z)
    (index_mapping : option index_map) (kw : sampling_kwargs)
    : M (list (list (list Z)) * list (list (list (list Q)))) :=
  match n with
  | O => mret (new_tokens, new_confidences)
  | S n' =>
      let cfg_flag :=
        if (-1 <? cfg_interval)%Z && (cfg_interval <? i)%Z
        then false else cfg_flag in
      '(next_token, token_confidence) ←
        decode_one_token cur_token input_pos cfg_scale cfg_flag
                         index_mapping kw;
      let input_pos := map (fun p => (p + 1)%Z) input_pos in
      let new_tokens := new_tokens ++ [next_token] in
      let new_confidences := new_confidences ++ [token_confidence] in
      let cur_token := map (fun t => [t]) (concat next_token) in
      decode_loop n' (i + 1)%Z cfg_flag cur_token input_pos
                  new_tokens new_confidences
                  cfg_scale cfg_interval index_mapping kw
  end.

Definition decode_n_tokens (cur_token : list (list Z)) (input_pos : list Z)
    (num_new_tokens : Z) (cfg_scale : Q) (cfg_interval : Z)
    (index_mapping : option index_map) (kw : sampling_kwargs)
    : M (list (list (list Z)) * list (list (list (list Q)))) :=
  decode_loop (Z.to_nat num_new_tokens) 0%Z true cur_token input_pos [] []
              cfg_scale cfg_interval index_mapping kw.

(** ** The generation loop *)

Definition set_causal_mask (cm : list (list (list Z))) : M unit :=
  m ← get_model;
  set_model {| model_type := model_type m; num_classes := num_classes m;
               uncond_embedding := uncond_embedding m;
               causal_mask := cm; cache := cache m |}.

(** [model.setup_caches(max_batch_size=.., max_seq_length=.., dtype=..)] *)
Definition call_setup_caches (max_batch_size max_seq_length : Z) : M unit :=
  emit (CalledSetupCaches max_batch_size max_seq_length);;
  m ← get_model;
  set_model (setup_caches max_batch_size max_seq_length m).

(** The block under [if emb_masks is not None]. *)
Definition adjust_causal_mask (emb_masks : list (list Z))
    (max_batch_size T : nat) (cfg_scale : Q) : M unit :=
  (if (length emb_masks =? max_batch_size)%nat
   then mret tt else raise AssertionError);;
  (if (length (hd [] emb_masks) =? T)%nat
   then mret tt else raise AssertionError);;
  m ← get_model;
  cm ← lift (mask_columns (causal_mask m) T
               (if Qltb 1 cfg_scale then emb_masks ++ emb_masks
                else emb_masks));
  set_causal_mask cm;;
  m ← get_model;
  set_causal_mask (force_diagonal (causal_mask m)).

(** [torch.empty] and [torch.zeros]: a new tensor of the given shape. *)
Definition new_buffer {A} (rows : nat) (cols : Z) (x : A)
  : result (list (list A)) :=
  if (cols <? 0)%Z then Raise RuntimeError
  else Ok (replicate rows (replicate (Z.to_nat cols) x)).

Definition update_int2 (l : loc)
    (f : list (list Z) -> result (list (list Z))) : M unit :=
  t ← read_int2 l;
  t' ← lift (f t);
  write l (Int2 t').

Definition update_float3 (l : loc)
    (f : list (list (list Q)) -> result (list (list (list Q)))) : M unit :=
  t ← read_float3 l;
  t' ← lift (f t);
  write l (Float3 t').

(** [for i, conf in enumerate(token_confidences):
       confidences[:, T+i+1] = conf], from index [i] on. *)
Fixpoint store_confidences (confidences : loc) (T i : nat)
    (token_confidences : list (list (list (list Q)))) : M unit :=
  match token_confidences with
  | [] => mret tt
  | conf :: rest =>
      update_float3 confidences (fun c => setitem_col3 c (T + i + 1) conf);;
      store_confidences confidences T (S i) rest
  end.

Definition generate (cond : cond_t) (max_new_tokens : Z)
    (emb_masks : option (list (list Z))) (cfg_scale : Q) (cfg_interval : Z)
    (confidence_threshold : Q) (index_mapping : option index_map)
    (kw : sampling_kwargs)
    : M (list (list Z) * list (list (list Q))) :=
  m ← get_model;
  '(cond_combined, T) ←
    (if String.eqb (model_type m) "c2i" then
       cond_combined ←
         (if Qltb 1 cfg_scale then
            let cond_null := null_class cond (num_classes m) in
            lift (torch_cat_cond cond cond_null)
          else mret cond);
       mret (cond_combined, 1%nat)
     else if String.eqb (model_type m) "t2i" then
       cond_combined ←
         (if Qltb 1 cfg_scale then
            lift (cat_null_text cond (uncond_embedding m))
          else mret cond);
       T ← lift (cond_shape1 cond);
       mret (cond_combined, T)
     else raise (Exception "please check model type"));
  let T_new := (Z.of_nat T + max_new_tokens)%Z in
  let max_seq_length := T_new in
  let max_batch_size := cond_shape0 cond in
  let max_batch_size_cfg :=
    if Qltb 1 cfg_scale then (Z.of_nat max_batch_size * 2)%Z
    else Z.of_nat max_batch_size in
  call_setup_caches max_batch_size_cfg max_seq_length;;
  match emb_masks with
  | Some emb_masks => adjust_causal_mask emb_masks max_batch_size T cfg_scale
  | None => mret tt
  end;;
  seq0 ← lift (new_buffer max_batch_size T_new 0%Z);
  seq_buf ← alloc (Int2 seq0);
  confidences0 ← lift (new_buffer max_batch_size T_new [0%Q; 0%Q]);
  confidences ← alloc (Float3 confidences0);
  let input_pos := map Z.of_nat (seq 0 T) in
  '(next_token, first_confidence) ←
    prefill cond_combined input_pos cfg_scale index_mapping kw;
  update_int2 seq_buf (fun s => setitem_cols s T (T + 1) next_token);;
  update_float3 confidences
    (fun c => setitem_cols3 c T (T + 1) first_confidence);;
  let input_pos := [Z.of_nat T] in
  '(generated_tokens, token_confidences) ←
    decode_n_tokens next_token input_pos (max_new_tokens - 1) cfg_scale
                    cfg_interval index_mapping kw;
  cat ← lift (torch_cat_dim1 generated_tokens);
  update_int2 seq_buf (fun s => setitem_cols s (T + 1) (length (hd [] s)) cat);;
  store_confidences confidences T 0 token_confidences;;
  s ← read_int2 seq_buf;
  c ← read_float3 confidences;
  mret (map (drop T) s, map (drop T) c).

(** The guidance flag of iteration [i], in closed form. *)
Definition cfg_flag_at (cfg_interval i : Z) : bool :=
  negb ((-1 <? cfg_interval)%Z && (cfg_interval <? i)%Z).

(** The decode loop with the guidance flag of each iteration given up front:
    one [decode_one_token] call per flag, in order. *)
Fixpoint decode_with_flags (flags : list bool)
    (cur_token : list (list Z)) (input_pos : list Z)
    (new_tokens : list (list (list Z)))
    (new_confidences : list (list (list (list Q))))
    (cfg_scale : Q) (index_mapping : option index_map) (kw : sampling_kwargs)
    : M (list (list (list Z)) * list (list (list (list Q)))) :=
  match flags with
  | [] => mret (new_tokens, new_confidences)
  | cfg_flag :: flags' =>
      '(next_token, token_confidence) ←
        decode_one_token cur_token input_pos cfg_scale cfg_flag
                         index_mapping kw;
      decode_with_flags flags'
        (map (fun t => [t]) (concat next_token))
        (map (fun p => (p + 1)%Z) input_pos)
        (new_tokens ++ [next_token]) (new_confidences ++ [token_confidence])
        cfg_scale index_mapping kw
  end.

(** ** Vocabulary of the statements *)

Definition ge_fst (a b : num * nat) : Prop := num_lt (fst a) (fst b) = false.

Definition ge_num (a b : num) : Prop := num_lt a b = false.

(** The number of entries of [row] that are not below [thr]. *)
Definition kept_count (thr : num) (row : list num) : nat :=
  countb (fun x => negb (num_lt x thr)) row.

(** The rows after the top-k branch, and after the top-p branch. *)
Definition top_k_stage (top_k min_tokens_to_keep : Z) (filter_value : num)
    (rows : list (list num)) : result (list (list num)) :=
  if (0 <? top_k)%Z then
    rbind (rmapM (top_k_mask top_k min_tokens_to_keep) rows) (fun mask =>
    Ok (zip_with (fun row m => masked_fill row m filter_value) rows mask))
  else Ok rows.

Definition top_p_stage (top_p : Q) (min_tokens_to_keep : Z) (filter_value : num)
    (rows : list (list num)) : result (list (list num)) :=
  if Qltb top_p 1 then
    rbind (rmapM (top_p_mask expw rounding top_p min_tokens_to_keep) rows) (fun mask =>
    Ok (zip_with (fun row m => masked_fill row m filter_value) rows mask))
  else Ok rows.

(** Whatever its outcome, the filter touches the store at its argument only,
    and nothing else of the world. *)
Definition writes_only (l : loc) (w w' : World) : Prop :=
  trace w' = trace w /\ model w' = model w /\ rng w' = rng w /\
  length (heap w') = length (heap w) /\
  forall l', l' <> l -> heap w' !! l' = heap w !! l'.

Definition set_rng (n : nat) (w : World) : World :=
  {| heap := heap w; trace := trace w; model := model w; rng := n |}.

(** The world after one call of the model that returned the cells [cells]
    (its logits first) and was followed by the events [events]. *)
Definition after_forward (w : World) (idx : option (list (list Z)))
    (cond_idx : option cond_t) (input_pos : list Z) (m' : Model)
    (cells : list tensor) (events : list event) : World :=
  {| heap := heap w ++ cells;
     trace := (trace w ++ [CalledForward idx cond_idx input_pos]) ++ events;
     model := m';
     rng := rng w |}.

(** The model [m] with [cm] for a causal mask. *)
Definition with_causal_mask (cm : list (list (list Z))) (m : Model) : Model :=
  {| model_type := model_type m; num_classes := num_classes m;
     uncond_embedding := uncond_embedding m;
     causal_mask := cm; cache := cache m |}.

(** Every entry [cm[b][i][i]] is 1. *)
Definition diagonal_ones (cm : list (list (list Z))) : Prop :=
  forall b mat i row,
    cm !! b = Some mat -> mat !! i = Some row -> (i < length row)%nat ->
    row !! i = Some 1%Z.

(** A Python index into a dimension of size [n]. *)
Definition valid_index (n : nat) (i : Z) : Prop :=
  (- Z.of_nat n <= i < Z.of_nat n)%Z.

(** The probability mass of the entries of [out] that are not the sentinel,
    [probs] being the probabilities of the unfiltered row. *)
Definition kept_mass (probs : list Q) (out : list num) : Q :=
  Qsum (zip_with (fun P x => if is_fin x then P else 0%Q) probs out).

(** ** [logits_to_probs] *)

(** [x / t] on a float that may be the sentinel. *)
Definition num_div (x : num) (t : Q) : num :=
  match x with NegInf => NegInf | Fin q => Fin (q / t) end.

(** [logits_to_probs(logits, temperature, top_p, top_k)] on a tensor of shape
    (batch, vocabulary); [top_k] is [None] when the caller leaves it out, and
    [None > 0] is a [TypeError]. *)
Definition logits_to_probs (logits : loc) (temperature : Q) (top_p : Q)
    (top_k : option Z) : M (list (list Q)) :=
  t ← read_float2 logits;
  logits ← alloc (Float2
    (map (map (fun x => num_div x (floor_temperature temperature))) t));
  k ← match top_k with Some k => mret k | None => raise TypeError end;
  logits ← (if (0 <? k)%Z || Qltb top_p 1
            then top_k_top_p_filtering logits k top_p NegInf 1
            else mret logits);
  lg ← read_float2 logits;
  mret (map (softmax expw) lg).

(** ** More vocabulary of the statements *)

(** [x] is a largest entry of [row]. *)
Definition largest_in (row : list num) (x : num) : Prop :=
  forall y, y ∈ row -> num_lt x y = false.

(** [row'] is [row] with some entries replaced by the sentinel, a largest
    entry of [row] not among them. *)
Definition keeps_a_largest (row row' : list num) : Prop :=
  length row' = length row /\
  (forall i x', row' !! i = Some x' -> x' = NegInf \/ row !! i = Some x') /\
  exists i x, row !! i = Some x /\ row' !! i = Some x /\ largest_in row x.

(** Logits of shape (batch, positions, vocab) with at least one position. *)
Definition well_shaped (vocab batch : nat) (logits : list (list (list Q)))
  : Prop :=
  length logits = batch /\
  Forall (fun x => x <> [] /\ Forall (fun row => length row = vocab) x) logits.

(** What a guided step hands to [sample], [h] being half the batch. *)
Definition guided_logits (cfg_scale : Q) (cfg_flag : bool) (h : nat)
    (logits : list (list (list Q))) : list (list (list Q)) :=
  if cfg_flag then cfg_mix (take h logits) (drop h logits) cfg_scale
  else take h logits.

(** A sampled token per batch row, as the tensor of shape (batch, 1). *)
Definition token_column (ids : list nat) : list (list Z) :=
  map (fun i => [Z.of_nat i]) ids.

(** What [decode_one_token] feeds the model: the tokens, twice over under
    guidance. *)
Definition fed_tokens (cfg_scale : Q) (x : list (list Z)) : list (list Z) :=
  if Qltb 1 cfg_scale then x ++ x else x.

(** The calls of the model that a run of the decode loop makes, the loop
    starting from the token [cur] at position [p] and producing [tokens]:
    each call is fed the token of the step before it, at the next position. *)
Fixpoint decode_calls (cfg_scale : Q) (cur : list (list Z)) (p : Z)
    (tokens : list (list (list Z))) : list event :=
  match tokens with
  | [] => []
  | tok :: rest =>
      CalledForward (Some (fed_tokens cfg_scale cur)) None [p]
      :: decode_calls cfg_scale tok (p + 1)%Z rest
  end.

(** * Properties *)

(** ** Order on floats *)

Lemma Qltb_lt x y : Qltb x y = true <-> (x < y)%Q.
Proof.
  unfold Qltb. rewrite negb_true_iff, <- not_true_iff_false, Qle_bool_iff.
  split; [apply Qnot_le_lt | apply Qlt_not_le].
Qed.

Lemma Qltb_ge x y : Qltb x y = false <-> (y <= x)%Q.
Proof. unfold Qltb. rewrite negb_false_iff. apply Qle_bool_iff. Qed.

Lemma num_lt_irrefl a : num_lt a a = false.
Proof. destruct a; simpl; [done|]. apply Qltb_ge, Qle_refl. Qed.

Lemma num_ge_trans a b c :
  num_lt a b = false -> num_lt b c = false -> num_lt a c = false.
Proof.
  destruct a, b, c; simpl; try done.
  rewrite !Qltb_ge. intros. lra.
Qed.

Lemma num_lt_asym a b : num_lt a b = true -> num_lt b a = false.
Proof.
  destruct a, b; simpl; try done.
  rewrite Qltb_lt, Qltb_ge. intros. lra.
Qed.

Lemma num_eqb_antisym a b :
  num_lt a b = false -> num_lt b a = false -> num_eqb a b = true.
Proof.
  destruct a, b; simpl; try done.
  rewrite !Qltb_ge, Qeq_bool_iff. intros. lra.
Qed.

(** ** Counting *)

Lemma countb_cons {A} (f : A -> bool) x l :
  countb f (x :: l) = ((if f x then 1 else 0) + countb f l)%nat.
Proof. unfold countb. simpl. by destruct (f x). Qed.

Lemma countb_app {A} (f : A -> bool) l1 l2 :
  countb f (l1 ++ l2) = (countb f l1 + countb f l2)%nat.
Proof.
  induction l1 as [|x l1 IH]; [done|].
  rewrite <- app_comm_cons, !countb_cons, IH. lia.
Qed.

Lemma countb_perm {A} (f : A -> bool) l1 l2 :
  l1 ≡ₚ l2 -> countb f l1 = countb f l2.
Proof.
  induction 1 as [|x l1 l2 _ IH|x y l|l1 l2 l3 _ IH1 _ IH2].
  - done.
  - by rewrite !countb_cons, IH.
  - rewrite !countb_cons. lia.
  - congruence.
Qed.

Lemma countb_all {A} (f : A -> bool) l :
  Forall (fun x => f x = true) l -> countb f l = length l.
Proof.
  induction 1 as [|x l Hx _ IH]; [done|].
  rewrite countb_cons, Hx, IH. done.
Qed.

Lemma countb_none {A} (f : A -> bool) l :
  Forall (fun x => f x = false) l -> countb f l = 0%nat.
Proof.
  induction 1 as [|x l Hx _ IH]; [done|].
  rewrite countb_cons, Hx, IH. done.
Qed.

Lemma countb_ext {A} (f g : A -> bool) l :
  Forall (fun x => f x = g x) l -> countb f l = countb g l.
Proof.
  induction 1 as [|x l Hx _ IH]; [done|].
  by rewrite !countb_cons, Hx, IH.
Qed.

Lemma countb_map {A B} (f : B -> bool) (g : A -> B) l :
  countb f (map g l) = countb (fun x => f (g x)) l.
Proof.
  induction l as [|x l IH]; [done|].
  cbn [map]. by rewrite !countb_cons, IH.
Qed.

(** ** Sorting *)

Lemma insert_desc_perm x l : insert_desc x l ≡ₚ x :: l.
Proof.
  induction l as [|y l IH]; simpl; [done|].
  destruct (num_lt (fst x) (fst y)); [|done].
  rewrite IH. apply Permutation_swap.
Qed.

Lemma insert_desc_sorted x l :
  StronglySorted ge_fst l -> StronglySorted ge_fst (insert_desc x l).
Proof.
  induction 1 as [|y l Hs IH Hy]; simpl.
  - repeat constructor.
  - destruct (num_lt (fst x) (fst y)) eqn:Hxy.
    + constructor; [done|].
      rewrite insert_desc_perm. constructor; [|done].
      by apply num_lt_asym.
    + constructor; [by constructor|].
      constructor; [done|].
      eapply Forall_impl; [exact Hy|].
      intros z Hz. unfold ge_fst in *. by eapply num_ge_trans.
Qed.

Lemma sort_desc_perm row : sort_desc row ≡ₚ zip row (seq 0 (length row)).
Proof.
  unfold sort_desc. induction (zip row (seq 0 (length row))) as [|x l IH].
  - done.
  - simpl. by rewrite insert_desc_perm, IH.
Qed.

Lemma sort_desc_sorted row : StronglySorted ge_fst (sort_desc row).
Proof.
  unfold sort_desc. induction (zip row (seq 0 (length row))) as [|x l IH].
  - constructor.
  - simpl. by apply insert_desc_sorted.
Qed.

Lemma sort_desc_values row : map fst (sort_desc row) ≡ₚ row.
Proof.
  rewrite sort_desc_perm.
  change (map fst (zip row (seq 0 (length row))))
    with (fst <$> zip row (seq 0 (length row))).
  rewrite fst_zip; [done|]. by rewrite length_seq.
Qed.

Lemma sort_desc_indices row :
  map snd (sort_desc row) ≡ₚ seq 0 (length row).
Proof.
  rewrite sort_desc_perm.
  change (map snd (zip row (seq 0 (length row))))
    with (snd <$> zip row (seq 0 (length row))).
  rewrite snd_zip; [done|]. by rewrite length_seq.
Qed.

Lemma sort_desc_length row : length (sort_desc row) = length row.
Proof.
  rewrite <- (length_map fst). apply Permutation_length, sort_desc_values.
Qed.

Lemma sort_desc_values_sorted row :
  StronglySorted ge_num (map fst (sort_desc row)).
Proof.
  induction (sort_desc_sorted row) as [|x l _ IH Hx]; simpl.
  - constructor.
  - constructor; [done|]. apply Forall_map.
    eapply Forall_impl; [exact Hx|]. done.
Qed.

(** In a descending list the first [k+1] entries are at least the entry at
    position [k], and the others are at most that entry. *)
Lemma sorted_take_drop (s : list num) k thr :
  StronglySorted ge_num s -> s !! k = Some thr ->
  Forall (fun x => num_lt x thr = false) (take (S k) s) /\
  Forall (fun x => num_lt thr x = false) (drop (S k) s).
Proof.
  intros Hs. revert k. induction Hs as [|a s Hs IH Ha]; intros k Hk; [done|].
  destruct k as [|k]; simpl in Hk.
  - injection Hk as ->. split.
    + rewrite firstn_cons, take_0. constructor; [apply num_lt_irrefl|done].
    + done.
  - destruct (IH k Hk) as [IH1 IH2]. split; [|done].
    rewrite firstn_cons. constructor; [|done].
    eapply Forall_forall in Ha; [exact Ha|].
    eapply list_elem_of_lookup_2. exact Hk.
Qed.

Lemma countb_zero {A} (f : A -> bool) l :
  countb f l = 0%nat -> Forall (fun x => f x = false) l.
Proof.
  induction l as [|x l IH]; [done|].
  rewrite countb_cons. destruct (f x) eqn:Hx; [done|].
  intros H. constructor; [done|]. apply IH. lia.
Qed.

Lemma countb_pos {A} (f : A -> bool) l x :
  In x l -> f x = true -> (1 <= countb f l)%nat.
Proof.
  induction l as [|y l IH]; [done|].
  rewrite countb_cons. intros [->|Hin] Hx.
  - rewrite Hx. lia.
  - specialize (IH Hin Hx). lia.
Qed.

Lemma num_eqb_refl a : num_eqb a a = true.
Proof. destruct a; simpl; [done|]. by apply Qeq_bool_iff. Qed.

(** The entry at (0-based) position [k] of the descending order has at least
    [k+1] entries not below it, and exactly [k+1] when no other entry of the
    row equals it. *)
Lemma kth_largest_count row k thr :
  map fst (sort_desc row) !! k = Some thr ->
  (S k <= kept_count thr row)%nat /\
  (countb (num_eqb thr) row = 1%nat -> kept_count thr row = S k).
Proof.
  intros Hk.
  pose proof (sort_desc_values row) as Hperm.
  pose proof (sort_desc_values_sorted row) as Hsorted.
  set (s := map fst (sort_desc row)) in *. clearbody s.
  assert (Hlen : (k < length s)%nat) by (by eapply lookup_lt_Some).
  destruct (sorted_take_drop s k thr Hsorted Hk) as [Htake Hdrop].
  assert (Hsplit : forall f : num -> bool,
             countb f row
             = (countb f (take (S k) s) + countb f (drop (S k) s))%nat).
  { intros f. rewrite <- (countb_perm f _ _ Hperm), <- countb_app.
    by rewrite take_drop. }
  unfold kept_count. rewrite Hsplit.
  rewrite (countb_all _ (take (S k) s)).
  2:{ eapply Forall_impl; [exact Htake|]. intros x ->. done. }
  rewrite length_take. split; [lia|].
  intros Hone. rewrite Hsplit in Hone.
  assert (1 <= countb (num_eqb thr) (take (S k) s))%nat.
  { apply (countb_pos _ _ thr); [|apply num_eqb_refl].
    apply list_elem_of_In. apply (list_elem_of_lookup_2 _ k).
    rewrite lookup_take_lt by lia. exact Hk. }
  rewrite (countb_none _ (drop (S k) s)); [lia|].
  assert (Hz : countb (num_eqb thr) (drop (S k) s) = 0%nat) by lia.
  apply countb_zero in Hz.
  rewrite Forall_forall in Hz, Hdrop. apply Forall_forall. intros x Hx.
  specialize (Hz x Hx). specialize (Hdrop x Hx). simpl in *.
  apply negb_false_iff.
  destruct (num_lt x thr) eqn:Hlt; [done|].
  rewrite (num_eqb_antisym thr x) in Hz; done.
Qed.

Lemma clamp_top_k_range top_k min_tokens_to_keep vocab :
  (0 < top_k)%Z -> (0 < vocab)%nat ->
  (1 <= clamp_top_k top_k min_tokens_to_keep vocab <= Z.of_nat vocab)%Z.
Proof. unfold clamp_top_k. lia. Qed.

(** What the top-k branch computes on one non-empty row. *)
Lemma top_k_mask_spec top_k min_tokens_to_keep row :
  (0 < top_k)%Z -> row <> [] ->
  let k := Z.to_nat (clamp_top_k top_k min_tokens_to_keep (length row)) in
  exists thr,
    map fst (sort_desc row) !! (k - 1)%nat = Some thr /\
    top_k_mask top_k min_tokens_to_keep row
    = Ok (map (fun x => num_lt x thr) row).
Proof.
  intros Hk Hrow k.
  assert (Hv : (0 < length row)%nat) by (destruct row; [done|simpl; lia]).
  pose proof (clamp_top_k_range top_k min_tokens_to_keep _ Hk Hv) as Hc.
  unfold top_k_mask, topk_values. fold k.
  replace ((_ <? 0)%Z || _) with false.
  2:{ symmetry. apply orb_false_iff. split; [apply Z.ltb_ge|apply Z.ltb_ge]; lia. }
  simpl. unfold last_elem. rewrite last_lookup.
  rewrite length_take, length_map, sort_desc_length.
  replace (Init.Nat.pred (k `min` length row)) with (k - 1)%nat by lia.
  rewrite lookup_take_lt by lia.
  destruct (map fst (sort_desc row) !! (k - 1)%nat) as [thr|] eqn:Hthr.
  - by exists thr.
  - apply lookup_ge_None in Hthr. rewrite length_map, sort_desc_length in Hthr. lia.
Qed.

(** ** Running the monad *)

Lemma bind_run {A B} (m : M A) (f : A -> M B) w :
  (m ≫= f) w
  = match m w with
    | (Ok a, w') => f a w'
    | (Raise e, w') => (Raise e, w')
    end.
Proof. reflexivity. Qed.

Lemma lift_run {A} (r : result A) w : lift r w = (r, w).
Proof. reflexivity. Qed.

Lemma set_heap_id w : set_heap (heap w) w = w.
Proof. by destruct w. Qed.

(** ** The guidance latch of the decode loop *)

Lemma decode_loop_flags n : forall i cfg_flag cur_token input_pos new_tokens
    new_confidences cfg_scale cfg_interval index_mapping kw w,
  (0 <= i)%Z ->
  cfg_flag = cfg_flag_at cfg_interval (i - 1) ->
  decode_loop n i cfg_flag cur_token input_pos new_tokens new_confidences
              cfg_scale cfg_interval index_mapping kw w
  = decode_with_flags (map (cfg_flag_at cfg_interval) (seqZ i (Z.of_nat n)))
      cur_token input_pos new_tokens new_confidences
      cfg_scale index_mapping kw w.
Proof.
  induction n as [|n IH]; intros i cfg_flag cur_token input_pos new_tokens
    new_confidences cfg_scale cfg_interval index_mapping kw w Hi Hflag.
  - reflexivity.
  - rewrite Nat2Z.inj_succ, seqZ_cons by lia.
    cbn [decode_loop map decode_with_flags].
    assert (Hlatch :
      (if (-1 <? cfg_interval)%Z && (cfg_interval <? i)%Z
       then false else cfg_flag) = cfg_flag_at cfg_interval i).
    { subst cfg_flag. unfold cfg_flag_at.
      destruct (-1 <? cfg_interval)%Z eqn:H1; [|done].
      destruct (cfg_interval <? i)%Z eqn:H2; [done|].
      simpl. apply Z.ltb_ge in H2.
      replace (cfg_interval <? i - 1)%Z with false; [done|].
      symmetry. apply Z.ltb_ge. lia. }
    rewrite Hlatch, !bind_run.
    destruct (decode_one_token _ _ _ _ _ _ w) as [[[next conf]|e] w']; [|done].
    replace (Z.pred (Z.succ (Z.of_nat n))) with (Z.of_nat n) by lia.
    apply IH; [lia|]. f_equal. lia.
Qed.

(** C7. The guidance flag handed to [decode_one_token] is a one-way latch:
    [decode_n_tokens] runs one [decode_one_token] per iteration, iteration [i]
    with the flag [cfg_flag_at cfg_interval i]; that flag is true at iteration
    0, once false it stays false, for [cfg_interval > -1] it is false exactly
    at the iterations with [i > cfg_interval], and for [cfg_interval = -1] it
    is true throughout.  With [cfg_interval = 5] and 10 steps the flags are
    true for steps 0-5 and false for steps 6-9. *)
Theorem cfg_flag_is_one_way_latch cur_token input_pos num_new_tokens cfg_scale
    cfg_interval index_mapping kw w :
  decode_n_tokens cur_token input_pos num_new_tokens cfg_scale cfg_interval
                  index_mapping kw w
  = decode_with_flags
      (map (cfg_flag_at cfg_interval)
           (seqZ 0 (Z.of_nat (Z.to_nat num_new_tokens))))
      cur_token input_pos [] [] cfg_scale index_mapping kw w
  /\ cfg_flag_at cfg_interval 0 = true
  /\ (forall i j, (0 <= i <= j)%Z ->
        cfg_flag_at cfg_interval i = false ->
        cfg_flag_at cfg_interval j = false)
  /\ ((-1 < cfg_interval)%Z ->
      forall i, (0 <= i)%Z ->
        (cfg_flag_at cfg_interval i = false <-> (cfg_interval < i)%Z))
  /\ (cfg_interval = (-1)%Z -> forall i, cfg_flag_at cfg_interval i = true)
  /\ map (cfg_flag_at 5) (seqZ 0 10)
     = [true; true; true; true; true; true; false; false; false; false].
Proof.
  split; [|split; [|split; [|split; [|split]]]].
  - unfold decode_n_tokens. apply decode_loop_flags; [lia|].
    unfold cfg_flag_at. symmetry. apply negb_true_iff, andb_false_iff.
    destruct (-1 <? cfg_interval)%Z eqn:H1; [right|by left].
    apply Z.ltb_lt in H1. apply Z.ltb_ge. lia.
  - unfold cfg_flag_at. apply negb_true_iff, andb_false_iff.
    destruct (-1 <? cfg_interval)%Z eqn:H1; [right|by left].
    apply Z.ltb_lt in H1. apply Z.ltb_ge. lia.
  - intros i j Hij. unfold cfg_flag_at.
    rewrite !negb_false_iff, !andb_true_iff, !Z.ltb_lt. lia.
  - intros Hci i Hi. unfold cfg_flag_at.
    rewrite negb_false_iff, andb_true_iff, !Z.ltb_lt. lia.
  - intros -> i. reflexivity.
  - reflexivity.
Qed.

(** ** The mode check of [generate] *)

(** C9. When the model's mode is neither ['c2i'] nor ['t2i'], [generate]
    raises its configuration error and leaves the world as it found it: the
    store has no new buffer, [setup_caches] and the model were not called, and
    the model object is unchanged. *)
Theorem generate_unsupported_mode cond max_new_tokens emb_masks cfg_scale
    cfg_interval confidence_threshold index_mapping kw w :
  model_type (model w) <> "c2i" ->
  model_type (model w) <> "t2i" ->
  generate cond max_new_tokens emb_masks cfg_scale cfg_interval
           confidence_threshold index_mapping kw w
  = (Raise (Exception "please check model type"), w).
Proof.
  intros Hc Ht. unfold generate. rewrite bind_run. cbn [get_model].
  apply String.eqb_neq in Hc, Ht. rewrite Hc, Ht.
  rewrite bind_run. reflexivity.
Qed.

(** ** The filter on the store *)

Lemma read_float2_run w l t :
  heap w !! l = Some (Float2 t) -> read_float2 l w = (Ok t, w).
Proof. intros H. unfold read_float2, read. rewrite bind_run, H. done. Qed.

Lemma read_float3_run w l t :
  heap w !! l = Some (Float3 t) -> read_float3 l w = (Ok t, w).
Proof. intros H. unfold read_float3, read. rewrite bind_run, H. done. Qed.

Lemma read_int2_run w l t :
  heap w !! l = Some (Int2 t) -> read_int2 l w = (Ok t, w).
Proof. intros H. unfold read_int2, read. rewrite bind_run, H. done. Qed.

Lemma set_heap_set_heap h1 h2 w : set_heap h2 (set_heap h1 w) = set_heap h2 w.
Proof. reflexivity. Qed.

Lemma masked_fill_inplace_run w l t mask v :
  heap w !! l = Some (Float2 t) ->
  masked_fill_inplace l mask v w
  = (Ok tt, set_heap
              (<[l := Float2 (zip_with (fun row m => masked_fill row m v) t mask)]>
                 (heap w)) w).
Proof.
  intros H. unfold masked_fill_inplace.
  rewrite bind_run, (read_float2_run _ _ _ H). reflexivity.
Qed.

(** The filter writes its result over its argument, and returns that argument. *)
Lemma top_k_top_p_filtering_run w l rows top_k top_p fv mk r1 r2 :
  heap w !! l = Some (Float2 rows) ->
  top_k_stage top_k mk fv rows = Ok r1 ->
  top_p_stage top_p mk fv r1 = Ok r2 ->
  top_k_top_p_filtering l top_k top_p fv mk w
  = (Ok l, set_heap (<[l := Float2 r2]> (heap w)) w).
Proof.
  intros Hl H1 H2. unfold top_k_top_p_filtering.
  assert (Hlt : (l < length (heap w))%nat) by (by eapply lookup_lt_Some).
  assert (Hstage1 :
    (if (0 <? top_k)%Z
     then t ← read_float2 l;
          indices_to_remove ← lift (rmapM (top_k_mask top_k mk) t);
          masked_fill_inplace l indices_to_remove fv
     else mret tt) w
    = (Ok tt, set_heap (<[l := Float2 r1]> (heap w)) w)).
  { unfold top_k_stage in H1. destruct (0 <? top_k)%Z.
    - rewrite bind_run, (read_float2_run _ _ _ Hl), bind_run, lift_run.
      destruct (rmapM (top_k_mask top_k mk) rows) as [mask|e]; [|done].
      simpl in H1. injection H1 as <-.
      by apply masked_fill_inplace_run.
    - injection H1 as <-. rewrite list_insert_id by done.
      by rewrite set_heap_id. }
  rewrite bind_run, Hstage1.
  set (w1 := set_heap (<[l := Float2 r1]> (heap w)) w).
  assert (Hl1 : heap w1 !! l = Some (Float2 r1)).
  { subst w1. simpl. by apply list_lookup_insert_eq. }
  assert (Hstage2 :
    (if Qltb top_p 1
     then t ← read_float2 l;
          indices_to_remove ← lift (rmapM (top_p_mask expw rounding top_p mk) t);
          masked_fill_inplace l indices_to_remove fv
     else mret tt) w1
    = (Ok tt, set_heap (<[l := Float2 r2]> (heap w)) w)).
  { unfold top_p_stage in H2. destruct (Qltb top_p 1).
    - rewrite bind_run, (read_float2_run _ _ _ Hl1), bind_run, lift_run.
      destruct (rmapM (top_p_mask expw rounding top_p mk) r1) as [mask|e]; [|done].
      simpl in H2. injection H2 as <-.
      rewrite (masked_fill_inplace_run w1 l r1) by done.
      subst w1. simpl. by rewrite list_insert_insert_eq.
    - injection H2 as <-. done. }
  rewrite bind_run, Hstage2. reflexivity.
Qed.

Lemma writes_only_refl l w : writes_only l w w.
Proof. by repeat split. Qed.

Lemma writes_only_trans l w1 w2 w3 :
  writes_only l w1 w2 -> writes_only l w2 w3 -> writes_only l w1 w3.
Proof.
  intros (?&?&?&?&Ha) (?&?&?&?&Hb). repeat split; try congruence.
  intros l' Hl'. by rewrite Hb, Ha.
Qed.

Lemma read_float2_world w l : snd (read_float2 l w) = w.
Proof.
  unfold read_float2, read. rewrite bind_run.
  destruct (heap w !! l) as [[]|]; reflexivity.
Qed.

Lemma read_float3_world w l : snd (read_float3 l w) = w.
Proof.
  unfold read_float3, read. rewrite bind_run.
  destruct (heap w !! l) as [[]|]; reflexivity.
Qed.

Lemma masked_fill_inplace_writes_only l mask v w :
  writes_only l w (snd (masked_fill_inplace l mask v w)).
Proof.
  unfold masked_fill_inplace. rewrite bind_run.
  pose proof (read_float2_world w l) as Hw.
  destruct (read_float2 l w) as [[t|e] w1]; simpl in Hw; subst w1;
    [|apply writes_only_refl].
  simpl. repeat split; simpl; try done.
  - by rewrite length_insert.
  - intros l' Hl'. by apply list_lookup_insert_ne.
Qed.

Lemma filter_stage_writes_only (b : bool) (f : list num -> result (list bool))
    l v w :
  writes_only l w
    (snd ((if b
           then t ← read_float2 l;
                indices_to_remove ← lift (rmapM f t);
                masked_fill_inplace l indices_to_remove v
           else mret tt) w)).
Proof.
  destruct b; [|apply writes_only_refl].
  rewrite bind_run.
  pose proof (read_float2_world w l) as Hw.
  destruct (read_float2 l w) as [[t|e] w1]; simpl in Hw; subst w1;
    [|apply writes_only_refl].
  rewrite bind_run, lift_run.
  destruct (rmapM f t) as [mask|e]; [|apply writes_only_refl].
  apply masked_fill_inplace_writes_only.
Qed.

Lemma bind_writes_only {A B} l (m : M A) (f : A -> M B) :
  (forall w, writes_only l w (snd (m w))) ->
  (forall a w, writes_only l w (snd (f a w))) ->
  forall w, writes_only l w (snd ((m ≫= f) w)).
Proof.
  intros Hm Hf w. rewrite bind_run. specialize (Hm w).
  destruct (m w) as [[a|e] w1]; simpl in *; [|done].
  eapply writes_only_trans; [exact Hm|apply Hf].
Qed.

Lemma top_k_top_p_filtering_writes_only l top_k top_p fv mk w :
  writes_only l w (snd (top_k_top_p_filtering l top_k top_p fv mk w)).
Proof.
  unfold top_k_top_p_filtering. revert w.
  apply bind_writes_only; [intros w; apply filter_stage_writes_only|].
  intros _. apply bind_writes_only; [intros w; apply filter_stage_writes_only|].
  intros _ w. apply writes_only_refl.
Qed.

Lemma top_k_top_p_filtering_returns_arg l top_k top_p fv mk w l' w' :
  top_k_top_p_filtering l top_k top_p fv mk w = (Ok l', w') -> l' = l.
Proof.
  unfold top_k_top_p_filtering. rewrite bind_run.
  match goal with
  | |- context [match ?x with pair _ _ => _ end] => destruct x as [[[]|?] w1]
  end; [|done].
  rewrite bind_run.
  match goal with
  | |- context [match ?x with pair _ _ => _ end] => destruct x as [[[]|?] w2]
  end; [|done].
  unfold mret, M_ret. by intros [= <- _].
Qed.

(** ** The sampler on the store *)

Lemma multinomial_rows_spec probs : forall w,
  exists n, snd (multinomial_rows probs w) = set_rng n w /\
  forall ids, fst (multinomial_rows probs w) = Ok ids ->
    Forall2 (fun (row : list Q) i => (i < length row)%nat) probs ids.
Proof.
  induction probs as [|row rest IH]; intros w.
  - exists (rng w). split; [by destruct w|]. intros ids [= <-]. constructor.
  - cbn [multinomial_rows]. rewrite bind_run. cbn beta iota.
    rewrite bind_run.
    destruct (multinomial_draw (rng w) row <? length row)%nat eqn:Hlt.
    + cbn [mret M_ret]. rewrite bind_run.
      destruct (IH (set_rng (S (rng w)) w)) as (n & Hw & Hids).
      change {| heap := heap w; trace := trace w; model := model w;
                rng := S (rng w) |} with (set_rng (S (rng w)) w).
      destruct (multinomial_rows rest (set_rng (S (rng w)) w))
        as [[ids|e] w1]; simpl in *; subst w1.
      * exists n. split; [done|]. intros ids' [= <-].
        constructor; [by apply Nat.ltb_lt|by apply Hids].
      * exists n. split; [done|]. done.
    + exists (S (rng w)). split; [done|]. done.
Qed.

Lemma writes_only_fresh (h : list tensor) x w w2 :
  writes_only (length h) (set_heap (h ++ [x]) w) w2 ->
  exists y, heap w2 = h ++ [y].
Proof.
  intros (_ & _ & _ & Hlen & Hother).
  cbn [heap set_heap] in Hlen, Hother. rewrite length_app in Hlen.
  cbn [length] in Hlen.
  destruct (heap w2 !! length h) as [y|] eqn:Hy.
  2:{ apply lookup_ge_None in Hy. lia. }
  exists y. apply list_eq. intros i.
  destruct (decide (i = length h)) as [->|Hne].
  - rewrite Hy, lookup_app_r by done. by rewrite Nat.sub_diag.
  - rewrite (Hother i Hne).
    destruct (decide (i < length h)%nat).
    + by rewrite !lookup_app_l by done.
    + rewrite !lookup_app_r by lia.
      destruct (i - length h)%nat as [|j] eqn:Hj; [lia|done].
Qed.

Lemma rmapM_length {A B} (f : A -> result B) l ys :
  rmapM f l = Ok ys -> length ys = length l.
Proof.
  revert ys. induction l as [|x l IH]; intros ys.
  - by intros [= <-].
  - cbn [rmapM]. destruct (f x) as [y|e]; [|done]. cbn [rbind].
    destruct (rmapM f l) as [ys'|e]; [|done]. cbn [rbind].
    intros [= <-]. simpl. f_equal. by apply IH.
Qed.

Lemma rmapM_lookup {A B} (f : A -> result B) l ys i x :
  rmapM f l = Ok ys -> l !! i = Some x ->
  exists y, ys !! i = Some y /\ f x = Ok y.
Proof.
  revert ys i. induction l as [|x0 l IH]; intros ys i; [done|].
  cbn [rmapM]. destruct (f x0) as [y0|e] eqn:Hy0; [|done]. cbn [rbind].
  destruct (rmapM f l) as [ys'|e]; [|done]. cbn [rbind].
  intros [= <-]. destruct i as [|i]; simpl.
  - intros [= <-]. by exists y0.
  - intros Hi. by eapply IH.
Qed.

(** The draw changes the generator only, and gives one token per row. *)
Lemma choose_tokens_spec (b : bool) probs w :
  (exists n, snd (choose_tokens b probs w) = set_rng n w) /\
  forall tc ids, fst (choose_tokens b probs w) = Ok (tc, ids) ->
    length tc = length probs /\ length ids = length probs.
Proof.
  unfold choose_tokens. destruct b.
  - rewrite bind_run.
    destruct (multinomial_rows_spec probs w) as (n & Hw & Hids).
    destruct (multinomial_rows probs w) as [[ids|e] w1]; simpl in Hw; subst w1.
    + split; [by exists n|]. intros tc ids' [= <- <-].
      specialize (Hids ids eq_refl). apply Forall2_length in Hids.
      rewrite length_zip_with. lia.
    + split; [by exists n|]. done.
  - rewrite bind_run, lift_run.
    destruct (rmapM top1 probs) as [r|e] eqn:Hr.
    + split; [exists (rng w); by destruct w|].
      intros tc ids [= <- <-]. apply rmapM_length in Hr.
      by rewrite !length_map.
    + split; [exists (rng w); by destruct w|]. done.
Qed.

(** The filter as [sample] calls it, on the tensor [sample] made. *)
Lemma sample_filter_fresh kw (h : list tensor) x w r w2 :
  (if (0 <? top_k kw)%Z || Qltb (top_p kw) 1
   then top_k_top_p_filtering (length h) (top_k kw) (top_p kw) NegInf 1
   else mret (length h)) (set_heap (h ++ [x]) w) = (r, w2) ->
  (exists y, heap w2 = h ++ [y]) /\
  trace w2 = trace w /\ model w2 = model w /\ rng w2 = rng w /\
  forall l2, r = Ok l2 -> l2 = length h.
Proof.
  intros Hrun.
  assert (Hwo : writes_only (length h) (set_heap (h ++ [x]) w) w2).
  { destruct ((0 <? top_k kw)%Z || Qltb (top_p kw) 1).
    - pose proof (top_k_top_p_filtering_writes_only (length h) (top_k kw)
                    (top_p kw) NegInf 1 (set_heap (h ++ [x]) w)) as H.
      by rewrite Hrun in H.
    - injection Hrun as <- <-. apply writes_only_refl. }
  split; [by eapply writes_only_fresh|].
  destruct Hwo as (Ht & Hm & Hr & _). repeat split; try done.
  intros l2 ->. destruct ((0 <? top_k kw)%Z || Qltb (top_p kw) 1).
  - by eapply top_k_top_p_filtering_returns_arg.
  - by injection Hrun as <- _.
Qed.

(** The store after [sample], whatever its outcome: the store before,
    followed by the tensors [sample] made; trace and model are untouched. *)
Lemma sample_world logits kw index_mapping w :
  exists fresh,
    heap (snd (sample logits kw index_mapping w)) = heap w ++ fresh /\
    trace (snd (sample logits kw index_mapping w)) = trace w /\
    model (snd (sample logits kw index_mapping w)) = model w.
Proof.
  unfold sample. rewrite bind_run.
  pose proof (read_float3_world w logits) as Hw.
  destruct (read_float3 logits w) as [[t|e] w0]; simpl in Hw; subst w0.
  2:{ exists []. by rewrite app_nil_r. }
  rewrite bind_run, lift_run.
  destruct (rmapM last_elem t) as [last|e].
  2:{ exists []. by rewrite app_nil_r. }
  rewrite bind_run. cbn [alloc]. rewrite bind_run.
  match goal with
  | |- context [match ?x with pair _ _ => _ end] =>
      destruct x as [r w2] eqn:Hrun
  end.
  apply sample_filter_fresh in Hrun as ([y Hy] & Ht & Hm & Hr & Hl).
  destruct r as [l2|e]; [|by exists [y]].
  rewrite bind_run.
  pose proof (read_float2_world w2 l2) as Hw.
  destruct (read_float2 l2 w2) as [[lg|e] w0]; simpl in Hw; subst w0;
    [|by exists [y]].
  cbn zeta. rewrite bind_run.
  destruct (choose_tokens_spec (sample_logits kw) (map (softmax expw) lg) w2)
    as [[n Hn] _].
  destruct (choose_tokens _ _ w2) as [[[tc idx]|e] w3]; simpl in Hn; subst w3;
    [|by exists [y]].
  rewrite bind_run, lift_run.
  destruct (paired_confidences _ _ _); by exists [y].
Qed.

(** C10. [sample] never changes the tensor its caller passed: whatever the
    outcome, the cell of [logits] holds after [sample] what it held before,
    and so does every cell the store had; the filter's in-place writes go to
    the tensor that [sample] built from the last position divided by the
    floored temperature, which is a new cell at the end of the store. *)
Theorem sample_leaves_callers_logits logits kw index_mapping w :
  heap (snd (sample logits kw index_mapping w)) !! logits = heap w !! logits /\
  take (length (heap w)) (heap (snd (sample logits kw index_mapping w)))
  = heap w /\
  forall l, (l < length (heap w))%nat ->
    heap (snd (sample logits kw index_mapping w)) !! l = heap w !! l.
Proof.
  destruct (sample_world logits kw index_mapping w) as (fresh & Hh & _).
  assert (Hlt : forall l, (l < length (heap w))%nat ->
            heap (snd (sample logits kw index_mapping w)) !! l = heap w !! l).
  { intros l Hl. rewrite Hh. by apply lookup_app_l. }
  split; [|split; [|done]].
  - destruct (decide (logits < length (heap w))%nat) as [Hl|Hl]; [by apply Hlt|].
    unfold sample. rewrite bind_run. unfold read_float3, read.
    rewrite bind_run.
    destruct (heap w !! logits) eqn:Hlook; [|done].
    apply lookup_lt_Some in Hlook. lia.
  - rewrite Hh. by rewrite take_app_length.
Qed.

(** ** Top-k *)

Lemma rmapM_Forall2 {A B} (f : A -> result B) (P : A -> B -> Prop) l :
  Forall (fun x => exists y, f x = Ok y /\ P x y) l ->
  exists ys, rmapM f l = Ok ys /\ Forall2 P l ys.
Proof.
  induction 1 as [|x l (y & Hy & HP) _ (ys & Hys & HPs)].
  - exists []. by split; [|constructor].
  - exists (y :: ys). cbn [rmapM]. rewrite Hy, Hys. by split; [|constructor].
Qed.

Lemma zip_with_Forall2 {A B C} (f : A -> B -> C) (P : A -> B -> Prop)
    (Q' : A -> C -> Prop) l k :
  Forall2 P l k -> (forall x y, P x y -> Q' x (f x y)) ->
  Forall2 Q' l (zip_with f l k).
Proof.
  intros H HPQ. induction H; simpl; constructor; auto.
Qed.

Lemma masked_fill_map row (g : num -> bool) v :
  masked_fill row (map g row) v = map (fun x => if g x then v else x) row.
Proof.
  unfold masked_fill. induction row as [|x row IH]; [done|].
  simpl. by rewrite IH.
Qed.

Lemma kept_count_filled thr row :
  Forall (fun x => is_fin x = true) row ->
  countb is_fin (map (fun x => if num_lt x thr then NegInf else x) row)
  = kept_count thr row.
Proof.
  intros Hfin. unfold kept_count. rewrite countb_map.
  apply countb_ext. eapply Forall_impl; [exact Hfin|].
  intros x Hx. simpl. by destruct (num_lt x thr).
Qed.

(** C4. Top-k on the store (top-p off, finite logits, non-empty rows): the
    filter succeeds and overwrites its argument; on each row, [top_k] is
    clamped to [min(max(top_k, min_tokens_to_keep), vocab)], which lies in
    [1, vocab]; with [thr] the clamped-k-th largest logit, exactly the
    entries strictly below [thr] become the sentinel and the others (ties at
    [thr] included) are kept as they were; so at least k entries are not the
    sentinel, and exactly k when no other entry equals [thr]. *)
Theorem top_k_keeps_k_largest w l rows top_k top_p min_tokens_to_keep :
  heap w !! l = Some (Float2 rows) ->
  (0 < top_k)%Z ->
  (1 <= top_p)%Q ->
  Forall (fun row => row <> [] /\ Forall (fun x => is_fin x = true) row) rows ->
  exists rows',
    top_k_top_p_filtering l top_k top_p NegInf min_tokens_to_keep w
    = (Ok l, set_heap (<[l := Float2 rows']> (heap w)) w) /\
    Forall2 (fun row row' =>
      let k := clamp_top_k top_k min_tokens_to_keep (length row) in
      (1 <= k <= Z.of_nat (length row))%Z /\
      (Z.min min_tokens_to_keep (Z.of_nat (length row)) <= k)%Z /\
      ((min_tokens_to_keep <= top_k <= Z.of_nat (length row))%Z -> k = top_k) /\
      exists thr,
        map fst (sort_desc row) !! (Z.to_nat k - 1)%nat = Some thr /\
        row' = map (fun x => if num_lt x thr then NegInf else x) row /\
        (Z.to_nat k <= countb is_fin row')%nat /\
        (countb (num_eqb thr) row = 1%nat -> countb is_fin row' = Z.to_nat k))
      rows rows'.
Proof.
  intros Hl Hk Hp Hrows.
  destruct (rmapM_Forall2 (top_k_mask top_k min_tokens_to_keep)
              (fun row mask => exists thr,
                 map fst (sort_desc row)
                   !! (Z.to_nat (clamp_top_k top_k min_tokens_to_keep
                                   (length row)) - 1)%nat = Some thr /\
                 mask = map (fun x => num_lt x thr) row) rows)
    as (masks & Hmasks & HF).
  { eapply Forall_impl; [exact Hrows|]. intros row [Hne _].
    destruct (top_k_mask_spec top_k min_tokens_to_keep row Hk Hne)
      as (thr & Hthr & Hmask).
    eexists. split; [exact Hmask|]. by exists thr. }
  exists (zip_with (fun row m => masked_fill row m NegInf) rows masks).
  split.
  - apply (top_k_top_p_filtering_run w l rows top_k top_p NegInf
             min_tokens_to_keep
             (zip_with (fun row m => masked_fill row m NegInf) rows masks));
      [done| |].
    + unfold top_k_stage. apply Z.ltb_lt in Hk. by rewrite Hk, Hmasks.
    + unfold top_p_stage. by apply Qltb_ge in Hp as ->.
  - apply Forall2_same_length_lookup. split.
    { rewrite length_zip_with. apply Forall2_length in HF. lia. }
    intros i row row' Hrow Hrow'.
    apply lookup_zip_with_Some in Hrow' as (row0 & mask & -> & Hrow0 & Hmask).
    rewrite Hrow in Hrow0. injection Hrow0 as <-.
    destruct (Forall2_lookup_lr _ _ _ _ _ _ HF Hrow Hmask)
      as (thr & Hthr & ->).
    rewrite Forall_forall in Hrows.
    destruct (Hrows row) as [Hne Hfin].
    { by eapply list_elem_of_lookup_2. }
    assert (Hv : (0 < length row)%nat) by (destruct row; [done|simpl; lia]).
    pose proof (clamp_top_k_range top_k min_tokens_to_keep _ Hk Hv) as Hc.
    cbn zeta. split; [done|]. split; [unfold clamp_top_k; lia|].
    split; [unfold clamp_top_k; lia|].
    exists thr. split; [done|]. rewrite masked_fill_map. split; [done|].
    rewrite (kept_count_filled thr row Hfin).
    destruct (kth_largest_count row _ thr Hthr) as [Hge Heq].
    split; [lia|]. intros Hone. rewrite (Heq Hone). lia.
Qed.

(** ** Guidance in the step functions *)

Lemma call_model_run idx cond_idx input_pos w logits m' :
  forward (model w) idx cond_idx input_pos = (logits, m') ->
  call_model idx cond_idx input_pos w
  = (Ok (length (heap w)),
     after_forward w idx cond_idx input_pos m' [Float3 logits] []).
Proof.
  intros Hf. unfold call_model. rewrite bind_run. cbn [emit].
  rewrite bind_run. cbn [get_model model]. rewrite Hf.
  rewrite bind_run. cbn [set_model alloc set_heap heap trace model rng].
  unfold after_forward. by rewrite app_nil_r.
Qed.

Lemma after_forward_lookup_logits w idx cond_idx input_pos m' logits cells evs :
  heap (after_forward w idx cond_idx input_pos m' (Float3 logits :: cells) evs)
    !! length (heap w) = Some (Float3 logits).
Proof.
  cbn [after_forward heap]. rewrite lookup_app_r by done.
  by rewrite Nat.sub_diag.
Qed.

(** An even batch splits into its two halves. *)
Lemma torch_split_even {A} (t : list A) h :
  length t = (2 * h)%nat -> (1 <= h)%nat ->
  torch_split t (length t / 2) = [take h t; drop h t].
Proof.
  intros Hlen Hh. unfold torch_split.
  replace (length t / 2)%nat with h.
  2:{ rewrite Hlen, Nat.mul_comm. by rewrite Nat.div_mul. }
  rewrite Hlen. replace (2 * h)%nat with (S (S (2 * h - 2))) by lia.
  destruct t as [|a t]; [simpl in Hlen; lia|].
  cbn [chunks]. f_equal.
  assert (Hd : length (drop h (a :: t)) = h) by (rewrite length_drop; lia).
  destruct (drop h (a :: t)) as [|b t'] eqn:Hdrop; [simpl in Hd; lia|].
  rewrite take_ge by lia. f_equal.
  rewrite drop_ge by lia. by destruct (2 * h - 2)%nat.
Qed.

(** A batch of fewer than two rows is below the guard. *)
Lemma small_batch_guard {A} (t : list A) :
  (length t < 2)%nat -> (2 <=? length t)%nat = false.
Proof. intros. by apply Nat.leb_gt. Qed.

(** With [cfg_scale > 1] and logits of an even batch [2h >= 2], both step
    functions hand to [sample] a new tensor, the mix of the two halves. *)
Lemma guided_logits_run w cond_idx x input_pos cfg_scale index_mapping
    kw h :
  (1 < cfg_scale)%Q ->
  (1 <= h)%nat ->
  (forall logits m',
     forward (model w) None (Some cond_idx) input_pos = (logits, m') ->
     length logits = (2 * h)%nat ->
     prefill cond_idx input_pos cfg_scale index_mapping kw w
     = sample (S (length (heap w))) kw index_mapping
         (after_forward w None (Some cond_idx) input_pos m'
            [Float3 logits;
             Float3 (cfg_mix (take h logits) (drop h logits) cfg_scale)] []))
  /\
  (forall logits m',
     forward (model w) (Some (x ++ x)) None input_pos = (logits, m') ->
     length logits = (2 * h)%nat ->
     length input_pos = 1%nat ->
     decode_one_token x input_pos cfg_scale true index_mapping kw w
     = sample (S (length (heap w))) kw index_mapping
         (after_forward w (Some (x ++ x)) None input_pos m'
            [Float3 logits;
             Float3 (cfg_mix (take h logits) (drop h logits) cfg_scale)] [])).
Proof.
  intros Hscale Hh. apply Qltb_lt in Hscale. split.
  - intros logits m' Hf Hlen. unfold prefill.
    rewrite bind_run, Hscale, bind_run, (call_model_run _ _ _ _ _ _ Hf).
    rewrite bind_run, (read_float3_run _ _ logits)
      by apply after_forward_lookup_logits.
    replace (2 <=? length logits)%nat with true
      by (symmetry; apply Nat.leb_le; lia).
    rewrite bind_run, lift_run, (torch_split_even logits h Hlen Hh).
    cbn [unpack2 alloc]. do 2 f_equal.
    + cbn. rewrite length_app. simpl. lia.
    + unfold after_forward, set_heap. cbn. by rewrite <- app_assoc.
  - intros logits m' Hf Hlen Hpos. unfold decode_one_token.
    rewrite bind_run, Hpos. cbn [Nat.eqb mret M_ret].
    rewrite bind_run, Hscale, bind_run, (call_model_run _ _ _ _ _ _ Hf).
    rewrite bind_run, (read_float3_run _ _ logits)
      by apply after_forward_lookup_logits.
    replace (2 <=? length logits)%nat with true
      by (symmetry; apply Nat.leb_le; lia).
    rewrite bind_run, lift_run, (torch_split_even logits h Hlen Hh).
    cbn [unpack2 alloc]. do 2 f_equal.
    + cbn. rewrite length_app. simpl. lia.
    + unfold after_forward, set_heap. cbn. by rewrite <- app_assoc.
Qed.

(** The mix, entry by entry: defined where both halves are, and there equal to
    [uncond + (cond - uncond) * cfg_scale]. *)
Lemma cfg_mix_entry cond_logits uncond_logits cfg_scale b s v :
  entry3 (cfg_mix cond_logits uncond_logits cfg_scale) b s v
  = match entry3 cond_logits b s v, entry3 uncond_logits b s v with
    | Some c, Some u => Some (u + (c - u) * cfg_scale)%Q
    | _, _ => None
    end.
Proof.
  unfold entry3, cfg_mix. rewrite lookup_zip_with.
  destruct (cond_logits !! b) as [cb|]; [|done].
  destruct (uncond_logits !! b) as [ub|]; cbn.
  2:{ destruct (cb !! s) as [rc|]; [|done]. by destruct (rc !! v). }
  rewrite lookup_zip_with.
  destruct (cb !! s) as [rc|]; [|done].
  destruct (ub !! s) as [ru|]; cbn.
  2:{ by destruct (rc !! v). }
  rewrite lookup_zip_with.
  destruct (rc !! v) as [c|]; [|done]. by destruct (ru !! v).
Qed.

Lemma entry3_halves logits h b s v :
  (b < h)%nat ->
  entry3 (take h logits) b s v = entry3 logits b s v /\
  entry3 (drop h logits) b s v = entry3 logits (h + b) s v.
Proof.
  intros Hb. unfold entry3.
  by rewrite lookup_take_lt, lookup_drop by done.
Qed.

(** C2. With [cfg_scale > 1] and logits of an even batch [2h >= 2], both
    step functions ([decode_one_token] with the guidance flag set) hand to
    [sample] a new tensor [effective] of [h] batch rows with
    [effective[b, s, v] = uncond + (cond - uncond) * cfg_scale], where
    [cond = logits[b, s, v]] is the entry of the first half of the model's
    logits and [uncond = logits[h + b, s, v]] that of the second half; an
    entry of [effective] exists exactly where both halves have one. *)
Theorem guided_logits_formula w cond_idx x input_pos cfg_scale index_mapping
    kw h :
  (1 < cfg_scale)%Q ->
  (1 <= h)%nat ->
  (forall logits m',
     forward (model w) None (Some cond_idx) input_pos = (logits, m') ->
     length logits = (2 * h)%nat ->
     exists effective,
       prefill cond_idx input_pos cfg_scale index_mapping kw w
       = sample (S (length (heap w))) kw index_mapping
           (after_forward w None (Some cond_idx) input_pos m'
              [Float3 logits; Float3 effective] []) /\
       length effective = h /\
       forall b s v, (b < h)%nat ->
         entry3 effective b s v
         = match entry3 logits b s v, entry3 logits (h + b) s v with
           | Some cond, Some uncond =>
               Some (uncond + (cond - uncond) * cfg_scale)%Q
           | _, _ => None
           end)
  /\
  (forall logits m',
     forward (model w) (Some (x ++ x)) None input_pos = (logits, m') ->
     length logits = (2 * h)%nat ->
     length input_pos = 1%nat ->
     exists effective,
       decode_one_token x input_pos cfg_scale true index_mapping kw w
       = sample (S (length (heap w))) kw index_mapping
           (after_forward w (Some (x ++ x)) None input_pos m'
              [Float3 logits; Float3 effective] []) /\
       length effective = h /\
       forall b s v, (b < h)%nat ->
         entry3 effective b s v
         = match entry3 logits b s v, entry3 logits (h + b) s v with
           | Some cond, Some uncond =>
               Some (uncond + (cond - uncond) * cfg_scale)%Q
           | _, _ => None
           end).
Proof.
  intros Hscale Hh.
  destruct (guided_logits_run w cond_idx x input_pos cfg_scale index_mapping
              kw h Hscale Hh) as [Hprefill Hdecode].
  assert (Hmix : forall logits : list (list (list Q)),
    length logits = (2 * h)%nat ->
    length (cfg_mix (take h logits) (drop h logits) cfg_scale) = h /\
    forall b s v, (b < h)%nat ->
      entry3 (cfg_mix (take h logits) (drop h logits) cfg_scale) b s v
      = match entry3 logits b s v, entry3 logits (h + b) s v with
        | Some cond, Some uncond =>
            Some (uncond + (cond - uncond) * cfg_scale)%Q
        | _, _ => None
        end).
  { intros logits Hlen. split.
    - unfold cfg_mix. rewrite length_zip_with, length_take, length_drop. lia.
    - intros b s v Hb. rewrite cfg_mix_entry.
      by destruct (entry3_halves logits h b s v Hb) as [-> ->]. }
  split.
  - intros logits m' Hf Hlen.
    exists (cfg_mix (take h logits) (drop h logits) cfg_scale).
    split; [by apply Hprefill|]. by apply Hmix.
  - intros logits m' Hf Hlen Hpos.
    exists (cfg_mix (take h logits) (drop h logits) cfg_scale).
    split; [by apply Hdecode|]. by apply Hmix.
Qed.

(** C3, as the code has it.  With [cfg_scale > 1] and logits of a batch of
    fewer than two rows, both step functions print their warning and hand the
    model's logits, unchanged and in place, to [sample]; nothing is raised by
    the guidance step. *)
Theorem small_batch_falls_back w cond_idx x input_pos cfg_scale index_mapping
    kw cfg_flag :
  (1 < cfg_scale)%Q ->
  (forall logits m',
     forward (model w) None (Some cond_idx) input_pos = (logits, m') ->
     (length logits < 2)%nat ->
     prefill cond_idx input_pos cfg_scale index_mapping kw w
     = sample (length (heap w)) kw index_mapping
         (after_forward w None (Some cond_idx) input_pos m' [Float3 logits]
            [Printed "Warning: Not enough samples for CFG in prefill"]))
  /\
  (forall logits m',
     forward (model w) (Some (x ++ x)) None input_pos = (logits, m') ->
     (length logits < 2)%nat ->
     length input_pos = 1%nat ->
     decode_one_token x input_pos cfg_scale cfg_flag index_mapping kw w
     = sample (length (heap w)) kw index_mapping
         (after_forward w (Some (x ++ x)) None input_pos m' [Float3 logits]
            [Printed "Warning: Not enough samples for CFG in decode_one_token"])).
Proof.
  intros Hscale. apply Qltb_lt in Hscale. split.
  - intros logits m' Hf Hlen. unfold prefill.
    rewrite bind_run, Hscale, bind_run, (call_model_run _ _ _ _ _ _ Hf).
    rewrite bind_run, (read_float3_run _ _ logits)
      by apply after_forward_lookup_logits.
    rewrite (small_batch_guard _ Hlen). rewrite bind_run.
    unfold print, emit, after_forward. cbn [mret M_ret heap trace model rng].
    by rewrite app_nil_r.
  - intros logits m' Hf Hlen Hpos. unfold decode_one_token.
    rewrite bind_run, Hpos. cbn [Nat.eqb mret M_ret].
    rewrite bind_run, Hscale, bind_run, (call_model_run _ _ _ _ _ _ Hf).
    rewrite bind_run, (read_float3_run _ _ logits)
      by apply after_forward_lookup_logits.
    rewrite (small_batch_guard _ Hlen). rewrite bind_run.
    unfold print, emit, after_forward. cbn [mret M_ret heap trace model rng].
    by rewrite app_nil_r.
Qed.

(** ** The causal mask *)

Lemma force_diagonal_lookup cm b mat :
  cm !! b = Some mat ->
  force_diagonal cm !! b
  = Some (imap (fun i row =>
                  imap (fun j v => (v * (1 - eye i j) + eye i j)%Z) row) mat).
Proof.
  intros H. unfold force_diagonal.
  change (map ?f cm) with (f <$> cm). by rewrite list_lookup_fmap, H.
Qed.

Lemma force_diagonal_diagonal cm : diagonal_ones (force_diagonal cm).
Proof.
  intros b mat i row Hb Hi Hlen.
  unfold force_diagonal in Hb. change (map ?f cm) with (f <$> cm) in Hb.
  rewrite list_lookup_fmap in Hb.
  destruct (cm !! b) as [mat0|]; [|done]. injection Hb as <-.
  rewrite list_lookup_imap in Hi.
  destruct (mat0 !! i) as [row0|]; [|done]. injection Hi as <-.
  rewrite length_imap in Hlen. rewrite list_lookup_imap.
  destruct (row0 !! i) as [v|] eqn:Hv.
  - simpl. unfold eye. rewrite Nat.eqb_refl. f_equal. lia.
  - apply lookup_ge_None in Hv. lia.
Qed.

(** Off the diagonal, [force_diagonal] keeps the entries. *)
Lemma force_diagonal_off_diagonal cm b mat i row j v :
  cm !! b = Some mat -> mat !! i = Some row -> row !! j = Some v -> i <> j ->
  exists mat' row', force_diagonal cm !! b = Some mat' /\
                    mat' !! i = Some row' /\ row' !! j = Some v.
Proof.
  intros Hb Hi Hj Hij. eexists _, _. split; [by apply force_diagonal_lookup|].
  rewrite list_lookup_imap, Hi. split; [done|].
  rewrite list_lookup_imap, Hj. simpl. unfold eye.
  apply Nat.eqb_neq in Hij. rewrite Hij. f_equal. lia.
Qed.

(** When the block under [if emb_masks is not None] completes, the causal
    mask of the model is the old one with its first [T] columns multiplied by
    the embedding mask (the mask twice over when guidance is on) and then its
    diagonal forced: every diagonal entry is 1, whatever the values of
    [emb_masks]; store and trace are as before. *)
Lemma adjust_causal_mask_inv emb_masks max_batch_size T cfg_scale w w' :
  adjust_causal_mask emb_masks max_batch_size T cfg_scale w = (Ok tt, w') ->
  length emb_masks = max_batch_size /\
  length (hd [] emb_masks) = T /\
  (exists cm,
     mask_columns (causal_mask (model w)) T
       (if Qltb 1 cfg_scale then emb_masks ++ emb_masks else emb_masks)
     = Ok cm /\
     causal_mask (model w') = force_diagonal cm) /\
  diagonal_ones (causal_mask (model w')) /\
  heap w' = heap w /\ trace w' = trace w.
Proof.
  unfold adjust_causal_mask. rewrite bind_run.
  destruct (length emb_masks =? max_batch_size)%nat eqn:Hb; [|done].
  cbn [mret M_ret]. rewrite bind_run.
  destruct (length (hd [] emb_masks) =? T)%nat eqn:HT; [|done].
  cbn [mret M_ret]. rewrite bind_run. cbn [get_model].
  rewrite bind_run, lift_run.
  destruct (mask_columns _ _ _) as [cm|e] eqn:Hcm; [|done].
  rewrite bind_run. unfold set_causal_mask. rewrite bind_run.
  cbn [get_model set_model model causal_mask]. rewrite !bind_run.
  cbn [get_model set_model model causal_mask].
  intros [= <-]. cbn [model causal_mask heap trace].
  apply Nat.eqb_eq in Hb, HT.
  repeat split; try done.
  - by exists cm.
  - apply force_diagonal_diagonal.
Qed.

(** The block run on an [emb_masks] of the expected shape. *)
Lemma adjust_causal_mask_run emb_masks max_batch_size T cfg_scale w cm :
  length emb_masks = max_batch_size ->
  length (hd [] emb_masks) = T ->
  mask_columns (causal_mask (model w)) T
    (if Qltb 1 cfg_scale then emb_masks ++ emb_masks else emb_masks) = Ok cm ->
  adjust_causal_mask emb_masks max_batch_size T cfg_scale w
  = (Ok tt, {| heap := heap w; trace := trace w;
               model := with_causal_mask (force_diagonal cm) (model w);
               rng := rng w |}).
Proof.
  intros Hb HT Hcm. unfold adjust_causal_mask. rewrite bind_run.
  apply Nat.eqb_eq in Hb, HT. rewrite Hb. cbn [mret M_ret].
  rewrite bind_run, HT. cbn [mret M_ret]. rewrite bind_run. cbn [get_model].
  rewrite bind_run, lift_run, Hcm.
  rewrite bind_run. unfold set_causal_mask. rewrite bind_run.
  cbn [get_model set_model model causal_mask]. rewrite !bind_run.
  cbn [get_model set_model model causal_mask heap trace rng].
  reflexivity.
Qed.

(** ** The paired confidence *)

Lemma sample_inv logits kw index_mapping w idx cp w' :
  sample logits kw index_mapping w = (Ok (idx, cp), w') ->
  exists lg tc ids pc,
    heap w' = heap w ++ [Float2 lg] /\
    idx = map (fun i => [Z.of_nat i]) ids /\
    cp = zip_with (fun t p => [[t; p]]) tc pc /\
    length tc = length lg /\ length ids = length lg /\
    paired_confidences index_mapping (map (softmax expw) lg) ids = Ok pc.
Proof.
  unfold sample. rewrite bind_run.
  pose proof (read_float3_world w logits) as Hw.
  destruct (read_float3 logits w) as [[t|e] w0]; simpl in Hw; subst w0;
    [|done].
  rewrite bind_run, lift_run.
  destruct (rmapM last_elem t) as [last|e]; [|done].
  rewrite bind_run. cbn [alloc]. rewrite bind_run.
  match goal with
  | |- context [match ?x with pair _ _ => _ end] =>
      destruct x as [r w2] eqn:Hrun
  end.
  apply sample_filter_fresh in Hrun as ([y Hy] & Ht & Hm & Hr & Hl).
  destruct r as [l2|e]; [|done].
  specialize (Hl l2 eq_refl). subst l2.
  rewrite bind_run. unfold read_float2, read. rewrite bind_run, Hy.
  rewrite lookup_app_r, Nat.sub_diag by done. cbn [lookup list_lookup].
  destruct y as [|lg|]; try done.
  cbn [mret M_ret]. rewrite bind_run.
  destruct (choose_tokens_spec (sample_logits kw) (map (softmax expw) lg) w2)
    as [[n Hn] Hlen].
  destruct (choose_tokens _ _ w2) as [[[tc ids]|e] w3]; simpl in Hn; subst w3;
    [|done].
  destruct (Hlen tc ids eq_refl) as [Htc Hids].
  rewrite length_map in Htc, Hids.
  rewrite bind_run, lift_run.
  destruct (paired_confidences _ _ _) as [pc|e] eqn:Hpc; [|done].
  intros [= <- <- <-]. exists lg, tc, ids, pc. by repeat split.
Qed.

Lemma paired_confidences_length d probs ids pc :
  paired_confidences (Some d) probs ids = Ok pc ->
  length pc = Nat.min (length probs) (length ids).
Proof.
  cbn [paired_confidences]. intros H. apply rmapM_length in H.
  by rewrite H, length_zip.
Qed.

(** [index_mapping[selected_idx]] is the value of the first item whose key is
    [selected_idx]. *)
Lemma dict_get_first d1 d2 k v :
  (forall k' v', In (k', v') d1 -> k' <> k) ->
  dict_get (d1 ++ (k, v) :: d2) k = Some v.
Proof.
  induction d1 as [|[k0 v0] d1 IH]; intros Hd1; simpl.
  - by rewrite Z.eqb_refl.
  - replace (k0 =? k)%Z with false.
    + apply IH. intros k' v' Hin. apply (Hd1 k' v'). by right.
    + symmetry. apply Z.eqb_neq. apply (Hd1 k0 v0). by left.
Qed.

Lemma dict_get_none d k :
  (forall k' v', In (k', v') d -> k' <> k) -> dict_get d k = None.
Proof.
  induction d as [|[k0 v0] d IH]; intros Hd; simpl; [done|].
  replace (k0 =? k)%Z with false.
  - apply IH. intros k' v' Hin. apply (Hd k' v'). by right.
  - symmetry. apply Z.eqb_neq. apply (Hd k0 v0). by left.
Qed.

(** The loop over the items stops at the first item whose value is
    [selected_idx]. *)
Lemma first_key_of_first d1 d2 k i :
  (forall k' v', In (k', v') d1 -> v' <> i) ->
  first_key_of (d1 ++ (k, i) :: d2) i = Some k.
Proof.
  induction d1 as [|[k0 v0] d1 IH]; intros Hd1; simpl.
  - by rewrite Z.eqb_refl.
  - replace (v0 =? i)%Z with false.
    + apply IH. intros k' v' Hin. apply (Hd1 k' v'). by right.
    + symmetry. apply Z.eqb_neq. apply (Hd1 k0 v0). by left.
Qed.

Lemma first_key_of_none d i :
  (forall k' v', In (k', v') d -> v' <> i) -> first_key_of d i = None.
Proof.
  induction d as [|[k0 v0] d IH]; intros Hd; simpl; [done|].
  replace (v0 =? i)%Z with false.
  - apply IH. intros k' v' Hin. apply (Hd k' v'). by right.
  - symmetry. apply Z.eqb_neq. apply (Hd k0 v0). by left.
Qed.

(** [row[v]] that returned is the entry at [v], counted from the end when [v]
    is negative. *)
Lemma tensor_index_lookup row v p :
  tensor_index row v = Ok p ->
  exists j, row !! j = Some p /\
            Z.of_nat j
            = (if (v <? 0)%Z then v + Z.of_nat (length row) else v)%Z.
Proof.
  unfold tensor_index.
  destruct (_ || _) eqn:Hrange; [done|].
  apply orb_false_iff in Hrange as [Hlo _]. apply Z.ltb_ge in Hlo.
  destruct (row !! _) as [q|] eqn:Hq; [|done].
  intros [= <-]. eexists. split; [exact Hq|]. lia.
Qed.

(** C6. When [sample] returns with an [index_mapping], the probabilities are
    the softmax of the filtered logits that [sample] left in the new cell of
    the store, and for every batch row [b] with sampled id [i] the pair is
    [[tc; pc]] where: if [i] is a key of the mapping, [pc] is the probability
    at the value stored under that key; else, if some item has the value [i],
    [pc] is the probability at the key of the first such item, in the order
    of the items; else [pc] is 0.  The mapping is read as its list of items
    (a Python index counts from the end when negative).  A miss in both
    lookups gives 0 and no exception. *)
Theorem paired_confidence_lookup logits kw d w idx cp w' :
  sample logits kw (Some d) w = (Ok (idx, cp), w') ->
  (exists lg,
     heap w' = heap w ++ [Float2 lg] /\
     length idx = length lg /\ length cp = length lg /\
     forall b probs_b, map (softmax expw) lg !! b = Some probs_b ->
       exists i tc pc,
         idx !! b = Some [Z.of_nat i] /\
         cp !! b = Some [[tc; pc]] /\
         (forall d1 v d2,
            d = d1 ++ (Z.of_nat i, v) :: d2 ->
            (forall k' v', In (k', v') d1 -> k' <> Z.of_nat i) ->
            exists j, probs_b !! j = Some pc /\
                      Z.of_nat j
                      = (if (v <? 0)%Z then v + Z.of_nat (length probs_b)
                         else v)%Z) /\
         ((forall k' v', In (k', v') d -> k' <> Z.of_nat i) ->
          forall d1 k d2,
            d = d1 ++ (k, Z.of_nat i) :: d2 ->
            (forall k' v', In (k', v') d1 -> v' <> Z.of_nat i) ->
            exists j, probs_b !! j = Some pc /\
                      Z.of_nat j
                      = (if (k <? 0)%Z then k + Z.of_nat (length probs_b)
                         else k)%Z) /\
         ((forall k' v', In (k', v') d ->
             k' <> Z.of_nat i /\ v' <> Z.of_nat i) ->
          pc = 0%Q)) /\
  (forall probs_b selected_idx,
     (forall k' v', In (k', v') d ->
        k' <> selected_idx /\ v' <> selected_idx) ->
     paired_confidence_row d probs_b selected_idx = Ok 0%Q).
Proof.
  intros Hrun.
  assert (Hmiss : forall probs_b selected_idx,
     (forall k' v', In (k', v') d ->
        k' <> selected_idx /\ v' <> selected_idx) ->
     paired_confidence_row d probs_b selected_idx = Ok 0%Q).
  { intros probs_b i Hd. unfold paired_confidence_row.
    rewrite dict_get_none by (intros k' v' Hin; by apply (Hd k' v')).
    by rewrite first_key_of_none by (intros k' v' Hin; by apply (Hd k' v')). }
  split; [|exact Hmiss].
  apply sample_inv in Hrun
    as (lg & tc & ids & pc & Hheap & -> & -> & Htc & Hids & Hpc).
  pose proof (paired_confidences_length _ _ _ _ Hpc) as Hlpc.
  rewrite length_map in Hlpc.
  exists lg. split; [done|]. split; [by rewrite length_map|].
  split; [rewrite length_zip_with; lia|].
  intros b probs_b Hb.
  assert (Hlt : (b < length lg)%nat).
  { apply lookup_lt_Some in Hb. by rewrite length_map in Hb. }
  destruct (lookup_lt_is_Some_2 ids b) as [i Hi]; [lia|].
  destruct (lookup_lt_is_Some_2 tc b) as [t Ht]; [lia|].
  cbn [paired_confidences] in Hpc.
  destruct (rmapM_lookup _ _ _ b (probs_b, i) Hpc) as (p & Hp & Hrow).
  { apply lookup_zip_with_Some. by exists probs_b, i. }
  cbn [fst snd] in Hrow.
  exists i, t, p. split.
  { change (map ?f ids) with (f <$> ids). by rewrite list_lookup_fmap, Hi. }
  split.
  { apply lookup_zip_with_Some. by exists t, p. }
  split; [|split].
  - intros d1 v d2 -> Hd1. unfold paired_confidence_row in Hrow.
    rewrite (dict_get_first d1 d2 _ v Hd1) in Hrow.
    by apply tensor_index_lookup.
  - intros Hkeys d1 k d2 Hd Hd1. unfold paired_confidence_row in Hrow.
    rewrite (dict_get_none d _ Hkeys) in Hrow. rewrite Hd in Hrow.
    rewrite (first_key_of_first d1 d2 k _ Hd1) in Hrow.
    by apply tensor_index_lookup.
  - intros Hd. rewrite (Hmiss probs_b (Z.of_nat i) Hd) in Hrow.
    by injection Hrow as <-.
Qed.

(** An odd batch of three or more rows splits into three pieces, which the
    unpacking into two names refuses. *)
Lemma torch_split_odd {A} (t : list A) h :
  length t = (2 * h + 1)%nat -> (1 <= h)%nat ->
  unpack2 (torch_split t (length t / 2)) = Raise ValueError.
Proof.
  intros Hlen Hh. unfold torch_split.
  replace (length t / 2)%nat with h.
  2:{ rewrite Hlen. apply (Nat.div_unique _ _ _ 1%nat); lia. }
  rewrite Hlen. replace (2 * h + 1)%nat with (S (S (S (2 * h - 2)))) by lia.
  destruct t as [|a t]; [simpl in Hlen; lia|].
  cbn [chunks].
  assert (Hd : length (drop h (a :: t)) = S h) by (rewrite length_drop; lia).
  destruct (drop h (a :: t)) as [|b t'] eqn:Hdrop; [simpl in Hd; lia|].
  assert (Hd2 : length (drop h (b :: t')) = 1%nat)
    by (rewrite length_drop; lia).
  destruct (drop h (b :: t')) as [|c t''] eqn:Hdrop2; [simpl in Hd2; lia|].
  reflexivity.
Qed.

(** With [cfg_scale > 1] and logits of an odd batch of three or more rows,
    [prefill] raises [ValueError] after the model call, without a warning. *)
Lemma prefill_odd_batch_raises w cond_idx input_pos cfg_scale index_mapping kw
    h logits m' :
  (1 < cfg_scale)%Q -> (1 <= h)%nat ->
  forward (model w) None (Some cond_idx) input_pos = (logits, m') ->
  length logits = (2 * h + 1)%nat ->
  prefill cond_idx input_pos cfg_scale index_mapping kw w
  = (Raise ValueError,
     after_forward w None (Some cond_idx) input_pos m' [Float3 logits] []).
Proof.
  intros Hscale Hh Hf Hlen. apply Qltb_lt in Hscale. unfold prefill.
  rewrite bind_run, Hscale, bind_run, (call_model_run _ _ _ _ _ _ Hf).
  rewrite bind_run, (read_float3_run _ _ logits)
    by apply after_forward_lookup_logits.
  replace (2 <=? length logits)%nat with true
    by (symmetry; apply Nat.leb_le; lia).
  by rewrite bind_run, lift_run, (torch_split_odd logits h Hlen Hh).
Qed.

(** ** Sums of rationals *)

Lemma Qsum_app l1 l2 : (Qsum (l1 ++ l2) == Qsum l1 + Qsum l2)%Q.
Proof.
  induction l1 as [|x l1 IH]; simpl.
  - lra.
  - change (foldr Qplus 0%Q (l1 ++ l2)) with (Qsum (l1 ++ l2)).
    change (foldr Qplus 0%Q l1) with (Qsum l1). lra.
Qed.

Lemma Qsum_cons x l : Qsum (x :: l) = (x + Qsum l)%Q.
Proof. reflexivity. Qed.

Lemma Qsum_perm l1 l2 : l1 ≡ₚ l2 -> (Qsum l1 == Qsum l2)%Q.
Proof.
  induction 1 as [|x l1 l2 _ IH|x y l|l1 l2 l3 _ IH1 _ IH2].
  - reflexivity.
  - rewrite !Qsum_cons. lra.
  - rewrite !Qsum_cons. lra.
  - lra.
Qed.

Lemma Qsum_nonneg l : Forall (fun x => (0 <= x)%Q) l -> (0 <= Qsum l)%Q.
Proof.
  induction 1 as [|x l Hx _ IH]; [apply Qle_refl|]. rewrite Qsum_cons. lra.
Qed.

Lemma Qsum_pos l :
  l <> [] -> Forall (fun x => (0 < x)%Q) l -> (0 < Qsum l)%Q.
Proof.
  intros Hne H. destruct H as [|x l Hx Hl]; [done|].
  rewrite Qsum_cons.
  assert (0 <= Qsum l)%Q.
  { apply Qsum_nonneg. eapply Forall_impl; [exact Hl|].
    intros y Hy. simpl in *. lra. }
  lra.
Qed.

Lemma Qsum_Forall2 l1 l2 : Forall2 Qeq l1 l2 -> (Qsum l1 == Qsum l2)%Q.
Proof.
  induction 1 as [|x y l1 l2 Hxy _ IH]; [reflexivity|].
  rewrite !Qsum_cons. lra.
Qed.

Lemma Qsum_zeros n : (Qsum (replicate n 0%Q) == 0)%Q.
Proof. induction n as [|n IH]; simpl; [reflexivity|]. 
  change (foldr Qplus 0%Q (replicate n 0%Q)) with (Qsum (replicate n 0%Q)).
  lra.
Qed.

Lemma Qsum_map_div (ws : list Q) s :
  (Qsum (map (fun w => w / s) ws) == Qsum ws / s)%Q.
Proof.
  induction ws as [|w ws IH]; simpl.
  - unfold Qdiv. lra.
  - change (foldr Qplus 0%Q (map (fun w0 => w0 / s) ws))%Q
      with (Qsum (map (fun w0 => w0 / s)%Q ws)).
    change (foldr Qplus 0%Q ws) with (Qsum ws).
    rewrite IH. unfold Qdiv. lra.
Qed.

Lemma Qsum_take_S (q : list Q) k x :
  q !! k = Some x -> (Qsum (take (S k) q) == Qsum (take k q) + x)%Q.
Proof.
  intros Hk. rewrite (take_S_r _ _ _ Hk), Qsum_app. simpl. lra.
Qed.

(** ** Softmax *)

Section Positive.

Hypothesis expw_pos : forall q, (0 < expw q)%Q.

Lemma expn_nonneg x : (0 <= expn expw x)%Q.
Proof. destruct x; simpl; [apply Qle_refl|]. specialize (expw_pos q). lra. Qed.

Lemma weights_pos row :
  row <> [] -> Forall (fun x => is_fin x = true) row ->
  (0 < Qsum (map (expn expw) row))%Q.
Proof.
  intros Hne Hfin. apply Qsum_pos.
  - by destruct row.
  - apply Forall_map. eapply Forall_impl; [exact Hfin|].
    intros [|q]; [done|]. intros _. apply expw_pos.
Qed.

Lemma softmax_nonneg row :
  row <> [] -> Forall (fun x => is_fin x = true) row ->
  Forall (fun x => (0 <= x)%Q) (softmax expw row).
Proof.
  intros Hne Hfin. unfold softmax. apply Forall_map, Forall_map.
  apply Forall_forall. intros x _. simpl.
  pose proof (weights_pos row Hne Hfin). pose proof (expn_nonneg x).
  apply Qle_shift_div_l; lra.
Qed.

Lemma softmax_sums_to_one row :
  row <> [] -> Forall (fun x => is_fin x = true) row ->
  (Qsum (softmax expw row) == 1)%Q.
Proof.
  intros Hne Hfin. unfold softmax. rewrite Qsum_map_div.
  pose proof (weights_pos row Hne Hfin). field. lra.
Qed.

End Positive.

(** ** The nucleus in sorted order *)

(** ** Scatter along a permutation *)

Lemma scatter_cons self i index v src :
  scatter self (i :: index) (v :: src) = scatter (<[i := v]> self) index src.
Proof. reflexivity. Qed.

Lemma scatter_length index : forall self src,
  length (scatter self index src) = length self.
Proof.
  induction index as [|i index IH]; intros self src; [done|].
  destruct src as [|v src]; [done|].
  by rewrite scatter_cons, IH, length_insert.
Qed.

Lemma scatter_notin index : forall self src i,
  i ∉ index -> scatter self index src !! i = self !! i.
Proof.
  induction index as [|i0 index IH]; intros self src i Hi; [done|].
  destruct src as [|v src]; [done|].
  apply not_elem_of_cons in Hi as [Hne Hi].
  rewrite scatter_cons, IH by done. by apply list_lookup_insert_ne.
Qed.

Lemma scatter_lookup index : forall self src j i v,
  NoDup index -> index !! j = Some i -> src !! j = Some v ->
  (i < length self)%nat ->
  scatter self index src !! i = Some v.
Proof.
  induction index as [|i0 index IH]; intros self src j i v Hnd Hi Hv Hlen;
    [done|].
  destruct src as [|v0 src]; [done|].
  apply NoDup_cons in Hnd as [Hnotin Hnd].
  rewrite scatter_cons. destruct j as [|j]; simpl in Hi, Hv.
  - injection Hi as ->. injection Hv as ->.
    rewrite scatter_notin by done. by apply list_lookup_insert_eq.
  - eapply IH; eauto. by rewrite length_insert.
Qed.

Lemma sort_desc_lookup_row row j x i :
  sort_desc row !! j = Some (x, i) -> row !! i = Some x.
Proof.
  intros Hj. apply list_elem_of_lookup_2 in Hj.
  rewrite sort_desc_perm in Hj.
  apply list_elem_of_lookup_1 in Hj as [k Hk].
  apply lookup_zip_with_Some in Hk as (x' & i' & [= <- <-] & Hx & Hi).
  apply lookup_seq in Hi as [-> _]. done.
Qed.

(** Every position of a row has a rank in its descending order. *)
Lemma sort_desc_rank row i x :
  row !! i = Some x -> exists r, sort_desc row !! r = Some (x, i).
Proof.
  intros Hi. apply list_elem_of_lookup_1.
  rewrite sort_desc_perm. apply (list_elem_of_lookup_2 _ i).
  apply lookup_zip_with_Some. exists x, i. split; [done|]. split; [done|].
  apply lookup_seq. split; [done|]. by eapply lookup_lt_Some.
Qed.

Lemma sort_desc_indices_NoDup row : NoDup (map snd (sort_desc row)).
Proof. rewrite sort_desc_indices. apply NoDup_seq. Qed.

(** ** Top-p on one row *)

Lemma zip_with_seq {A B C} (f : A -> B -> C) (l : list A) (k : list B) dA dB :
  length l = length k ->
  zip_with f l k
  = map (fun i => f (nth i l dA) (nth i k dB)) (seq 0 (length l)).
Proof.
  intros Hlen. apply list_eq. intros i.
  change (map ?g (seq 0 (length l))) with (g <$> seq 0 (length l)).
  rewrite lookup_zip_with, list_lookup_fmap.
  destruct (decide (i < length l)%nat) as [Hi|Hi].
  - rewrite lookup_seq_lt by done.
    destruct (lookup_lt_is_Some_2 l i Hi) as [a Ha].
    destruct (lookup_lt_is_Some_2 k i) as [b Hb]; [lia|].
    rewrite Ha, Hb. simpl.
    by rewrite (nth_lookup_Some _ _ _ _ Ha), (nth_lookup_Some _ _ _ _ Hb).
  - rewrite lookup_seq_ge by lia.
    rewrite (proj2 (lookup_ge_None l i)) by lia. done.
Qed.

Section Nucleus.

Hypothesis expw_pos : forall q, (0 < expw q)%Q.

Lemma sorted_values_fin row :
  Forall (fun x => is_fin x = true) row ->
  Forall (fun x => is_fin x = true) (map fst (sort_desc row)).
Proof. intros H. by rewrite sort_desc_values. Qed.

Lemma sorted_values_nonempty row : row <> [] -> map fst (sort_desc row) <> [].
Proof.
  intros Hne Hnil. apply (f_equal length) in Hnil.
  rewrite length_map, sort_desc_length in Hnil. by destruct row.
Qed.

Lemma weights_perm row :
  (Qsum (map (expn expw) (map fst (sort_desc row)))
   == Qsum (map (expn expw) row))%Q.
Proof. apply Qsum_perm. by rewrite sort_desc_values. Qed.

Lemma softmax_lookup row i x :
  row !! i = Some x ->
  softmax expw row !! i
  = Some (expn expw x / Qsum (map (expn expw) row))%Q.
Proof.
  intros Hi. unfold softmax.
  change (map ?f (map ?g row)) with (f <$> (g <$> row)).
  by rewrite !list_lookup_fmap, Hi.
Qed.

(** The probability of the entry at position [j] of the descending order is
    the probability of that entry in the row. *)
Lemma softmax_sorted_lookup row j x i :
  sort_desc row !! j = Some (x, i) ->
  exists a b,
    softmax expw (map fst (sort_desc row)) !! j = Some a /\
    softmax expw row !! i = Some b /\ (a == b)%Q.
Proof.
  intros Hj. eexists _, _. split; [|split].
  - apply softmax_lookup.
    change (map fst (sort_desc row)) with (fst <$> sort_desc row).
    by rewrite list_lookup_fmap, Hj.
  - apply softmax_lookup. by eapply sort_desc_lookup_row.
  - simpl. by rewrite weights_perm.
Qed.

(** ** The nucleus under rounding *)

Hypothesis expw_proper : forall x y, (x == y)%Q -> (expw x == expw y)%Q.

Lemma cumsum_from_lookup q : forall acc j c,
  cumsum_from acc q !! j = Some c -> (c == acc + Qsum (take (S j) q))%Q.
Proof.
  induction q as [|x q IH]; intros acc j c; [done|].
  cbn [cumsum_from]. destruct j as [|j].
  - intros [= <-]. simpl. lra.
  - rewrite lookup_cons. intros H. apply IH in H.
    rewrite firstn_cons, Qsum_cons. lra.
Qed.

Lemma removelast_lookup {A} (l : list A) j :
  (S j < length l)%nat -> removelast l !! j = l !! j.
Proof.
  intros H. rewrite removelast_firstn_len. apply lookup_take_lt. lia.
Qed.

(** The removal mask of top-p in the descending order, before it is
    scattered: the first position is kept, and position [j + 1] is removed
    when the cumulative probability of the positions up to [j], as computed,
    exceeds [top_p]. *)
Lemma top_p_mask_tests top_p mk row :
  row <> [] -> (mk <= 1)%Z ->
  exists sm,
    top_p_mask expw rounding top_p mk row
    = Ok (scatter sm (map snd (sort_desc row)) sm) /\
    length sm = length row /\
    sm !! 0%nat = Some false /\
    forall j, (S j < length row)%nat ->
      exists c,
        (c == Qsum (take (S j) (softmax expw (map fst (sort_desc row)))))%Q /\
        sm !! S j
        = Some (Qltb top_p
                  (c + rounding top_p (map fst (sort_desc row)) j)).
Proof.
  intros Hne Hmk. unfold top_p_mask.
  replace (1 <? mk)%Z with false by (symmetry; apply Z.ltb_ge; lia).
  set (sl := map fst (sort_desc row)).
  set (q := softmax expw sl).
  assert (Hc : forall acc l, length (cumsum_from acc l) = length l).
  { intros acc l. revert acc. induction l; intros; simpl; [done|].
    by rewrite IHl. }
  assert (Hqlen : length q = length row).
  { subst q sl. unfold softmax. by rewrite !length_map, sort_desc_length. }
  remember (map (fun c => Qltb top_p c)
              (imap (fun i c => (c + rounding top_p sl i)%Q) (cumsum q)))
    as t eqn:Ht.
  assert (Htlen : length t = length row).
  { subst t. unfold cumsum. by rewrite length_map, length_imap, Hc. }
  destruct t as [|b rest]; [by destruct row|].
  cbn [shift_right clear_first rbind].
  exists (false :: removelast (b :: rest)).
  split; [done|]. split.
  { cbn [length]. rewrite removelast_firstn_len, length_take.
    cbn [length] in *. lia. }
  split; [done|].
  intros j Hj. rewrite lookup_cons.
  rewrite removelast_lookup by (rewrite Htlen; lia).
  rewrite Ht.
  change (map ?f ?l) with (f <$> l) at 1.
  rewrite list_lookup_fmap, list_lookup_imap.
  destruct (cumsum q !! j) as [c|] eqn:Hcj.
  - exists c. split; [|done].
    apply cumsum_from_lookup in Hcj. lra.
  - apply lookup_ge_None in Hcj. unfold cumsum in Hcj. rewrite Hc in Hcj. lia.
Qed.

(** The mass kept by a mask given in the descending order. *)
Lemma kept_mass_masked row mask sm :
  length mask = length row ->
  length sm = length row ->
  Forall (fun x => is_fin x = true) row ->
  (forall j x i, sort_desc row !! j = Some (x, i) -> mask !! i = sm !! j) ->
  (kept_mass (softmax expw row) (masked_fill row mask NegInf)
   == Qsum (zip_with (fun (b : bool) x => if b then 0 else x) sm
              (softmax expw (map fst (sort_desc row)))))%Q.
Proof.
  intros Hmlen Hsmlen Hfin Hmask.
  set (probs := softmax expw row).
  set (out := masked_fill row mask NegInf).
  set (q := softmax expw (map fst (sort_desc row))).
  assert (Hplen : length probs = length row).
  { subst probs. unfold softmax. by rewrite !length_map. }
  assert (Holen : length out = length row).
  { subst out. unfold masked_fill. rewrite length_zip_with. lia. }
  assert (Hqlen : length q = length row).
  { subst q. unfold softmax. by rewrite !length_map, sort_desc_length. }
  unfold kept_mass.
  rewrite (zip_with_seq _ probs out 0%Q NegInf) by lia.
  set (G := fun i => if is_fin (nth i out NegInf) then nth i probs 0%Q else 0%Q).
  rewrite Hplen.
  rewrite (Qsum_perm (map G (seq 0 (length row)))
             (map G (map snd (sort_desc row)))).
  2:{ apply Permutation_map. symmetry. apply sort_desc_indices. }
  apply Qsum_Forall2.
  apply Forall2_same_length_lookup_2.
  { rewrite !length_map, sort_desc_length, length_zip_with. lia. }
  intros j a b Ha Hb.
  change (map G (map snd (sort_desc row)))
    with (G <$> (snd <$> sort_desc row)) in Ha.
  rewrite !list_lookup_fmap in Ha.
  destruct (sort_desc row !! j) as [[x i]|] eqn:Hj; [|done].
  simpl in Ha. injection Ha as <-.
  apply lookup_zip_with_Some in Hb as (bj & qj & -> & Hsm & Hq).
  pose proof (sort_desc_lookup_row _ _ _ _ Hj) as Hrow.
  pose proof (Hmask _ _ _ Hj) as Hm. rewrite Hsm in Hm.
  assert (Hout : out !! i = Some (if bj then NegInf else x)).
  { subst out. unfold masked_fill. apply lookup_zip_with_Some.
    by exists x, bj. }
  destruct (softmax_sorted_lookup _ _ _ _ Hj) as (qa & pb & Hqa & Hpb & Hqp).
  fold q in Hqa. fold probs in Hpb.
  rewrite Hq in Hqa. injection Hqa as <-.
  subst G. cbn beta.
  rewrite (nth_lookup_Some _ _ _ _ Hout), (nth_lookup_Some _ _ _ _ Hpb).
  destruct bj; [reflexivity|].
  rewrite Forall_forall in Hfin.
  rewrite (Hfin x) by (by eapply list_elem_of_lookup_2).
  by symmetry.
Qed.

Lemma masked_sum_nonneg (q : list Q) : forall sm : list bool,
  Forall (fun x => (0 <= x)%Q) q ->
  (0 <= Qsum (zip_with (fun (b : bool) x => if b then 0 else x) sm q))%Q.
Proof.
  induction q as [|x q IH]; intros [|b sm] Hq; try (simpl; lra).
  apply Forall_cons in Hq as [Hx Hq]. cbn [zip_with]. rewrite Qsum_cons.
  specialize (IH sm Hq). destruct b; lra.
Qed.

(** What a mask that keeps the first [m] positions keeps is at least their
    sum. *)
Lemma masked_sum_ge_prefix (q : list Q) : forall m (sm : list bool),
  length sm = length q ->
  Forall (fun x => (0 <= x)%Q) q ->
  (forall j, (j < m)%nat -> (j < length q)%nat -> sm !! j = Some false) ->
  (Qsum (take m q)
   <= Qsum (zip_with (fun (b : bool) x => if b then 0 else x) sm q))%Q.
Proof.
  induction q as [|x q IH]; intros m sm Hlen Hq Hsm.
  - rewrite take_nil. destruct sm; simpl; lra.
  - destruct sm as [|b sm]; [done|].
    destruct m as [|m].
    + rewrite take_0. by apply masked_sum_nonneg.
    + apply Forall_cons in Hq as [Hx Hq].
      rewrite firstn_cons. cbn [zip_with]. rewrite !Qsum_cons.
      assert (Hb : b = false).
      { specialize (Hsm 0%nat). cbn in Hsm.
        by injection (Hsm ltac:(lia) ltac:(lia)). }
      subst b.
      assert (IHm := IH m sm ltac:(by injection Hlen) Hq).
      assert (Hpre : forall j, (j < m)%nat -> (j < length q)%nat ->
                               sm !! j = Some false).
      { intros j ? ?. apply (Hsm (S j)); cbn [length]; lia. }
      specialize (IHm Hpre). lra.
Qed.

(** What a mask that removes every position from [m] on keeps is at most
    the sum of the first [m]. *)
Lemma masked_sum_le_prefix (q : list Q) : forall m (sm : list bool),
  length sm = length q ->
  Forall (fun x => (0 <= x)%Q) q ->
  (forall j, (m <= j)%nat -> (j < length q)%nat -> sm !! j = Some true) ->
  (Qsum (zip_with (fun (b : bool) x => if b then 0 else x) sm q)
   <= Qsum (take m q))%Q.
Proof.
  induction q as [|x q IH]; intros m sm Hlen Hq Hsm.
  - rewrite take_nil. destruct sm; simpl; lra.
  - destruct sm as [|b sm]; [done|].
    apply Forall_cons in Hq as [Hx Hq].
    cbn [zip_with]. rewrite Qsum_cons.
    destruct m as [|m].
    + rewrite take_0.
      assert (Hb : b = true).
      { specialize (Hsm 0%nat). cbn in Hsm.
        by injection (Hsm ltac:(lia) ltac:(lia)). }
      subst b.
      assert (IH0 := IH 0%nat sm ltac:(by injection Hlen) Hq).
      rewrite take_0 in IH0.
      assert (Hpost : forall j, (0 <= j)%nat -> (j < length q)%nat ->
                                sm !! j = Some true).
      { intros j ? ?. apply (Hsm (S j)); cbn [length]; lia. }
      specialize (IH0 Hpost). simpl in *. lra.
    + rewrite firstn_cons, Qsum_cons.
      assert (IHm := IH m sm ltac:(by injection Hlen) Hq).
      assert (Hpost : forall j, (m <= j)%nat -> (j < length q)%nat ->
                                sm !! j = Some true).
      { intros j ? ?. apply (Hsm (S j)); cbn [length]; lia. }
      specialize (IHm Hpost). destruct b; lra.
Qed.

Lemma first_true (sm : list bool) :
  (forall j, (j < length sm)%nat -> sm !! j = Some false) \/
  exists J, sm !! J = Some true /\
            forall j, (j < J)%nat -> sm !! j = Some false.
Proof.
  induction sm as [|b sm IH]; [left; intros j Hj; simpl in Hj; lia|].
  destruct b.
  { right. exists 0%nat. split; [done|]. intros j Hj. lia. }
  destruct IH as [Hall|(J & HJ & Hbefore)].
  - left. intros [|j] Hj; [done|]. rewrite lookup_cons. apply Hall.
    simpl in Hj. lia.
  - right. exists (S J). split; [done|].
    intros [|j] Hj; [done|]. rewrite lookup_cons. apply Hbefore. lia.
Qed.

Lemma last_false (sm : list bool) :
  false ∈ sm ->
  exists J, sm !! J = Some false /\
            forall j, (J < j)%nat -> (j < length sm)%nat -> sm !! j = Some true.
Proof.
  induction sm as [|b sm IH]; [by intros ?%elem_of_nil|].
  intros Hin. destruct (decide (false ∈ sm)) as [Hsm|Hsm].
  - destruct (IH Hsm) as (J & HJ & Hafter). exists (S J). split; [done|].
    intros [|j] Hlt Hlen; [lia|]. rewrite lookup_cons. apply Hafter.
    + lia.
    + simpl in Hlen. lia.
  - apply elem_of_cons in Hin as [<-|Hin]; [|done].
    exists 0%nat. split; [done|].
    intros [|j] Hlt Hlen; [lia|]. rewrite lookup_cons.
    destruct (sm !! j) as [[]|] eqn:E.
    + done.
    + exfalso. apply Hsm. by eapply list_elem_of_lookup_2.
    + apply lookup_ge_None in E. simpl in Hlen. lia.
Qed.

(** The mass kept by the nucleus mask, from below. *)
Lemma nucleus_mass_lower top_p eps (q : list Q) (e : nat -> Q)
    (sm : list bool) :
  length sm = length q ->
  Forall (fun x => (0 <= x)%Q) q ->
  (Qsum q == 1)%Q -> (top_p < 1)%Q -> (0 <= eps)%Q ->
  (forall j, (e j <= eps)%Q) ->
  sm !! 0%nat = Some false ->
  (forall j, (S j < length q)%nat ->
     exists c, (c == Qsum (take (S j) q))%Q /\
               sm !! S j = Some (Qltb top_p (c + e j))) ->
  (top_p - eps
   < Qsum (zip_with (fun (b : bool) x => if b then 0 else x) sm q))%Q.
Proof.
  intros Hlen Hq Hone Hp Heps He H0 Htests.
  destruct (first_true sm) as [Hall|(J & HJ & Hbefore)].
  - pose proof (masked_sum_ge_prefix q (length q) sm Hlen Hq) as Hge.
    rewrite firstn_all in Hge.
    assert (Hpre : forall j, (j < length q)%nat -> (j < length q)%nat ->
                             sm !! j = Some false).
    { intros j Hj _. apply Hall. lia. }
    specialize (Hge Hpre). lra.
  - destruct J as [|j]; [congruence|].
    assert (Hj : (S j < length q)%nat).
    { apply lookup_lt_Some in HJ. lia. }
    destruct (Htests j Hj) as (c & Hc & Hsm).
    rewrite HJ in Hsm. injection Hsm as Hsm. symmetry in Hsm.
    apply Qltb_lt in Hsm.
    pose proof (masked_sum_ge_prefix q (S j) sm Hlen Hq) as Hge.
    assert (Hpre : forall i, (i < S j)%nat -> (i < length q)%nat ->
                             sm !! i = Some false).
    { intros i Hi _. by apply Hbefore. }
    specialize (Hge Hpre). specialize (He j). lra.
Qed.

(** The mass kept by the nucleus mask without its last kept position, from
    above. *)
Lemma nucleus_mass_upper top_p eps (q : list Q) (e : nat -> Q)
    (sm : list bool) J qJ :
  length sm = length q ->
  Forall (fun x => (0 <= x)%Q) q ->
  (0 < top_p)%Q -> (0 <= eps)%Q ->
  (forall j, (- eps <= e j)%Q) ->
  (forall j, (S j < length q)%nat ->
     exists c, (c == Qsum (take (S j) q))%Q /\
               sm !! S j = Some (Qltb top_p (c + e j))) ->
  sm !! J = Some false ->
  (forall j, (J < j)%nat -> (j < length sm)%nat -> sm !! j = Some true) ->
  q !! J = Some qJ ->
  (Qsum (zip_with (fun (b : bool) x => if b then 0 else x) sm q) - qJ
   <= top_p + eps)%Q.
Proof.
  intros Hlen Hq Hp Heps He Htests HJ Hafter HqJ.
  pose proof (masked_sum_le_prefix q (S J) sm Hlen Hq) as Hle.
  assert (Hpost : forall j, (S J <= j)%nat -> (j < length q)%nat ->
                            sm !! j = Some true).
  { intros j Hj Hjl. apply Hafter; lia. }
  specialize (Hle Hpost).
  pose proof (Qsum_take_S q J qJ HqJ) as HS.
  destruct J as [|j].
  - rewrite take_0 in HS. simpl in HS. lra.
  - assert (Hj : (S j < length q)%nat) by (by eapply lookup_lt_Some).
    destruct (Htests j Hj) as (c & Hc & Hsm).
    rewrite HJ in Hsm. injection Hsm as Hsm. symmetry in Hsm.
    apply Qltb_ge in Hsm. specialize (He j). lra.
Qed.

(** Top-p on one row: the mass kept exceeds [top_p] up to the rounding of
    the test, and without a smallest kept entry it is at most [top_p], up
    to that rounding. *)
Lemma top_p_row_nucleus top_p mk eps row :
  row <> [] -> Forall (fun x => is_fin x = true) row ->
  (0 < top_p < 1)%Q -> (mk <= 1)%Z ->
  (forall j, (Qabs (rounding top_p (map fst (sort_desc row)) j) <= eps)%Q) ->
  exists mask,
    top_p_mask expw rounding top_p mk row = Ok mask /\
    length mask = length row /\
    let probs := softmax expw row in
    let row' := masked_fill row mask NegInf in
    (top_p - eps < kept_mass probs row')%Q /\
    (forall i x, row' !! i = Some (Fin x) ->
       (forall j y, row' !! j = Some (Fin y) -> (x <= y)%Q) ->
       (kept_mass probs row' - nth i probs 0 <= top_p + eps)%Q).
Proof.
  intros Hne Hfin Hp Hmk Herr.
  destruct (top_p_mask_tests top_p mk row Hne Hmk)
    as (sm & Hmask & Hsmlen & H0 & Htests).
  set (sl := map fst (sort_desc row)) in *.
  set (q := softmax expw sl) in *.
  assert (Hqlen : length q = length row).
  { subst q sl. unfold softmax. by rewrite !length_map, sort_desc_length. }
  assert (Hqpos : Forall (fun x => (0 <= x)%Q) q).
  { apply softmax_nonneg; [done|by apply sorted_values_nonempty|
                           by apply sorted_values_fin]. }
  assert (Hone : (Qsum q == 1)%Q).
  { apply softmax_sums_to_one; [done|by apply sorted_values_nonempty|
                                by apply sorted_values_fin]. }
  assert (Hbound : forall j, (- eps <= rounding top_p sl j <= eps)%Q).
  { intros j. apply Qabs_Qle_condition, Herr. }
  assert (Heps : (0 <= eps)%Q).
  { destruct (Hbound 0%nat). lra. }
  assert (Hlook : forall j x i, sort_desc row !! j = Some (x, i) ->
            scatter sm (map snd (sort_desc row)) sm !! i = sm !! j).
  { intros j x i Hj.
    assert (Hjlt : (j < length sm)%nat).
    { apply lookup_lt_Some in Hj. rewrite sort_desc_length in Hj. lia. }
    destruct (lookup_lt_is_Some_2 sm j Hjlt) as [v Hv]. rewrite Hv.
    apply (scatter_lookup _ _ _ j).
    - apply sort_desc_indices_NoDup.
    - change (map snd (sort_desc row)) with (snd <$> sort_desc row).
      by rewrite list_lookup_fmap, Hj.
    - done.
    - rewrite Hsmlen. apply sort_desc_lookup_row in Hj.
      by eapply lookup_lt_Some. }
  set (mask := scatter sm (map snd (sort_desc row)) sm) in *.
  assert (Hmlen : length mask = length row).
  { subst mask. by rewrite scatter_length. }
  exists mask. split; [done|]. split; [done|]. cbn zeta.
  pose proof (kept_mass_masked row mask sm Hmlen Hsmlen Hfin Hlook) as Hkm.
  fold sl in Hkm. fold q in Hkm.
  assert (Htests' : forall j, (S j < length q)%nat ->
            exists c, (c == Qsum (take (S j) q))%Q /\
                      sm !! S j = Some (Qltb top_p (c + rounding top_p sl j))).
  { intros j Hj. apply Htests. lia. }
  split.
  - rewrite Hkm.
    apply (nucleus_mass_lower top_p eps q (rounding top_p sl) sm);
      try done; try lia; try lra.
    intros j. by destruct (Hbound j).
  - intros i x Hi Hmin.
    destruct (last_false sm) as (J & HJ & Hafter).
    { by eapply list_elem_of_lookup_2. }
    assert (HJlt : (J < length (sort_desc row))%nat).
    { apply lookup_lt_Some in HJ. rewrite sort_desc_length. lia. }
    destruct (lookup_lt_is_Some_2 _ _ HJlt) as [[vJ iJ] HsJ].
    pose proof (sort_desc_lookup_row _ _ _ _ HsJ) as HrowJ.
    assert (HfinJ : is_fin vJ = true).
    { rewrite Forall_forall in Hfin. apply Hfin.
      by eapply list_elem_of_lookup_2. }
    destruct vJ as [|yJ]; [done|].
    assert (HkeptJ : masked_fill row mask NegInf !! iJ = Some (Fin yJ)).
    { unfold masked_fill. apply lookup_zip_with_Some.
      exists (Fin yJ), false. split; [done|]. split; [done|].
      by rewrite (Hlook _ _ _ HsJ). }
    pose proof (Hmin iJ yJ HkeptJ) as Hle.
    unfold masked_fill in Hi.
    apply lookup_zip_with_Some in Hi as (x0 & b & Hx0 & Hrowi & Hmaski).
    destruct b; [done|]. subst x0.
    destruct (sort_desc_rank row i (Fin x) Hrowi) as [r Hr].
    assert (Hsmr : sm !! r = Some false).
    { by rewrite <- (Hlook _ _ _ Hr). }
    assert (HrJ : (r <= J)%nat).
    { destruct (decide (J < r)%nat) as [Hlt|]; [|lia].
      rewrite (Hafter r Hlt) in Hsmr; [done|].
      by eapply lookup_lt_Some. }
    assert (HslJ : sl !! J = Some (Fin yJ)).
    { subst sl. change (map fst (sort_desc row)) with (fst <$> sort_desc row).
      by rewrite list_lookup_fmap, HsJ. }
    assert (Hslr : sl !! r = Some (Fin x)).
    { subst sl. change (map fst (sort_desc row)) with (fst <$> sort_desc row).
      by rewrite list_lookup_fmap, Hr. }
    destruct (sorted_take_drop sl J (Fin yJ) (sort_desc_values_sorted row) HslJ)
      as [Htake _].
    assert (Hge : (yJ <= x)%Q).
    { rewrite Forall_forall in Htake.
      assert (Hin : Fin x ∈ take (S J) sl).
      { apply (list_elem_of_lookup_2 _ r). rewrite lookup_take_lt by lia.
        done. }
      specialize (Htake _ Hin). cbn [num_lt] in Htake.
      by apply Qltb_ge in Htake. }
    assert (Hxy : (x == yJ)%Q) by (by apply Qle_antisym).
    pose proof (softmax_lookup sl J (Fin yJ) HslJ) as HqJ. fold q in HqJ.
    pose proof (softmax_lookup row i (Fin x) Hrowi) as Hpi.
    rewrite (nth_lookup_Some _ _ _ _ Hpi).
    pose proof (nucleus_mass_upper top_p eps q (rounding top_p sl) sm J _
                  ltac:(lia) Hqpos ltac:(lra) Heps
                  (fun j => proj1 (Hbound j)) Htests' HJ Hafter HqJ)
      as Hupper.
    rewrite Hkm. cbn [expn] in *.
    assert (Heq : (expw x / Qsum (map (expn expw) row)
                   == expw yJ / Qsum (map (expn expw) sl))%Q).
    { subst sl. rewrite weights_perm, (expw_proper x yJ Hxy). reflexivity. }
    rewrite Heq. exact Hupper.
Qed.


End Nucleus.

(** ** The sampler returns on well-formed input *)

Lemma top_p_mask_returns top_p min_tokens_to_keep row :
  row <> [] ->
  exists mask,
    top_p_mask expw rounding top_p min_tokens_to_keep row = Ok mask /\
    length mask = length row.
Proof.
  intros Hne. unfold top_p_mask.
  set (m0 := map (fun c => Qltb top_p c)
                 (imap (fun i c =>
                          (c + rounding top_p (map fst (sort_desc row)) i)%Q)
                       (cumsum (softmax expw (map fst (sort_desc row)))))).
  assert (Hm0 : length m0 = length row).
  { subst m0. unfold cumsum, softmax.
    assert (Hc : forall acc l, length (cumsum_from acc l) = length l).
    { intros acc l. revert acc. induction l; intros; simpl; [done|].
      by rewrite IHl. }
    by rewrite length_map, length_imap, Hc, !length_map, sort_desc_length. }
  set (m1 := if (1 <? min_tokens_to_keep)%Z
             then clear_prefix min_tokens_to_keep m0 else m0).
  assert (Hm1 : length m1 = length row).
  { subst m1. destruct (1 <? min_tokens_to_keep)%Z; [|done].
    unfold clear_prefix.
    rewrite length_app, length_replicate, length_drop. lia. }
  clearbody m1. destruct m1 as [|b rest].
  { destruct row; [done|simpl in Hm1; lia]. }
  cbn [shift_right clear_first rbind].
  eexists. split; [reflexivity|].
  rewrite scatter_length. cbn [length].
  rewrite removelast_firstn_len, length_take. simpl in *. lia.
Qed.

Lemma top_k_stage_returns top_k mk fv rows :
  Forall (fun row => row <> []) rows ->
  exists r1, top_k_stage top_k mk fv rows = Ok r1 /\
             Forall2 (fun row row' => length row' = length row) rows r1.
Proof.
  intros Hrows. unfold top_k_stage.
  destruct (0 <? top_k)%Z eqn:Hk.
  2:{ exists rows. split; [done|]. by apply Forall2_same_length_lookup_2; 
      [|intros i x y Hx Hy; rewrite Hx in Hy; by injection Hy as ->]. }
  apply Z.ltb_lt in Hk.
  destruct (rmapM_Forall2 (top_k_mask top_k mk)
              (fun row mask => length mask = length row) rows)
    as (masks & Hmasks & HF).
  { eapply Forall_impl; [exact Hrows|]. intros row Hne.
    destruct (top_k_mask_spec top_k mk row Hk Hne) as (thr & _ & Hmask).
    eexists. split; [exact Hmask|]. by rewrite length_map. }
  rewrite Hmasks. cbn [rbind]. eexists. split; [reflexivity|].
  eapply zip_with_Forall2; [exact HF|].
  intros row mask Hlen. cbn beta in Hlen.
  unfold masked_fill. rewrite length_zip_with. lia.
Qed.

Lemma top_p_stage_returns top_p mk fv rows :
  Forall (fun row => row <> []) rows ->
  exists r2, top_p_stage top_p mk fv rows = Ok r2 /\
             Forall2 (fun row row' => length row' = length row) rows r2.
Proof.
  intros Hrows. unfold top_p_stage.
  destruct (Qltb top_p 1).
  2:{ exists rows. split; [done|]. by apply Forall2_same_length_lookup_2; 
      [|intros i x y Hx Hy; rewrite Hx in Hy; by injection Hy as ->]. }
  destruct (rmapM_Forall2 (top_p_mask expw rounding top_p mk)
              (fun row mask => length mask = length row) rows)
    as (masks & Hmasks & HF).
  { eapply Forall_impl; [exact Hrows|]. intros row Hne.
    by apply top_p_mask_returns. }
  rewrite Hmasks. cbn [rbind]. eexists. split; [reflexivity|].
  eapply zip_with_Forall2; [exact HF|].
  intros row mask Hlen. cbn beta in Hlen.
  unfold masked_fill. rewrite length_zip_with. lia.
Qed.
Lemma tensor_index_valid row i :
  valid_index (length row) i -> exists p, tensor_index row i = Ok p.
Proof.
  unfold valid_index, tensor_index. intros Hi.
  set (n := Z.of_nat (length row)) in *.
  set (j := if (i <? 0)%Z then (i + n)%Z else i).
  assert (Hj : (0 <= j < n)%Z).
  { subst j. destruct (i <? 0)%Z eqn:Hneg;
      [apply Z.ltb_lt in Hneg|apply Z.ltb_ge in Hneg]; lia. }
  replace ((j <? 0)%Z || (n <=? j)%Z) with false.
  2:{ symmetry. apply orb_false_iff. split; [apply Z.ltb_ge|apply Z.leb_gt]; lia. }
  destruct (row !! Z.to_nat j) as [p|] eqn:Hp; [by exists p|].
  apply lookup_ge_None in Hp. subst n. lia.
Qed.

Lemma dict_get_In d k v : dict_get d k = Some v -> In (k, v) d.
Proof.
  induction d as [|[k' v'] d IH]; [done|]. cbn [dict_get].
  destruct (k' =? k)%Z eqn:Hk.
  - apply Z.eqb_eq in Hk as ->. intros [= ->]. by left.
  - intros H. right. by apply IH.
Qed.

Lemma first_key_of_In d i k : first_key_of d i = Some k -> In (k, i) d.
Proof.
  induction d as [|[k' v'] d IH]; [done|]. cbn [first_key_of].
  destruct (v' =? i)%Z eqn:Hv.
  - apply Z.eqb_eq in Hv as ->. intros [= ->]. by left.
  - intros H. right. by apply IH.
Qed.

Lemma paired_confidence_row_returns d probs_b i :
  (forall k v, In (k, v) d ->
     valid_index (length probs_b) k /\ valid_index (length probs_b) v) ->
  exists p, paired_confidence_row d probs_b i = Ok p.
Proof.
  intros Hvalid. unfold paired_confidence_row.
  destruct (dict_get d i) as [v|] eqn:Hget.
  - apply dict_get_In in Hget. apply tensor_index_valid.
    by destruct (Hvalid _ _ Hget).
  - destruct (first_key_of d i) as [k|] eqn:Hkey; [|by eexists].
    apply first_key_of_In in Hkey. apply tensor_index_valid.
    by destruct (Hvalid _ _ Hkey).
Qed.

Lemma multinomial_rows_returns probs :
  (forall n row, row <> [] ->
     (multinomial_draw n row < length row)%nat) ->
  Forall (fun row => row <> []) probs ->
  forall w, exists ids n,
    multinomial_rows probs w = (Ok ids, set_rng n w) /\
    length ids = length probs.
Proof.
  intros Hdraw. induction 1 as [|row rest Hrow _ IH]; intros w.
  - exists [], (rng w). split; [by destruct w|done].
  - cbn [multinomial_rows]. rewrite bind_run. cbn beta iota.
    rewrite bind_run.
    replace (multinomial_draw (rng w) row <? length row)%nat with true
      by (symmetry; apply Nat.ltb_lt; by apply Hdraw).
    cbn [mret M_ret]. rewrite bind_run.
    change {| heap := heap w; trace := trace w; model := model w;
              rng := S (rng w) |} with (set_rng (S (rng w)) w).
    destruct (IH (set_rng (S (rng w)) w)) as (ids & n & -> & Hlen).
    eexists _, n. split; [reflexivity|]. simpl. by rewrite Hlen.
Qed.

Lemma choose_tokens_returns (b : bool) probs w :
  (b = true -> forall n row, row <> [] ->
     (multinomial_draw n row < length row)%nat) ->
  Forall (fun row => row <> []) probs ->
  exists tc ids n,
    choose_tokens b probs w = (Ok (tc, ids), set_rng n w) /\
    length tc = length probs /\ length ids = length probs.
Proof.
  intros Hdraw Hprobs. unfold choose_tokens. destruct b.
  - destruct (multinomial_rows_returns probs (Hdraw eq_refl) Hprobs w)
      as (ids & n & Hrun & Hlen).
    rewrite bind_run, Hrun. eexists _, ids, n. split; [reflexivity|].
    rewrite length_zip_with. lia.
  - destruct (rmapM_Forall2 top1 (fun _ _ => True) probs) as (r & Hr & HF).
    { eapply Forall_impl; [exact Hprobs|]. intros [|p row] Hne; [done|].
      by eexists. }
    rewrite bind_run, lift_run, Hr. eexists _, _, (rng w).
    split; [cbn; by destruct w|].
    apply Forall2_length in HF. by rewrite !length_map.
Qed.

Lemma softmax_length row : length (softmax expw row) = length row.
Proof. unfold softmax. by rewrite !length_map. Qed.

(** On a stored tensor whose batch entries end in a non-empty row of logits,
    with in-range draws and an [index_mapping] of valid token ids (or none),
    [sample] returns one token and one confidence pair per batch entry. *)
Lemma sample_returns l kw index_mapping w t :
  heap w !! l = Some (Float3 t) ->
  Forall (fun x => exists row, last x = Some row /\ row <> []) t ->
  (sample_logits kw = true ->
   forall n row, row <> [] -> (multinomial_draw n row < length row)%nat) ->
  (forall d x row k v,
     index_mapping = Some d -> x ∈ t -> last x = Some row -> In (k, v) d ->
     valid_index (length row) k /\ valid_index (length row) v) ->
  exists idx cp w',
    sample l kw index_mapping w = (Ok (idx, cp), w') /\
    length idx = length t /\ length cp = length t /\
    Forall (fun x => length x = 1%nat) idx /\
    Forall (fun c => exists a b, c = [[a; b]]) cp.
Proof.
  intros Hl Ht Hdraw Hmap. unfold sample.
  rewrite bind_run, (read_float3_run _ _ _ Hl), bind_run, lift_run.
  destruct (rmapM_Forall2 last_elem
              (fun x row => last x = Some row /\ row <> []) t)
    as (lasts & Hlasts & HF1).
  { eapply Forall_impl; [exact Ht|]. intros x (row & Hrow & Hne).
    exists row. unfold last_elem. by rewrite Hrow. }
  rewrite Hlasts, bind_run. cbn [alloc]. rewrite bind_run.
  set (fresh := map (map (fun x => Fin (x / floor_temperature (temperature kw))))
                    lasts).
  assert (HF2 : Forall2 (fun (row : list Q) (row' : list num) =>
                           length row' = length row) lasts fresh).
  { subst fresh. apply Forall2_same_length_lookup_2; [by rewrite length_map|].
    intros i row row' Hrow Hrow'.
    change (map ?f lasts) with (f <$> lasts) in Hrow'.
    rewrite list_lookup_fmap, Hrow in Hrow'. injection Hrow' as <-.
    by rewrite length_map. }
  assert (Hfresh_ne : Forall (fun row => row <> []) fresh).
  { apply Forall_forall. intros row' Hin.
    apply list_elem_of_lookup_1 in Hin as [i Hi].
    destruct (Forall2_lookup_r _ _ _ _ _ HF2 Hi) as (row & Hrow & Hlen).
    destruct (Forall2_lookup_r _ _ _ _ _ HF1 Hrow) as (x & _ & _ & Hne).
    intros ->. by destruct row. }
  set (w1 := set_heap (heap w ++ [Float2 fresh]) w).
  assert (Hl1 : heap w1 !! length (heap w) = Some (Float2 fresh)).
  { subst w1. cbn. rewrite lookup_app_r by done. by rewrite Nat.sub_diag. }
  assert (Hfilter : exists lg,
    (if (0 <? top_k kw)%Z || Qltb (top_p kw) 1
     then top_k_top_p_filtering (length (heap w)) (top_k kw) (top_p kw)
            NegInf 1
     else mret (length (heap w))) w1
    = (Ok (length (heap w)), set_heap (heap w ++ [Float2 lg]) w) /\
    Forall2 (fun (row : list num) (row' : list num) =>
               length row' = length row) fresh lg).
  { destruct ((0 <? top_k kw)%Z || Qltb (top_p kw) 1).
    - destruct (top_k_stage_returns (top_k kw) 1 NegInf fresh Hfresh_ne)
        as (r1 & Hr1 & HFr1).
      assert (Hr1_ne : Forall (fun row => row <> []) r1).
      { apply Forall_forall. intros row' Hin.
        apply list_elem_of_lookup_1 in Hin as [i Hi].
        destruct (Forall2_lookup_r _ _ _ _ _ HFr1 Hi) as (row & Hrow & Hlen).
        rewrite Forall_forall in Hfresh_ne.
        specialize (Hfresh_ne row (list_elem_of_lookup_2 _ _ _ Hrow)).
        intros ->. by destruct row. }
      destruct (top_p_stage_returns (top_p kw) 1 NegInf r1 Hr1_ne)
        as (r2 & Hr2 & HFr2).
      exists r2. split.
      + rewrite (top_k_top_p_filtering_run w1 _ fresh _ _ _ _ r1 r2 Hl1 Hr1 Hr2).
        subst w1. cbn [heap set_heap]. f_equal. unfold set_heap. cbn. f_equal.
        rewrite insert_app_r_alt by done. by rewrite Nat.sub_diag.
      + apply Forall2_same_length_lookup_2.
        { apply Forall2_length in HFr1, HFr2. lia. }
        intros i row row' Hrow Hrow'.
        destruct (Forall2_lookup_l _ _ _ _ _ HFr1 Hrow) as (row1 & Hrow1 & Hlen1).
        destruct (Forall2_lookup_l _ _ _ _ _ HFr2 Hrow1) as (row2 & Hrow2 & Hlen2).
        rewrite Hrow' in Hrow2. injection Hrow2 as <-. lia.
    - exists fresh. split; [done|].
      apply Forall2_same_length_lookup_2; [done|].
      intros i row row' Hrow Hrow'. rewrite Hrow in Hrow'. by injection Hrow' as ->. }
  destruct Hfilter as (lg & -> & HF3).
  set (w2 := set_heap (heap w ++ [Float2 lg]) w).
  rewrite bind_run, (read_float2_run w2 _ lg).
  2:{ subst w2. cbn. rewrite lookup_app_r by done. by rewrite Nat.sub_diag. }
  cbn zeta.
  set (probs := map (softmax expw) lg).
  (* every row of probabilities is as long as the last row of its entry *)
  assert (HFp : Forall2 (fun x (pr : list Q) =>
                           exists row, last x = Some row /\ row <> [] /\
                                       length pr = length row) t probs).
  { subst probs. apply Forall2_same_length_lookup_2.
    { apply Forall2_length in HF1, HF2, HF3. rewrite length_map. lia. }
    intros i x pr Hx Hpr.
    change (map ?f lg) with (f <$> lg) in Hpr. rewrite list_lookup_fmap in Hpr.
    destruct (lg !! i) as [row3|] eqn:Hrow3; [|done]. injection Hpr as <-.
    destruct (Forall2_lookup_l _ _ _ _ _ HF1 Hx) as (row & Hrow & Hlast & Hne).
    destruct (Forall2_lookup_l _ _ _ _ _ HF2 Hrow) as (row2 & Hrow2 & Hlen2).
    destruct (Forall2_lookup_l _ _ _ _ _ HF3 Hrow2) as (row3' & Hrow3' & Hlen3).
    rewrite Hrow3 in Hrow3'. injection Hrow3' as <-.
    exists row. split; [done|]. split; [done|]. rewrite softmax_length. lia. }
  assert (Hprobs_ne : Forall (fun row => row <> []) probs).
  { apply Forall_forall. intros pr Hin.
    apply list_elem_of_lookup_1 in Hin as [i Hi].
    destruct (Forall2_lookup_r _ _ _ _ _ HFp Hi) as (x & _ & row & _ & Hne & Hlen).
    intros ->. by destruct row. }
  destruct (choose_tokens_returns (sample_logits kw) probs w2 Hdraw Hprobs_ne)
    as (tc & ids & n & Hchoose & Htc & Hids).
  rewrite bind_run, Hchoose. rewrite bind_run, lift_run.
  assert (Hpaired : exists pc,
            paired_confidences index_mapping probs ids = Ok pc /\
            length pc = length probs).
  { destruct index_mapping as [d|]; cbn [paired_confidences].
    - destruct (rmapM_Forall2
                  (fun p => paired_confidence_row d p.1 (Z.of_nat p.2))
                  (fun _ _ => True) (zip probs ids)) as (pc & Hpc & HFpc).
      { apply Forall_forall. intros [pr i] Hin.
        apply list_elem_of_lookup_1 in Hin as [b Hb].
        apply lookup_zip_with_Some in Hb as (pr' & i' & [= <- <-] & Hpr & Hi).
        destruct (Forall2_lookup_r _ _ _ _ _ HFp Hpr)
          as (x & Hx & row & Hlast & Hne & Hlen).
        destruct (paired_confidence_row_returns d pr (Z.of_nat i)) as [p Hp].
        { intros k v Hkv. rewrite Hlen.
          eapply (Hmap d x row k v); eauto.
          by eapply list_elem_of_lookup_2. }
        by exists p. }
      exists pc. split; [done|]. apply Forall2_length in HFpc.
      rewrite <- HFpc, length_zip. lia.
    - eexists. split; [reflexivity|]. rewrite length_map. lia. }
  destruct Hpaired as (pc & -> & Hpc).
  eexists _, _, _. split; [reflexivity|].
  assert (Hlen_t : length probs = length t)
    by (apply Forall2_length in HFp; lia).
  split; [rewrite length_map; lia|].
  split; [rewrite length_zip_with; lia|].
  split.
  - apply Forall_map. by apply Forall_forall.
  - apply Forall_forall. intros c Hin.
    apply list_elem_of_lookup_1 in Hin as [b Hb].
    apply lookup_zip_with_Some in Hb as (a & p & -> & _ & _). by exists a, p.
Qed.

(** ** A single new token *)

(** One step of [exists e, fst (m w) = Raise e]: run the first action, and
    finish when it raised. *)
Ltac step_or_raise :=
  rewrite bind_run;
  lazymatch goal with
  | |- exists e, fst (match ?x with pair _ _ => _ end) = Raise e =>
      destruct x as [[?|?] ?]; [|by eexists]
  | |- exists e, fst (let (_, _) := ?x in _) = Raise e =>
      destruct x as [[?|?] ?]; [|by eexists]
  end.

(** X14. With [max_new_tokens = 1] the decode loop makes no step, and [torch.cat]
    of its empty list of tokens raises: [generate] never returns, whatever
    the model, the conditioning and the options. *)
Theorem generate_single_token_raises cond emb_masks cfg_scale cfg_interval
    confidence_threshold index_mapping kw w :
  exists e,
    fst (generate cond 1 emb_masks cfg_scale cfg_interval confidence_threshold
                  index_mapping kw w) = Raise e.
Proof.
  unfold generate.
  step_or_raise. step_or_raise.
  match goal with a : (cond_t * nat)%type |- _ => destruct a as [cc T] end.
  do 6 step_or_raise.
  step_or_raise.
  match goal with
  | a : (list (list Z) * list (list (list Q)))%type |- _ =>
      destruct a as [next_token first_confidence]
  end.
  do 2 step_or_raise.
  rewrite bind_run. unfold decode_n_tokens.
  change (Z.to_nat (1 - 1)) with 0%nat. cbn [decode_loop mret M_ret].
  rewrite bind_run, lift_run. cbn [torch_cat_dim1]. by eexists.
Qed.

(** ** The filter never empties a row *)

Lemma sort_desc_head row :
  row <> [] ->
  exists x i, sort_desc row !! 0%nat = Some (x, i) /\ row !! i = Some x /\
              largest_in row x.
Proof.
  intros Hne.
  pose proof (sort_desc_values_sorted row) as Hsorted.
  pose proof (sort_desc_values row) as Hperm.
  pose proof (sort_desc_length row) as Hlen.
  pose proof (sort_desc_lookup_row row 0) as Hrow.
  destruct (sort_desc row) as [|[x i] rest].
  { destruct row; [done|simpl in Hlen; lia]. }
  exists x, i. split; [done|]. split; [by apply Hrow|].
  intros y Hy. rewrite <- Hperm in Hy. simpl in *.
  inversion Hsorted as [|? ? _ Hall]; subst.
  apply elem_of_cons in Hy as [->|Hy]; [apply num_lt_irrefl|].
  rewrite Forall_forall in Hall. by apply Hall.
Qed.

Lemma keeps_a_largest_refl row : row <> [] -> keeps_a_largest row row.
Proof.
  intros Hne. destruct (sort_desc_head row Hne) as (x & i & _ & Hi & Hmax).
  split; [done|]. split; [by right|]. by exists i, x.
Qed.

Lemma keeps_a_largest_trans a b c :
  keeps_a_largest a b -> keeps_a_largest b c -> keeps_a_largest a c.
Proof.
  intros (Hlen1 & Hb & i0 & x0 & Ha0 & Hb0 & Hmax0)
         (Hlen2 & Hc & i1 & x1 & Hb1 & Hc1 & Hmax1).
  split; [lia|]. split.
  { intros i x' Hx'. destruct (Hc i x' Hx') as [->|Hbi]; [by left|].
    by apply Hb. }
  assert (Hx10 : num_lt x1 x0 = false).
  { apply Hmax1. by eapply list_elem_of_lookup_2. }
  exists i1, x1. split; [|split; [done|]].
  - destruct (Hb i1 x1 Hb1) as [->|]; [|done].
    destruct x0; [|done].
    destruct (a !! i1) as [y|] eqn:Hy.
    + specialize (Hmax0 y (list_elem_of_lookup_2 _ _ _ Hy)).
      by destruct y.
    + apply lookup_ge_None in Hy. apply lookup_lt_Some in Hb1. lia.
  - intros y Hy. eapply num_ge_trans; [exact Hx10|]. by apply Hmax0.
Qed.

(** The top-k branch on one row: the entries below the threshold become the
    sentinel, and the largest entry is not below it. *)
Lemma top_k_row_keeps top_k mk row :
  (0 < top_k)%Z -> row <> [] ->
  exists mask,
    top_k_mask top_k mk row = Ok mask /\
    keeps_a_largest row (masked_fill row mask NegInf).
Proof.
  intros Hk Hne.
  destruct (top_k_mask_spec top_k mk row Hk Hne) as (thr & Hthr & Hmask).
  eexists. split; [exact Hmask|]. rewrite masked_fill_map.
  destruct (sort_desc_head row Hne) as (x & i & _ & Hi & Hmax).
  split; [by rewrite length_map|]. split.
  - intros j x' Hx'.
    change (map ?f row) with (f <$> row) in Hx'.
    rewrite list_lookup_fmap in Hx'.
    destruct (row !! j) as [y|]; [|done]. simpl in Hx'. injection Hx' as <-.
    destruct (num_lt y thr); [by left|by right].
  - exists i, x. split; [done|]. split; [|done].
    change (map ?f row) with (f <$> row).
    rewrite list_lookup_fmap, Hi. simpl.
    rewrite Hmax; [done|].
    rewrite <- (sort_desc_values row). by eapply list_elem_of_lookup_2.
Qed.

(** The removal mask of the nucleus branch, read in sorted order: position 0
    is kept, and with [min_tokens_to_keep > 1] so are the positions up to
    [min_tokens_to_keep]. *)
Lemma top_p_mask_sorted top_p mk row :
  row <> [] ->
  exists mask,
    top_p_mask expw rounding top_p mk row = Ok mask /\
    length mask = length row /\
    forall j x i, sort_desc row !! j = Some (x, i) ->
      (j = 0%nat \/ ((1 < mk)%Z /\ (Z.of_nat j <= mk)%Z)) ->
      mask !! i = Some false.
Proof.
  intros Hne. unfold top_p_mask.
  set (m0 := map (fun c => Qltb top_p c)
                 (imap (fun i c =>
                          (c + rounding top_p (map fst (sort_desc row)) i)%Q)
                       (cumsum (softmax expw (map fst (sort_desc row)))))).
  assert (Hm0 : length m0 = length row).
  { subst m0. unfold cumsum, softmax.
    assert (Hc : forall acc l, length (cumsum_from acc l) = length l).
    { intros acc l. revert acc. induction l; intros; simpl; [done|].
      by rewrite IHl. }
    by rewrite length_map, length_imap, Hc, !length_map, sort_desc_length. }
  set (m1 := if (1 <? mk)%Z then clear_prefix mk m0 else m0).
  assert (Hm1 : length m1 = length row).
  { subst m1. destruct (1 <? mk)%Z; [|done].
    unfold clear_prefix.
    rewrite length_app, length_replicate, length_drop. lia. }
  assert (Hpre : (1 < mk)%Z -> forall j, (Z.of_nat j < mk)%Z ->
                 (j < length row)%nat -> m1 !! j = Some false).
  { intros Hmk j Hj Hlt. subst m1.
    replace (1 <? mk)%Z with true by (symmetry; by apply Z.ltb_lt).
    unfold clear_prefix. rewrite lookup_app_l.
    - apply lookup_replicate_2. lia.
    - rewrite length_replicate. lia. }
  clearbody m1. destruct m1 as [|b rest].
  { destruct row; [done|simpl in Hm1; lia]. }
  cbn [shift_right clear_first rbind].
  eexists. split; [reflexivity|].
  assert (Hlen : length (false :: removelast (b :: rest)) = length row).
  { cbn [length]. rewrite removelast_firstn_len, length_take.
    simpl in *. lia. }
  split; [by rewrite scatter_length|].
  intros j x i Hj Hcase.
  apply (scatter_lookup _ _ _ j).
  - apply sort_desc_indices_NoDup.
  - change (map snd (sort_desc row)) with (snd <$> sort_desc row).
    by rewrite list_lookup_fmap, Hj.
  - destruct j as [|j]; [done|].
    destruct Hcase as [|[Hmk Hle]]; [done|].
    apply lookup_lt_Some in Hj. rewrite sort_desc_length in Hj.
    rewrite lookup_cons, removelast_firstn_len.
    rewrite lookup_take_lt by (simpl in *; lia).
    apply Hpre; [done|lia|lia].
  - rewrite Hlen. apply sort_desc_lookup_row in Hj.
    by eapply lookup_lt_Some.
Qed.

Lemma top_p_row_keeps top_p mk row :
  row <> [] ->
  exists mask,
    top_p_mask expw rounding top_p mk row = Ok mask /\
    keeps_a_largest row (masked_fill row mask NegInf).
Proof.
  intros Hne.
  destruct (top_p_mask_sorted top_p mk row Hne) as (mask & Hmask & Hlen & Hkeep).
  exists mask. split; [done|].
  destruct (sort_desc_head row Hne) as (x & i & Hs & Hi & Hmax).
  unfold masked_fill. split; [rewrite length_zip_with; lia|]. split.
  - intros j x' Hx'.
    apply lookup_zip_with_Some in Hx' as (y & m & -> & Hy & _).
    destruct m; [by left|by right].
  - exists i, x. split; [done|]. split; [|done].
    apply lookup_zip_with_Some. exists x, false.
    split; [done|]. split; [done|]. eapply Hkeep; [exact Hs|by left].
Qed.

Lemma keeps_a_largest_nonempty row row' :
  keeps_a_largest row row' -> row' <> [].
Proof. intros (_ & _ & i & x & _ & Hi & _) ->. done. Qed.

Lemma stage_keeps (f : list num -> result (list bool)) rows :
  Forall (fun row => exists mask,
            f row = Ok mask /\
            keeps_a_largest row (masked_fill row mask NegInf)) rows ->
  exists masks,
    rmapM f rows = Ok masks /\
    Forall2 keeps_a_largest rows
      (zip_with (fun row m => masked_fill row m NegInf) rows masks).
Proof.
  intros H.
  destruct (rmapM_Forall2 f
              (fun row mask => keeps_a_largest row (masked_fill row mask NegInf))
              rows H) as (masks & Hmasks & HF).
  exists masks. split; [done|].
  eapply zip_with_Forall2; [exact HF|]. done.
Qed.

Lemma Forall2_refl_on {A} (P : A -> A -> Prop) (l : list A) :
  Forall (fun x => P x x) l -> Forall2 P l l.
Proof. induction 1; by constructor. Qed.

(** Both branches of the filter, on rows that are not empty. *)
Lemma filter_stages_keep top_k top_p mk rows :
  Forall (fun row => row <> []) rows ->
  exists r1 r2,
    top_k_stage top_k mk NegInf rows = Ok r1 /\
    top_p_stage top_p mk NegInf r1 = Ok r2 /\
    Forall2 keeps_a_largest rows r1 /\
    Forall2 keeps_a_largest r1 r2.
Proof.
  intros Hrows.
  assert (H1 : exists r1, top_k_stage top_k mk NegInf rows = Ok r1 /\
                          Forall2 keeps_a_largest rows r1).
  { unfold top_k_stage. destruct (0 <? top_k)%Z eqn:Hk.
    - apply Z.ltb_lt in Hk.
      destruct (stage_keeps (top_k_mask top_k mk) rows) as (masks & -> & HF).
      { eapply Forall_impl; [exact Hrows|]. intros row Hne.
        by apply top_k_row_keeps. }
      eexists. split; [reflexivity|done].
    - exists rows. split; [done|]. apply Forall2_refl_on.
      eapply Forall_impl; [exact Hrows|]. apply keeps_a_largest_refl. }
  destruct H1 as (r1 & Hr1 & HF1).
  assert (Hr1_ne : Forall (fun row => row <> []) r1).
  { apply Forall_forall. intros row' Hin.
    apply list_elem_of_lookup_1 in Hin as [i Hi].
    destruct (Forall2_lookup_r _ _ _ _ _ HF1 Hi) as (row & _ & Hk).
    by eapply keeps_a_largest_nonempty. }
  exists r1. unfold top_p_stage. destruct (Qltb top_p 1).
  - destruct (stage_keeps (top_p_mask expw rounding top_p mk) r1) as (masks & -> & HF).
    { eapply Forall_impl; [exact Hr1_ne|]. intros row Hne.
      by apply top_p_row_keeps. }
    eexists. split; [done|]. split; [reflexivity|]. done.
  - exists r1. split; [done|]. split; [done|]. split; [done|].
    apply Forall2_refl_on.
    eapply Forall_impl; [exact Hr1_ne|]. apply keeps_a_largest_refl.
Qed.

Lemma Forall2_compose {A} (P : A -> A -> Prop) (l1 l2 l3 : list A) :
  (forall a b c, P a b -> P b c -> P a c) ->
  Forall2 P l1 l2 -> Forall2 P l2 l3 -> Forall2 P l1 l3.
Proof.
  intros Htrans H12. revert l3.
  induction H12; intros l3 H23; inversion H23; subst; constructor; eauto.
Qed.

(** X1. Whatever [top_k], [top_p] and [min_tokens_to_keep] are, the filter returns
    on rows that are not empty, overwrites its argument with rows of the same
    length in which entries are either untouched or the sentinel, and leaves a
    largest entry of every row untouched: no row is ever emptied. *)
Theorem filter_never_empties_a_row w l rows top_k top_p min_tokens_to_keep :
  heap w !! l = Some (Float2 rows) ->
  Forall (fun row => row <> []) rows ->
  exists rows',
    top_k_top_p_filtering l top_k top_p NegInf min_tokens_to_keep w
    = (Ok l, set_heap (<[l := Float2 rows']> (heap w)) w) /\
    Forall2 (fun row row' =>
      length row' = length row /\
      (forall i x', row' !! i = Some x' -> x' = NegInf \/ row !! i = Some x') /\
      exists i x, row !! i = Some x /\ row' !! i = Some x /\
                  forall y, y ∈ row -> num_lt x y = false)
      rows rows'.
Proof.
  intros Hl Hrows.
  destruct (filter_stages_keep top_k top_p min_tokens_to_keep rows Hrows)
    as (r1 & r2 & Hr1 & Hr2 & HF1 & HF2).
  exists r2. split; [by eapply top_k_top_p_filtering_run|].
  exact (Forall2_compose _ _ _ _ keeps_a_largest_trans HF1 HF2).
Qed.

(** ** Parameters that cut nothing *)

Lemma zip_with_fixed {A B} (f : A -> B -> A) (l : list A) (k : list B) :
  Forall2 (fun x y => f x y = x) l k -> zip_with f l k = l.
Proof. induction 1 as [|x y l k Hxy _ IH]; simpl; [done|]. by rewrite Hxy, IH. Qed.

(** A row no longer than the clamped [top_k] has no entry below the
    threshold. *)
Lemma top_k_row_saturated top_k mk fv row :
  (0 < top_k)%Z -> row <> [] ->
  (Z.of_nat (length row) <= Z.max top_k mk)%Z ->
  exists mask,
    top_k_mask top_k mk row = Ok mask /\ masked_fill row mask fv = row.
Proof.
  intros Hk Hne Hlen.
  destruct (top_k_mask_spec top_k mk row Hk Hne) as (thr & Hthr & Hmask).
  eexists. split; [exact Hmask|]. rewrite masked_fill_map.
  replace (Z.to_nat (clamp_top_k top_k mk (length row))) with (length row)
    in Hthr by (unfold clamp_top_k; lia).
  destruct (sorted_take_drop _ _ _ (sort_desc_values_sorted row) Hthr)
    as [Hall _].
  rewrite take_ge in Hall.
  2:{ rewrite length_map, sort_desc_length. lia. }
  rewrite (sort_desc_values row) in Hall.
  rewrite <- (map_id row) at 2. apply map_ext_Forall.
  eapply Forall_impl; [exact Hall|]. intros x Hx. simpl in Hx. by rewrite Hx.
Qed.

(** X2. A [top_k] that is not positive, or is at least the vocabulary size once
    clamped, together with [top_p >= 1], makes the filter the identity: the
    world is left as it was, for every [filter_value]. *)
Theorem filter_cuts_nothing w l rows top_k top_p filter_value
    min_tokens_to_keep :
  heap w !! l = Some (Float2 rows) ->
  (1 <= top_p)%Q ->
  (top_k <= 0)%Z \/
  Forall (fun row =>
            row <> [] /\
            (Z.of_nat (length row) <= Z.max top_k min_tokens_to_keep)%Z) rows ->
  top_k_top_p_filtering l top_k top_p filter_value min_tokens_to_keep w
  = (Ok l, w).
Proof.
  intros Hl Hp Hk.
  assert (H1 : top_k_stage top_k min_tokens_to_keep filter_value rows = Ok rows).
  { unfold top_k_stage. destruct (0 <? top_k)%Z eqn:Hpos; [|done].
    apply Z.ltb_lt in Hpos. destruct Hk as [Hk|Hk]; [lia|].
    destruct (rmapM_Forall2 (top_k_mask top_k min_tokens_to_keep)
                (fun row mask => masked_fill row mask filter_value = row) rows)
      as (masks & -> & HF).
    { eapply Forall_impl; [exact Hk|]. intros row [Hne Hlen].
      by apply top_k_row_saturated. }
    cbn [rbind]. f_equal. by apply zip_with_fixed. }
  assert (H2 : top_p_stage top_p min_tokens_to_keep filter_value rows = Ok rows).
  { unfold top_p_stage. by replace (Qltb top_p 1) with false
      by (symmetry; by apply Qltb_ge). }
  rewrite (top_k_top_p_filtering_run w l rows _ _ _ _ rows rows Hl H1 H2).
  by rewrite list_insert_id, set_heap_id.
Qed.

(** ** [min_tokens_to_keep] in the nucleus branch *)

(** Distinct positions that hold entries satisfying [f] are counted by
    [countb f]. *)
Lemma countb_lookups {A} (f : A -> bool) (l : list A) : forall I : list nat,
  NoDup I ->
  (forall i, i ∈ I -> exists x, l !! i = Some x /\ f x = true) ->
  (length I <= countb f l)%nat.
Proof.
  induction l as [|a l IH] using rev_ind; intros I Hnd HI.
  - destruct I as [|i I]; [done|].
    destruct (HI i) as (x & Hx & _); [by left|]. done.
  - rewrite countb_app, countb_cons.
    rewrite <- (filter_app_complement (fun j => j = length l) I), length_app.
    assert (H1 : (length (filter (fun j => j = length l) I)
                  <= if f a then 1 else 0)%nat).
    { pose proof (NoDup_filter (fun j => j = length l) I Hnd) as Hnd'.
      destruct (filter (fun j => j = length l) I) as [|j1 [|j2 rest]] eqn:E.
      - simpl. lia.
      - assert (Hj : j1 ∈ filter (fun j => j = length l) I)
          by (rewrite E; by left).
        apply list_elem_of_filter in Hj as [-> Hj].
        destruct (HI _ Hj) as (x & Hx & Hf).
        rewrite lookup_app_r, Nat.sub_diag in Hx by done.
        injection Hx as ->. rewrite Hf. simpl. lia.
      - assert (Hj1 : j1 ∈ filter (fun j => j = length l) I)
          by (rewrite E; by left).
        assert (Hj2 : j2 ∈ filter (fun j => j = length l) I)
          by (rewrite E; right; by left).
        apply list_elem_of_filter in Hj1 as [-> _].
        apply list_elem_of_filter in Hj2 as [-> _].
        apply NoDup_cons in Hnd' as [Hnotin _]. exfalso. apply Hnotin. by left. }
    assert (H2 : (length (filter (fun j => ¬ j = length l) I)
                  <= countb f l)%nat).
    { apply IH; [by apply NoDup_filter|].
      intros i [Hne Hi]%list_elem_of_filter.
      destruct (HI i Hi) as (x & Hx & Hf). exists x. split; [|done].
      assert (i < length (l ++ [a]))%nat by (by eapply lookup_lt_Some).
      rewrite length_app in *. simpl in *.
      rewrite lookup_app_l in Hx by lia. done. }
    unfold countb at 2. simpl. lia.
Qed.

(** X3. With [min_tokens_to_keep > 1] (and the top-k branch off) the nucleus
    branch keeps at least [min_tokens_to_keep + 1] entries of a finite row, or
    all of them when the row is shorter, however small [top_p] is: one more
    than the parameter says, the shift being applied after the prefix was
    cleared.  Whatever the order of equal logits after sorting, every entry
    strictly above the value ranked [min_tokens_to_keep] (from 0) survives,
    and the other entries are untouched or the sentinel. *)
Theorem nucleus_keeps_min_tokens w l rows top_k top_p min_tokens_to_keep :
  heap w !! l = Some (Float2 rows) ->
  (top_k <= 0)%Z ->
  (1 < min_tokens_to_keep)%Z ->
  Forall (fun row => row <> [] /\ Forall (fun x => is_fin x = true) row) rows ->
  exists rows',
    top_k_top_p_filtering l top_k top_p NegInf min_tokens_to_keep w
    = (Ok l, set_heap (<[l := Float2 rows']> (heap w)) w) /\
    Forall2 (fun row row' =>
      length row' = length row /\
      (forall i x', row' !! i = Some x' -> x' = NegInf \/ row !! i = Some x') /\
      (Z.min (min_tokens_to_keep + 1) (Z.of_nat (length row))
       <= Z.of_nat (countb is_fin row'))%Z /\
      (forall thr i x,
         map fst (sort_desc row) !! Z.to_nat min_tokens_to_keep = Some thr ->
         row !! i = Some x -> num_lt thr x = true -> row' !! i = Some x))
      rows rows'.
Proof.
  intros Hl Hk Hmk Hrows.
  assert (H1 : top_k_stage top_k min_tokens_to_keep NegInf rows = Ok rows).
  { unfold top_k_stage. by replace (0 <? top_k)%Z with false
      by (symmetry; apply Z.ltb_ge; lia). }
  (* what the nucleus branch does to one row, by rank *)
  assert (Hrow : forall row mask,
    row <> [] -> Forall (fun x => is_fin x = true) row ->
    length mask = length row ->
    (forall j x i, sort_desc row !! j = Some (x, i) ->
       (Z.of_nat j <= min_tokens_to_keep)%Z -> mask !! i = Some false) ->
    (Z.min (min_tokens_to_keep + 1) (Z.of_nat (length row))
     <= Z.of_nat (countb is_fin (masked_fill row mask NegInf)))%Z /\
    (forall thr i x,
       map fst (sort_desc row) !! Z.to_nat min_tokens_to_keep = Some thr ->
       row !! i = Some x -> num_lt thr x = true ->
       masked_fill row mask NegInf !! i = Some x)).
  { intros row mask Hne Hfin Hlen Hkeep.
    assert (Hkept : forall j x i, sort_desc row !! j = Some (x, i) ->
              (Z.of_nat j <= min_tokens_to_keep)%Z ->
              masked_fill row mask NegInf !! i = Some x).
    { intros j x i Hs Hj. unfold masked_fill.
      apply lookup_zip_with_Some. exists x, false.
      split; [done|]. split; [by eapply sort_desc_lookup_row|by eapply Hkeep]. }
    split.
    - set (top := take (Z.to_nat (min_tokens_to_keep + 1)) (sort_desc row)).
      assert (Hlen_top : Z.of_nat (length top)
                         = Z.min (min_tokens_to_keep + 1)
                                 (Z.of_nat (length row))).
      { subst top. rewrite length_take, sort_desc_length. lia. }
      rewrite <- Hlen_top, <- (length_map snd top). apply inj_le.
      apply countb_lookups.
      + subst top. change (map snd ?l) with (snd <$> l).
        rewrite fmap_take.
        eapply sublist_NoDup; [apply sort_desc_indices_NoDup|apply sublist_take].
      + intros i Hi. change (map snd top) with (snd <$> top) in Hi.
        apply list_elem_of_fmap in Hi as ([x i'] & -> & Hin).
        apply list_elem_of_lookup_1 in Hin as [j Hj]. subst top.
        apply lookup_take_Some in Hj as [Hj Hlt].
        exists x. split; [apply (Hkept j); [done|lia]|].
        rewrite Forall_forall in Hfin. apply Hfin.
        apply (list_elem_of_lookup_2 _ i'). by eapply sort_desc_lookup_row.
    - intros thr i x Hthr Hi Hlt.
      destruct (sort_desc_rank row i x Hi) as [r Hr].
      apply (Hkept r); [done|].
      destruct (Z_le_gt_dec (Z.of_nat r) min_tokens_to_keep) as [|Hgt]; [done|].
      exfalso.
      destruct (sorted_take_drop _ _ _ (sort_desc_values_sorted row) Hthr)
        as [_ Hdrop].
      rewrite Forall_forall in Hdrop.
      assert (Hx : x ∈ drop (S (Z.to_nat min_tokens_to_keep))
                          (map fst (sort_desc row))).
      { apply (list_elem_of_lookup_2 _
                 (r - S (Z.to_nat min_tokens_to_keep))%nat).
        rewrite lookup_drop.
        replace (S (Z.to_nat min_tokens_to_keep)
                 + (r - S (Z.to_nat min_tokens_to_keep)))%nat with r by lia.
        change (map fst ?l) with (fst <$> l).
        by rewrite list_lookup_fmap, Hr. }
      specialize (Hdrop x Hx). cbn beta in Hdrop. congruence. }
  assert (H2 : exists r2,
    top_p_stage top_p min_tokens_to_keep NegInf rows = Ok r2 /\
    Forall2 (fun row row' =>
      length row' = length row /\
      (forall i x', row' !! i = Some x' -> x' = NegInf \/ row !! i = Some x') /\
      (Z.min (min_tokens_to_keep + 1) (Z.of_nat (length row))
       <= Z.of_nat (countb is_fin row'))%Z /\
      (forall thr i x,
         map fst (sort_desc row) !! Z.to_nat min_tokens_to_keep = Some thr ->
         row !! i = Some x -> num_lt thr x = true -> row' !! i = Some x))
      rows r2).
  { unfold top_p_stage. destruct (Qltb top_p 1).
    - destruct (rmapM_Forall2 (top_p_mask expw rounding top_p min_tokens_to_keep)
                  (fun row mask =>
                     row <> [] /\ Forall (fun x => is_fin x = true) row /\
                     length mask = length row /\
                     forall j x i,
                       sort_desc row !! j = Some (x, i) ->
                       (Z.of_nat j <= min_tokens_to_keep)%Z ->
                       mask !! i = Some false) rows)
        as (masks & -> & HF).
      { eapply Forall_impl; [exact Hrows|]. intros row [Hne Hfin].
        destruct (top_p_mask_sorted top_p min_tokens_to_keep row Hne)
          as (mask & Hmask & Hlen & Hkeep).
        exists mask. split; [done|]. split; [done|]. split; [done|].
        split; [done|].
        intros j x i Hs Hj. eapply Hkeep; [exact Hs|]. right. by split. }
      eexists. split; [reflexivity|].
      eapply zip_with_Forall2; [exact HF|].
      intros row mask (Hne & Hfin & Hlen & Hkeep).
      destruct (Hrow row mask Hne Hfin Hlen Hkeep) as [Hcount Habove].
      split; [unfold masked_fill; rewrite length_zip_with; lia|].
      split; [|by split].
      intros i x' Hx'. unfold masked_fill in Hx'.
      apply lookup_zip_with_Some in Hx' as (y & m & -> & Hy & _).
      destruct m; [by left|by right].
    - exists rows. split; [done|]. apply Forall2_refl_on.
      eapply Forall_impl; [exact Hrows|]. intros row [Hne Hfin].
      split; [done|]. split; [by right|]. split; [|done].
      rewrite (countb_all is_fin row) by done. lia. }
  destruct H2 as (r2 & H2 & HF). exists r2.
  split; [by eapply top_k_top_p_filtering_run|done].
Qed.

(** ** The distribution the sampler draws from *)

Lemma Qsum_ge_elem l x :
  Forall (fun y => (0 <= y)%Q) l -> x ∈ l -> (x <= Qsum l)%Q.
Proof.
  induction 1 as [|y l Hy Hl IH]; [by intros ?%elem_of_nil|].
  pose proof (Qsum_nonneg l Hl). rewrite Qsum_cons.
  intros [->|Hin]%elem_of_cons; [lra|]. specialize (IH Hin). lra.
Qed.

Lemma argmax_from_spec rest : forall pre best besti p j,
  (pre ++ rest) !! besti = Some best ->
  Forall (fun q => (q <= best)%Q) pre ->
  argmax_from best besti (length pre) rest = (p, j) ->
  (pre ++ rest) !! j = Some p /\ Forall (fun q => (q <= p)%Q) (pre ++ rest).
Proof.
  induction rest as [|x rest IH]; intros pre best besti p j Hbest Hpre Harg.
  - simpl in Harg. injection Harg as <- <-. by rewrite app_nil_r in *.
  - simpl in Harg. rewrite cons_middle, app_assoc in *.
    replace (S (length pre)) with (length (pre ++ [x])) in Harg
      by (rewrite length_app; simpl; lia).
    destruct (Qltb best x) eqn:Hlt.
    + apply Qltb_lt in Hlt.
      apply (IH (pre ++ [x]) x (length pre) p j); [| |exact Harg].
      * rewrite lookup_app_l by (rewrite length_app; simpl; lia).
        by rewrite lookup_app_r, Nat.sub_diag.
      * apply Forall_app. split.
        -- eapply Forall_impl; [exact Hpre|]. intros q Hq. simpl in Hq. lra.
        -- constructor; [apply Qle_refl|done].
    + apply Qltb_ge in Hlt.
      apply (IH (pre ++ [x]) best besti p j); [done| |exact Harg].
      apply Forall_app. split; [done|]. by constructor.
Qed.

(** [torch.topk(row, k=1)] returns an entry of the row that no entry exceeds. *)
Lemma top1_spec row p i :
  top1 row = Ok (p, i) ->
  row !! i = Some p /\ forall q, q ∈ row -> (q <= p)%Q.
Proof.
  destruct row as [|x rest]; [done|]. simpl. intros [= Harg].
  destruct (argmax_from_spec rest [x] x 0%nat p i) as [Hi Hall];
    [done|by constructor; [apply Qle_refl|]|exact Harg|].
  split; [done|]. intros q Hq. rewrite Forall_forall in Hall. by apply Hall.
Qed.

(** The confidence that comes with a token is that token's entry of [probs];
    in greedy mode no entry exceeds it. *)
Lemma choose_tokens_inv (b : bool) probs w tc ids w' :
  choose_tokens b probs w = (Ok (tc, ids), w') ->
  forall k row, probs !! k = Some row ->
    exists i p, ids !! k = Some i /\ tc !! k = Some p /\ row !! i = Some p /\
                (b = false -> forall q, q ∈ row -> (q <= p)%Q).
Proof.
  unfold choose_tokens. destruct b.
  - rewrite bind_run. intros Hrun k row Hrow.
    destruct (multinomial_rows_spec probs w) as (n & _ & Hids).
    destruct (multinomial_rows probs w) as [[ids'|e] w1]; [|done].
    injection Hrun as <- <- _. specialize (Hids ids' eq_refl).
    destruct (Forall2_lookup_l _ _ _ _ _ Hids Hrow) as (i & Hi & Hlt).
    destruct (lookup_lt_is_Some_2 row i Hlt) as [p Hp].
    exists i, p. split; [done|]. split; [|split; [done|done]].
    apply lookup_zip_with_Some. exists row, i.
    split; [|done]. symmetry. by apply nth_lookup_Some.
  - rewrite bind_run, lift_run. intros Hrun k row Hrow.
    destruct (rmapM top1 probs) as [r|e] eqn:Hr; [|done].
    injection Hrun as <- <- _.
    destruct (rmapM_lookup _ _ _ _ _ Hr Hrow) as ([p i] & Hy & Htop).
    apply top1_spec in Htop as [Hi Hmax].
    exists i, p.
    change (map ?f r) with (f <$> r). rewrite !list_lookup_fmap, Hy.
    by repeat split.
Qed.

Lemma tensor_index_elem row i p : tensor_index row i = Ok p -> p ∈ row.
Proof.
  unfold tensor_index.
  destruct (_ || _); [done|].
  destruct (row !! _) as [q|] eqn:Hq; [|done].
  intros [= <-]. by eapply list_elem_of_lookup_2.
Qed.

(** A paired confidence is 0 or an entry of the row of probabilities. *)
Lemma paired_confidences_inv index_mapping probs ids pcs k row i :
  paired_confidences index_mapping probs ids = Ok pcs ->
  probs !! k = Some row -> ids !! k = Some i ->
  exists pc, pcs !! k = Some pc /\ (pc = 0%Q \/ pc ∈ row).
Proof.
  intros Hpc Hrow Hi. destruct index_mapping as [d|]; cbn in Hpc.
  - assert (Hz : zip probs ids !! k = Some (row, i)).
    { apply lookup_zip_with_Some. by exists row, i. }
    destruct (rmapM_lookup _ _ _ _ _ Hpc Hz) as (pc & Hk & Hpr).
    exists pc. split; [done|]. unfold paired_confidence_row in Hpr.
    cbn [fst snd] in Hpr.
    destruct (dict_get d (Z.of_nat i)).
    { right. by eapply tensor_index_elem. }
    destruct (first_key_of d (Z.of_nat i)).
    { right. by eapply tensor_index_elem. }
    left. by injection Hpr as <-.
  - injection Hpc as <-. exists 0%Q. split; [|by left].
    change (map ?f ids) with (f <$> ids). by rewrite list_lookup_fmap, Hi.
Qed.

(** [sample] up to the draw, on a stored tensor whose batch entries end in a
    row of logits that is not empty: the scaled last rows go to a new cell,
    the filter (if any) overwrites that cell and empties no row. *)
Lemma sample_run l kw index_mapping w t :
  heap w !! l = Some (Float3 t) ->
  Forall (fun x => exists row, last x = Some row /\ row <> []) t ->
  exists lasts lg,
    Forall2 (fun x row => last x = Some row /\ row <> []) t lasts /\
    Forall2 keeps_a_largest
      (map (map (fun x => Fin (x / floor_temperature (temperature kw))%Q))
           lasts) lg /\
    sample l kw index_mapping w
    = ('(token_confidence, idx) ←
         choose_tokens (sample_logits kw) (map (softmax expw) lg);
       paired_confidence ←
         lift (paired_confidences index_mapping (map (softmax expw) lg) idx);
       mret (map (fun i => [Z.of_nat i]) idx,
             zip_with (fun tc pc => [[tc; pc]])
                      token_confidence paired_confidence))
        (set_heap (heap w ++ [Float2 lg]) w).
Proof.
  intros Hl Ht. unfold sample.
  rewrite bind_run, (read_float3_run _ _ _ Hl), bind_run, lift_run.
  destruct (rmapM_Forall2 last_elem
              (fun x row => last x = Some row /\ row <> []) t)
    as (lasts & Hlasts & HF1).
  { eapply Forall_impl; [exact Ht|]. intros x (row & Hrow & Hne).
    exists row. unfold last_elem. by rewrite Hrow. }
  rewrite Hlasts, bind_run. cbn [alloc]. rewrite bind_run.
  set (fresh := map (map (fun x => Fin (x / floor_temperature (temperature kw))))
                    lasts).
  assert (Hfresh_ne : Forall (fun row => row <> []) fresh).
  { subst fresh. apply Forall_map. apply Forall_forall. intros row Hin.
    apply list_elem_of_lookup_1 in Hin as [i Hi].
    destruct (Forall2_lookup_r _ _ _ _ _ HF1 Hi) as (x & _ & _ & Hne).
    by destruct row. }
  set (w1 := set_heap (heap w ++ [Float2 fresh]) w).
  assert (Hl1 : heap w1 !! length (heap w) = Some (Float2 fresh)).
  { subst w1. cbn. rewrite lookup_app_r by done. by rewrite Nat.sub_diag. }
  assert (Hfilter : exists lg,
    (if (0 <? top_k kw)%Z || Qltb (top_p kw) 1
     then top_k_top_p_filtering (length (heap w)) (top_k kw) (top_p kw)
            NegInf 1
     else mret (length (heap w))) w1
    = (Ok (length (heap w)), set_heap (heap w ++ [Float2 lg]) w) /\
    Forall2 keeps_a_largest fresh lg).
  { destruct ((0 <? top_k kw)%Z || Qltb (top_p kw) 1).
    - destruct (filter_stages_keep (top_k kw) (top_p kw) 1 fresh Hfresh_ne)
        as (r1 & r2 & Hr1 & Hr2 & HFr1 & HFr2).
      exists r2. split.
      + rewrite (top_k_top_p_filtering_run w1 _ fresh _ _ _ _ r1 r2 Hl1 Hr1 Hr2).
        subst w1. cbn [heap set_heap]. f_equal. unfold set_heap. cbn. f_equal.
        rewrite insert_app_r_alt by done. by rewrite Nat.sub_diag.
      + exact (Forall2_compose _ _ _ _ keeps_a_largest_trans HFr1 HFr2).
    - exists fresh. split; [done|]. apply Forall2_refl_on.
      eapply Forall_impl; [exact Hfresh_ne|]. apply keeps_a_largest_refl. }
  destruct Hfilter as (lg & -> & HF3).
  exists lasts, lg. split; [done|]. split; [done|].
  rewrite bind_run, (read_float2_run _ _ lg); [done|].
  cbn. rewrite lookup_app_r by done. by rewrite Nat.sub_diag.
Qed.

(** A run of [sample] that returned, step by step. *)
Lemma sample_inv_rows l kw index_mapping w t idx cp w' :
  heap w !! l = Some (Float3 t) ->
  Forall (fun x => exists row, last x = Some row /\ row <> []) t ->
  sample l kw index_mapping w = (Ok (idx, cp), w') ->
  exists lasts lg tc ids pcs n,
    Forall2 (fun x row => last x = Some row /\ row <> []) t lasts /\
    Forall2 keeps_a_largest
      (map (map (fun x => Fin (x / floor_temperature (temperature kw))%Q))
           lasts) lg /\
    choose_tokens (sample_logits kw) (map (softmax expw) lg)
      (set_heap (heap w ++ [Float2 lg]) w)
    = (Ok (tc, ids), set_rng n (set_heap (heap w ++ [Float2 lg]) w)) /\
    paired_confidences index_mapping (map (softmax expw) lg) ids = Ok pcs /\
    idx = map (fun i => [Z.of_nat i]) ids /\
    cp = zip_with (fun tc pc => [[tc; pc]]) tc pcs /\
    w' = set_rng n (set_heap (heap w ++ [Float2 lg]) w).
Proof.
  intros Hl Ht Hrun.
  destruct (sample_run l kw index_mapping w t Hl Ht)
    as (lasts & lg & HF1 & HF2 & Heq).
  rewrite Heq in Hrun. clear Heq.
  rewrite bind_run in Hrun.
  destruct (choose_tokens_spec (sample_logits kw) (map (softmax expw) lg)
              (set_heap (heap w ++ [Float2 lg]) w)) as [[n Hw] _].
  destruct (choose_tokens _ _ _) as [[[tc ids]|e] w2] eqn:Hchoose; [|done].
  cbn [snd] in Hw. subst w2.
  rewrite bind_run, lift_run in Hrun.
  destruct (paired_confidences _ _ _) as [pcs|e] eqn:Hpcs; [|done].
  injection Hrun as <- <- <-.
  by exists lasts, lg, tc, ids, pcs, n.
Qed.

Section Distribution.

Hypothesis expw_pos : forall q, (0 < expw q)%Q.

Lemma weights_pos_some row :
  (exists x, x ∈ row /\ is_fin x = true) ->
  (0 < Qsum (map (expn expw) row))%Q.
Proof.
  intros (x & Hin & Hfin).
  assert (Hall : Forall (fun y => (0 <= y)%Q) (map (expn expw) row)).
  { apply Forall_map, Forall_forall. intros y _. by apply expn_nonneg. }
  assert (Hx : (expn expw x <= Qsum (map (expn expw) row))%Q).
  { apply Qsum_ge_elem; [done|].
    change (map ?f row) with (f <$> row). by apply list_elem_of_fmap_2. }
  destruct x as [|q]; [done|]. simpl in Hx. specialize (expw_pos q). lra.
Qed.

(** Softmax of a row with a finite entry: every entry lies in [0, 1], the
    entries sum to 1, and the sentinel has probability 0. *)
Lemma softmax_distribution row :
  (exists x, x ∈ row /\ is_fin x = true) ->
  Forall (fun p => (0 <= p <= 1)%Q) (softmax expw row) /\
  (Qsum (softmax expw row) == 1)%Q /\
  forall i, row !! i = Some NegInf ->
    exists p, softmax expw row !! i = Some p /\ (p == 0)%Q.
Proof.
  intros Hfin. pose proof (weights_pos_some row Hfin) as Hpos.
  assert (Hall : Forall (fun y => (0 <= y)%Q) (map (expn expw) row)).
  { apply Forall_map, Forall_forall. intros y _. by apply expn_nonneg. }
  split; [|split].
  - unfold softmax. apply Forall_map. apply Forall_forall. intros y Hy.
    pose proof (Qsum_ge_elem _ _ Hall Hy) as Hle.
    rewrite Forall_forall in Hall. specialize (Hall y Hy). simpl in Hall.
    split.
    + apply Qle_shift_div_l; lra.
    + apply Qle_shift_div_r; lra.
  - unfold softmax. rewrite Qsum_map_div. field. lra.
  - intros i Hi. rewrite (softmax_lookup row i NegInf Hi).
    eexists. split; [reflexivity|]. simpl. field. lra.
Qed.

Lemma keeps_a_largest_finite row row' :
  (exists x, x ∈ row /\ is_fin x = true) ->
  keeps_a_largest row row' ->
  exists x, x ∈ row' /\ is_fin x = true.
Proof.
  intros (y & Hy & Hfin) (_ & _ & i & x & _ & Hi & Hmax).
  exists x. split; [by eapply list_elem_of_lookup_2|].
  specialize (Hmax y Hy). by destruct x, y.
Qed.

(** X5. What [sample] returns, read against the distribution [probs] it drew
    from (softmax of the logits left in the new cell): every row of [probs]
    sums to 1 with entries in [0, 1]; the first confidence of a batch entry
    is the probability of its token, the second lies in [0, 1]; and in greedy
    mode no token is more probable than the one returned. *)
Theorem sample_confidences_are_probabilities l kw index_mapping w t idx cp w' :
  heap w !! l = Some (Float3 t) ->
  Forall (fun x => exists row, last x = Some row /\ row <> []) t ->
  sample l kw index_mapping w = (Ok (idx, cp), w') ->
  exists lg,
    heap w' = heap w ++ [Float2 lg] /\
    length lg = length t /\
    forall b row, lg !! b = Some row ->
      let probs_b := softmax expw row in
      (Qsum probs_b == 1)%Q /\
      Forall (fun p => (0 <= p <= 1)%Q) probs_b /\
      exists i tc pc,
        idx !! b = Some [Z.of_nat i] /\
        cp !! b = Some [[tc; pc]] /\
        probs_b !! i = Some tc /\
        (0 <= pc <= 1)%Q /\
        (sample_logits kw = false ->
         forall q, q ∈ probs_b -> (q <= tc)%Q).
Proof.
  intros Hl Ht Hrun.
  destruct (sample_inv_rows l kw index_mapping w t idx cp w' Hl Ht Hrun)
    as (lasts & lg & tc & ids & pcs & n & HF1 & HF2 & Hchoose & Hpcs
        & -> & -> & ->).
  exists lg. split; [done|]. split.
  { apply Forall2_length in HF1, HF2. rewrite length_map in HF2. lia. }
  intros b row Hrow probs_b.
  assert (Hfin : exists x, x ∈ row /\ is_fin x = true).
  { destruct (Forall2_lookup_r _ _ _ _ _ HF2 Hrow) as (row0 & Hrow0 & Hkeep).
    eapply keeps_a_largest_finite; [|exact Hkeep].
    change (map ?f lasts) with (f <$> lasts) in Hrow0.
    rewrite list_lookup_fmap in Hrow0.
    destruct (lasts !! b) as [lr|] eqn:Hlr; [|done]. injection Hrow0 as <-.
    destruct (Forall2_lookup_r _ _ _ _ _ HF1 Hlr) as (x & _ & _ & Hne).
    destruct lr as [|q lr]; [done|]. eexists. split; [by left|done]. }
  destruct (softmax_distribution row Hfin) as (Hall & Hsum & _).
  split; [done|]. split; [done|].
  assert (Hprobs : map (softmax expw) lg !! b = Some probs_b).
  { change (map ?f lg) with (f <$> lg). by rewrite list_lookup_fmap, Hrow. }
  destruct (choose_tokens_inv _ _ _ _ _ _ Hchoose b probs_b Hprobs)
    as (i & p & Hi & Hp & Hpi & Hmax).
  destruct (paired_confidences_inv _ _ _ _ b probs_b i Hpcs Hprobs Hi)
    as (pc & Hpc & Hcase).
  exists i, p, pc.
  split. { change (map ?f ids) with (f <$> ids).
           by rewrite list_lookup_fmap, Hi. }
  split. { apply lookup_zip_with_Some. by exists p, pc. }
  split; [done|]. split; [|done].
  destruct Hcase as [->|Hin]; [lra|].
  rewrite Forall_forall in Hall. by apply Hall.
Qed.

(** X6. [logits_to_probs] on rows that have a finite entry: it returns, the rows
    it returns are the softmax of the rows [lg] it leaves in a new cell, the
    caller's tensor is not written; every row of [lg] is the scaled row with
    some entries replaced by the sentinel, its probabilities lie in [0, 1]
    and sum to 1, and the sentinel gets probability 0. *)
Theorem logits_to_probs_returns_distributions l temperature top_p k w t :
  heap w !! l = Some (Float2 t) ->
  Forall (fun row => exists x, x ∈ row /\ is_fin x = true) t ->
  exists lg,
    logits_to_probs l temperature top_p (Some k) w
    = (Ok (map (softmax expw) lg), set_heap (heap w ++ [Float2 lg]) w) /\
    Forall2 (fun row row' =>
      length row' = length row /\
      (forall i x', row' !! i = Some x' ->
         x' = NegInf \/
         exists x, row !! i = Some x /\
                   x' = num_div x (floor_temperature temperature)) /\
      (Qsum (softmax expw row') == 1)%Q /\
      Forall (fun p => (0 <= p <= 1)%Q) (softmax expw row') /\
      forall i, row' !! i = Some NegInf ->
        exists p, softmax expw row' !! i = Some p /\ (p == 0)%Q)
      t lg.
Proof.
  intros Hl Ht. unfold logits_to_probs.
  rewrite bind_run, (read_float2_run _ _ _ Hl), bind_run.
  cbn [alloc]. rewrite bind_run. cbn [mret M_ret]. rewrite bind_run.
  set (scale := fun x => num_div x (floor_temperature temperature)).
  set (fresh := map (map scale) t).
  assert (Hscaled : Forall2 (fun row row1 => row1 = map scale row) t fresh).
  { subst fresh. apply Forall2_same_length_lookup_2; [by rewrite length_map|].
    intros i row row1 Hrow Hrow1.
    change (map ?f t) with (f <$> t) in Hrow1.
    rewrite list_lookup_fmap, Hrow in Hrow1. by injection Hrow1 as <-. }
  assert (Hfresh_fin :
    Forall (fun row => exists x, x ∈ row /\ is_fin x = true) fresh).
  { subst fresh. apply Forall_map.
    eapply Forall_impl; [exact Ht|]. intros row (x & Hin & Hfin).
    exists (scale x). split.
    - change (map ?f row) with (f <$> row). by apply list_elem_of_fmap_2.
    - by destruct x. }
  assert (Hfresh_ne : Forall (fun row => row <> []) fresh).
  { eapply Forall_impl; [exact Hfresh_fin|].
    intros row (x & Hin & _) ->. by apply elem_of_nil in Hin. }
  set (w1 := set_heap (heap w ++ [Float2 fresh]) w).
  assert (Hl1 : heap w1 !! length (heap w) = Some (Float2 fresh)).
  { subst w1. cbn. rewrite lookup_app_r by done. by rewrite Nat.sub_diag. }
  assert (Hfilter : exists lg,
    (if (0 <? k)%Z || Qltb top_p 1
     then top_k_top_p_filtering (length (heap w)) k top_p NegInf 1
     else mret (length (heap w))) w1
    = (Ok (length (heap w)), set_heap (heap w ++ [Float2 lg]) w) /\
    Forall2 keeps_a_largest fresh lg).
  { destruct ((0 <? k)%Z || Qltb top_p 1).
    - destruct (filter_stages_keep k top_p 1 fresh Hfresh_ne)
        as (r1 & r2 & Hr1 & Hr2 & HFr1 & HFr2).
      exists r2. split.
      + rewrite (top_k_top_p_filtering_run w1 _ fresh _ _ _ _ r1 r2 Hl1 Hr1 Hr2).
        subst w1. cbn [heap set_heap]. f_equal. unfold set_heap. cbn. f_equal.
        rewrite insert_app_r_alt by done. by rewrite Nat.sub_diag.
      + exact (Forall2_compose _ _ _ _ keeps_a_largest_trans HFr1 HFr2).
    - exists fresh. split; [done|]. apply Forall2_refl_on.
      eapply Forall_impl; [exact Hfresh_ne|]. apply keeps_a_largest_refl. }
  destruct Hfilter as (lg & -> & HF).
  exists lg. split.
  { rewrite bind_run, (read_float2_run _ _ lg); [done|].
    cbn. rewrite lookup_app_r by done. by rewrite Nat.sub_diag. }
  apply Forall2_same_length_lookup_2.
  { apply Forall2_length in Hscaled, HF. lia. }
  intros b row row' Hrow Hrow'.
  destruct (Forall2_lookup_l _ _ _ _ _ Hscaled Hrow) as (row1 & Hrow1 & ->).
  destruct (Forall2_lookup_l _ _ _ _ _ HF Hrow1) as (row2 & Hrow2 & Hkeep).
  rewrite Hrow' in Hrow2. injection Hrow2 as <-.
  assert (Hfin : exists x, x ∈ row' /\ is_fin x = true).
  { eapply keeps_a_largest_finite; [|exact Hkeep].
    rewrite Forall_forall in Hfresh_fin. apply Hfresh_fin.
    by eapply list_elem_of_lookup_2. }
  destruct (softmax_distribution row' Hfin) as (Hall & Hsum & Hzero).
  destruct Hkeep as (Hlen & Hentries & _).
  split; [by rewrite Hlen, length_map|].
  split; [|done].
  intros i x' Hx'. destruct (Hentries i x' Hx') as [->|Hi]; [by left|].
  right. change (map ?f row) with (f <$> row) in Hi.
  rewrite list_lookup_fmap in Hi.
  destruct (row !! i) as [x|]; [|done]. injection Hi as <-. by exists x.
Qed.

End Distribution.

(** X7. [logits_to_probs] works on a scaled copy: whatever its outcome, the cells
    of the store that existed before the call, the tensor it was given among
    them, are as they were, and so are the trace and the model.  Called
    without [top_k] on a float tensor it raises [TypeError]. *)
Theorem logits_to_probs_leaves_its_argument l temperature top_p top_k w :
  let out := logits_to_probs l temperature top_p top_k w in
  (exists fresh, heap (snd out) = heap w ++ fresh) /\
  trace (snd out) = trace w /\ model (snd out) = model w /\
  (top_k = None ->
   forall t, heap w !! l = Some (Float2 t) -> fst out = Raise TypeError).
Proof.
  cbn zeta. unfold logits_to_probs. rewrite bind_run.
  pose proof (read_float2_world w l) as Hread.
  destruct (read_float2 l w) as [[t|e] w0] eqn:Hrd; cbn [snd] in Hread; subst w0.
  2:{ cbn [fst snd]. split; [exists []; by rewrite app_nil_r|].
      split; [done|]. split; [done|].
      intros _ t Ht. by rewrite (read_float2_run _ _ _ Ht) in Hrd. }
  rewrite bind_run. cbn [alloc]. rewrite bind_run.
  destruct top_k as [k|].
  2:{ cbn. split; [by eexists|]. done. }
  cbn [mret M_ret]. rewrite bind_run.
  match goal with
  | |- context [(if _ then _ else _) ?w1] =>
      destruct ((if (0 <? k)%Z || Qltb top_p 1
                 then top_k_top_p_filtering (length (heap w)) k top_p NegInf 1
                 else mret (length (heap w))) w1) as [r w2] eqn:Hf
  end.
  pose proof (sample_filter_fresh
                {| temperature := temperature; top_k := k; top_p := top_p;
                   sample_logits := true |} (heap w) _ w r w2 Hf)
    as ((y & Hy) & Htr & Hm & _ & Hloc).
  destruct r as [l2|e].
  2:{ cbn. split; [by eexists|]. done. }
  rewrite bind_run. pose proof (read_float2_world w2 l2) as Hread2.
  destruct (read_float2 l2 w2) as [[lg|e] w3]; cbn [snd] in Hread2; subst w3;
    cbn; (split; [by eexists|done]).
Qed.

(** ** The embedding mask *)

Lemma rmapM_map_Forall {A B} (f : A -> result B) (g : A -> B) l :
  Forall (fun x => f x = Ok (g x)) l -> rmapM f l = Ok (map g l).
Proof. induction 1 as [|x l Hx _ IH]; simpl; [done|]. by rewrite Hx, IH. Qed.

(** Without a dimension to repeat, broadcasting is the pointwise operation. *)
Lemma bcast_zip_same_length {A B C} (f : A -> B -> result C) a b :
  length a = length b ->
  bcast_zip f a b = rmapM (fun p => f (fst p) (snd p)) (zip a b).
Proof.
  intros Hlen. unfold bcast_zip.
  destruct a as [|x [|x' a]], b as [|y [|y' b]]; simpl in *; try done.
  apply Nat.succ_inj, Nat.succ_inj in Hlen. apply Nat.eqb_eq in Hlen.
  by rewrite Hlen.
Qed.

(** The product that goes into the first [T] columns, for a mask of the
    shape of [emb_masks] along the batch and rows at least [T] long. *)
Lemma mask_columns_lookup cm T e :
  length cm = length e ->
  Forall (fun eb => length eb = T) e ->
  Forall (Forall (fun row => (T <= length row)%nat)) cm ->
  exists cm1,
    mask_columns cm T e = Ok cm1 /\
    forall b mat i row j v eb,
      cm !! b = Some mat -> mat !! i = Some row -> row !! j = Some v ->
      e !! b = Some eb ->
      exists mat1 row1,
        cm1 !! b = Some mat1 /\ mat1 !! i = Some row1 /\
        row1 !! j
        = Some (match eb !! j with Some m => (v * m)%Z | None => v end).
Proof.
  intros Hlen He Hcm. unfold mask_columns.
  set (sliced := map (map (take T)) cm).
  set (g := fun p : list (list Z) * list Z =>
              map (fun row => map (fun q : Z * Z => (fst q * snd q)%Z)
                                  (zip row (snd p))) (fst p)).
  assert (Hprod :
    bcast_zip (fun mb eb =>
                 rmapM (fun row => bcast_zip (fun a b => Ok (a * b)%Z) row eb)
                       mb) sliced e
    = Ok (map g (zip sliced e))).
  { rewrite bcast_zip_same_length by (subst sliced; by rewrite length_map).
    apply rmapM_map_Forall. apply Forall_forall. intros [mb eb] Hin.
    apply list_elem_of_lookup_1 in Hin as [b Hb].
    apply lookup_zip_with_Some in Hb as (mb' & eb' & [= <- <-] & Hmb & Heb).
    cbn [fst snd]. subst g. cbn [fst snd].
    apply rmapM_map_Forall. apply Forall_forall. intros row Hrow.
    subst sliced. change (map ?f cm) with (f <$> cm) in Hmb.
    rewrite list_lookup_fmap in Hmb.
    destruct (cm !! b) as [mat|] eqn:Hmat; [|done]. injection Hmb as <-.
    change (map ?f mat) with (f <$> mat) in Hrow.
    apply list_elem_of_fmap in Hrow as (row0 & -> & Hrow0).
    rewrite Forall_forall in He. rewrite Forall_forall in Hcm.
    specialize (He eb (list_elem_of_lookup_2 _ _ _ Heb)).
    specialize (Hcm mat (list_elem_of_lookup_2 _ _ _ Hmat)).
    rewrite Forall_forall in Hcm. specialize (Hcm row0 Hrow0). cbn beta in Hcm.
    rewrite bcast_zip_same_length by (rewrite length_take; lia).
    by apply rmapM_map_Forall, Forall_forall. }
  rewrite Hprod. cbn [rbind].
  assert (Hshape : shape3 (map g (zip sliced e)) = shape3 sliced).
  { subst sliced. destruct cm as [|mat cm'], e as [|eb e']; try done.
    cbn [map zip zip_with]. unfold shape3. cbn [hd length].
    f_equal.
    { f_equal. rewrite !length_map, length_zip_with, length_map.
      simpl in Hlen. lia. }
    subst g. cbn [fst snd]. rewrite !length_map. f_equal.
    destruct mat as [|row mat']; [done|]. cbn [map hd].
    rewrite length_map, length_zip_with, length_take.
    apply Forall_cons in He as [He _].
    apply Forall_cons in Hcm as [Hcm _]. apply Forall_cons in Hcm as [Hcm _].
    f_equal. lia. }
  rewrite Hshape, bool_decide_eq_true_2 by done.
  eexists. split; [reflexivity|].
  intros b mat i row j v eb Hmat Hrow Hv Heb.
  rewrite Forall_forall in He. rewrite Forall_forall in Hcm.
  specialize (He eb (list_elem_of_lookup_2 _ _ _ Heb)).
  specialize (Hcm mat (list_elem_of_lookup_2 _ _ _ Hmat)).
  rewrite Forall_forall in Hcm.
  specialize (Hcm row (list_elem_of_lookup_2 _ _ _ Hrow)). cbn beta in Hcm.
  assert (Hsl : sliced !! b = Some (map (take T) mat)).
  { subst sliced. change (map ?f cm) with (f <$> cm).
    by rewrite list_lookup_fmap, Hmat. }
  assert (Hz : zip sliced e !! b = Some (map (take T) mat, eb)).
  { apply lookup_zip_with_Some. by eexists _, _. }
  eexists _, _. split.
  { apply lookup_zip_with_Some. eexists _, _. split; [reflexivity|].
    split; [exact Hmat|].
    change (map g ?l) with (g <$> l). by rewrite list_lookup_fmap, Hz. }
  split.
  { apply lookup_zip_with_Some. eexists _, _. split; [reflexivity|].
    split; [exact Hrow|]. subst g. cbn [fst snd].
    rewrite map_map. change (map ?f mat) with (f <$> mat).
    by rewrite list_lookup_fmap, Hrow. }
  assert (Hlenp : length (map (fun q : Z * Z => (fst q * snd q)%Z)
                              (zip (take T row) eb)) = T).
  { rewrite length_map, length_zip_with, length_take. lia. }
  destruct (eb !! j) as [m|] eqn:Hm.
  - assert (j < T)%nat by (apply lookup_lt_Some in Hm; lia).
    rewrite lookup_app_l by lia.
    change (map ?f ?l) with (f <$> l). rewrite list_lookup_fmap.
    assert (Hzj : zip (take T row) eb !! j = Some (v, m)).
    { apply lookup_zip_with_Some. eexists _, _. split; [reflexivity|].
      split; [|done]. by rewrite lookup_take_lt. }
    by rewrite Hzj.
  - assert (T <= j)%nat by (apply lookup_ge_None in Hm; lia).
    rewrite lookup_app_r by lia. rewrite Hlenp, lookup_drop.
    by replace (T + (j - T))%nat with j by lia.
Qed.

(** X11. The block under [if emb_masks is not None], for an [emb_masks] of shape
    (max_batch_size, T) and a causal mask with one matrix per (doubled, under
    guidance) batch row: the block completes; store and trace are untouched;
    the entry [b, i, j] of the new mask is 1 on the diagonal, the old entry
    times [emb_masks[b, j]] in the first [T] columns ([emb_masks] used twice
    over under guidance), and the old entry elsewhere. *)
Theorem emb_masks_scale_conditioning_columns emb_masks max_batch_size T
    cfg_scale w :
  emb_masks <> [] ->
  length emb_masks = max_batch_size ->
  Forall (fun eb => length eb = T) emb_masks ->
  let doubled :=
    if Qltb 1 cfg_scale then emb_masks ++ emb_masks else emb_masks in
  length (causal_mask (model w)) = length doubled ->
  Forall (Forall (fun row => (T <= length row)%nat)) (causal_mask (model w)) ->
  exists w',
    adjust_causal_mask emb_masks max_batch_size T cfg_scale w = (Ok tt, w') /\
    heap w' = heap w /\ trace w' = trace w /\
    cache (model w') = cache (model w) /\
    forall b mat i row j v eb,
      causal_mask (model w) !! b = Some mat -> mat !! i = Some row ->
      row !! j = Some v -> doubled !! b = Some eb ->
      exists mat' row',
        causal_mask (model w') !! b = Some mat' /\ mat' !! i = Some row' /\
        row' !! j
        = Some (if (i =? j)%nat then 1%Z
                else match eb !! j with Some m => (v * m)%Z | None => v end).
Proof.
  intros Hne Hb He doubled Hlen Hcm.
  assert (He2 : Forall (fun eb => length eb = T) doubled).
  { subst doubled. destruct (Qltb 1 cfg_scale); [|done].
    by apply Forall_app. }
  destruct (mask_columns_lookup (causal_mask (model w)) T doubled Hlen He2 Hcm)
    as (cm1 & Hcm1 & Hlook).
  unfold adjust_causal_mask. rewrite bind_run.
  replace (length emb_masks =? max_batch_size)%nat with true
    by (symmetry; by apply Nat.eqb_eq).
  cbn [mret M_ret]. rewrite bind_run.
  replace (length (hd [] emb_masks) =? T)%nat with true.
  2:{ symmetry. apply Nat.eqb_eq. destruct emb_masks as [|eb rest]; [done|].
      by apply Forall_cons in He as [He _]. }
  cbn [mret M_ret]. rewrite bind_run. cbn [get_model].
  rewrite bind_run, lift_run. fold doubled. rewrite Hcm1.
  rewrite bind_run. unfold set_causal_mask. rewrite bind_run.
  cbn [get_model set_model model causal_mask]. rewrite !bind_run.
  cbn [get_model set_model model causal_mask].
  eexists. split; [reflexivity|]. cbn [heap trace model cache causal_mask].
  split; [done|]. split; [done|]. split; [done|].
  intros b mat i row j v eb Hmat Hrow Hv Heb.
  destruct (Hlook b mat i row j v eb Hmat Hrow Hv Heb)
    as (mat1 & row1 & Hmat1 & Hrow1 & Hv1).
  eexists _, _. split; [by apply force_diagonal_lookup|].
  rewrite list_lookup_imap, Hrow1. split; [done|].
  rewrite list_lookup_imap, Hv1. cbn. unfold eye.
  destruct (i =? j)%nat; f_equal; lia.
Qed.

(** ** The step functions, run *)

Lemma prefill_plain cond_idx input_pos cfg_scale index_mapping kw w logits m' :
  (cfg_scale <= 1)%Q ->
  forward (model w) None (Some cond_idx) input_pos = (logits, m') ->
  prefill cond_idx input_pos cfg_scale index_mapping kw w
  = sample (length (heap w)) kw index_mapping
      (after_forward w None (Some cond_idx) input_pos m' [Float3 logits] []).
Proof.
  intros Hscale Hf. apply Qltb_ge in Hscale. unfold prefill.
  by rewrite bind_run, Hscale, (call_model_run _ _ _ _ _ _ Hf).
Qed.

Lemma prefill_guided cond_idx input_pos cfg_scale index_mapping kw w logits m'
    h :
  (1 < cfg_scale)%Q ->
  forward (model w) None (Some cond_idx) input_pos = (logits, m') ->
  length logits = (2 * h)%nat -> (1 <= h)%nat ->
  prefill cond_idx input_pos cfg_scale index_mapping kw w
  = sample (S (length (heap w))) kw index_mapping
      (after_forward w None (Some cond_idx) input_pos m'
         [Float3 logits; Float3 (guided_logits cfg_scale true h logits)] []).
Proof.
  intros Hscale Hf Hlen Hh. apply Qltb_lt in Hscale. unfold prefill.
  rewrite bind_run, Hscale, bind_run, (call_model_run _ _ _ _ _ _ Hf).
  rewrite bind_run, (read_float3_run _ _ logits)
    by apply after_forward_lookup_logits.
  replace (2 <=? length logits)%nat with true
    by (symmetry; apply Nat.leb_le; lia).
  rewrite bind_run, lift_run, (torch_split_even logits h Hlen Hh).
  cbn [unpack2 alloc guided_logits]. do 2 f_equal.
  + cbn. rewrite length_app. simpl. lia.
  + unfold after_forward, set_heap. cbn. by rewrite <- app_assoc.
Qed.

Lemma decode_one_token_plain x p cfg_scale cfg_flag index_mapping kw w logits
    m' :
  (cfg_scale <= 1)%Q ->
  forward (model w) (Some x) None [p] = (logits, m') ->
  decode_one_token x [p] cfg_scale cfg_flag index_mapping kw w
  = sample (length (heap w)) kw index_mapping
      (after_forward w (Some x) None [p] m' [Float3 logits] []).
Proof.
  intros Hscale Hf. apply Qltb_ge in Hscale. unfold decode_one_token.
  rewrite bind_run. cbn [length Nat.eqb mret M_ret].
  by rewrite bind_run, Hscale, (call_model_run _ _ _ _ _ _ Hf).
Qed.

Lemma decode_one_token_guided x p cfg_scale cfg_flag index_mapping kw w logits
    m' h :
  (1 < cfg_scale)%Q ->
  forward (model w) (Some (x ++ x)) None [p] = (logits, m') ->
  length logits = (2 * h)%nat -> (1 <= h)%nat ->
  decode_one_token x [p] cfg_scale cfg_flag index_mapping kw w
  = sample (S (length (heap w))) kw index_mapping
      (after_forward w (Some (x ++ x)) None [p] m'
         [Float3 logits; Float3 (guided_logits cfg_scale cfg_flag h logits)]
         []).
Proof.
  intros Hscale Hf Hlen Hh. apply Qltb_lt in Hscale. unfold decode_one_token.
  rewrite bind_run. cbn [length Nat.eqb mret M_ret].
  rewrite bind_run, Hscale, bind_run, (call_model_run _ _ _ _ _ _ Hf).
  rewrite bind_run, (read_float3_run _ _ logits)
    by apply after_forward_lookup_logits.
  replace (2 <=? length logits)%nat with true
    by (symmetry; apply Nat.leb_le; lia).
  rewrite bind_run, lift_run, (torch_split_even logits h Hlen Hh).
  cbn [unpack2 guided_logits].
  destruct cfg_flag; cbn [alloc]; do 2 f_equal.
  all: try (cbn; rewrite length_app; simpl; lia).
  all: unfold after_forward, set_heap; cbn; by rewrite <- app_assoc.
Qed.

(** The guided logits have the shape of one half of the batch. *)
Lemma guided_logits_shape vocab cfg_scale cfg_flag h logits :
  well_shaped vocab (2 * h) logits ->
  well_shaped vocab h (guided_logits cfg_scale cfg_flag h logits).
Proof.
  intros [Hlen Hall].
  assert (Htake : Forall (fun x => x <> [] /\
                            Forall (fun row => length row = vocab) x)
                         (take h logits)) by (by apply Forall_take).
  assert (Hdrop : Forall (fun x => x <> [] /\
                            Forall (fun row => length row = vocab) x)
                         (drop h logits)) by (by apply Forall_drop).
  unfold guided_logits. destruct cfg_flag.
  2:{ split; [rewrite length_take; lia|done]. }
  unfold cfg_mix. split.
  { rewrite length_zip_with, length_take, length_drop. lia. }
  apply Forall_forall. intros x Hin.
  apply list_elem_of_lookup_1 in Hin as [b Hb].
  apply lookup_zip_with_Some in Hb as (xc & xu & -> & Hxc & Hxu).
  rewrite Forall_forall in Htake. rewrite Forall_forall in Hdrop.
  destruct (Htake xc (list_elem_of_lookup_2 _ _ _ Hxc)) as [Hnc Hrc].
  destruct (Hdrop xu (list_elem_of_lookup_2 _ _ _ Hxu)) as [Hnu Hru].
  split; [by destruct xc, xu|].
  apply Forall_forall. intros row Hin.
  apply list_elem_of_lookup_1 in Hin as [i Hi].
  apply lookup_zip_with_Some in Hi as (rc & ru & -> & Hrc' & Hru').
  rewrite Forall_forall in Hrc. rewrite Forall_forall in Hru.
  specialize (Hrc rc (list_elem_of_lookup_2 _ _ _ Hrc')).
  specialize (Hru ru (list_elem_of_lookup_2 _ _ _ Hru')).
  cbn beta in *. rewrite length_zip_with. lia.
Qed.

(** [next_token.view(-1, 1)] of a tensor of shape (batch, 1). *)
Lemma view_token_column ids :
  map (fun t => [t]) (concat (token_column ids)) = token_column ids.
Proof.
  unfold token_column. induction ids as [|i ids IH]; [done|].
  cbn. f_equal. exact IH.
Qed.

(** ** Runs with a predictor that keeps its side of the interface *)

Section Contract.

(** The size of the vocabulary, and the options of the run. *)
Variable vocab : nat.
Variable kw : sampling_kwargs.
Variable index_mapping : option index_map.

Hypothesis vocab_pos : (0 < vocab)%nat.
(** The predictor returns logits of shape (batch, positions >= 1, vocab) for
    the batch it is fed. *)
Hypothesis forward_cond : forall m c pos,
  well_shaped vocab (cond_shape0 c) (fst (forward m None (Some c) pos)).
Hypothesis forward_tokens : forall m x pos,
  well_shaped vocab (length x) (fst (forward m (Some x) None pos)).
(** [torch.multinomial] draws an index of the row. *)
Hypothesis draws_in_range :
  sample_logits kw = true ->
  forall n row, row <> [] -> (multinomial_draw n row < length row)%nat.
(** The keys and values of [index_mapping] are token ids. *)
Hypothesis mapping_in_range : forall d k v,
  index_mapping = Some d -> In (k, v) d ->
  valid_index vocab k /\ valid_index vocab v.

Lemma sample_step l w t :
  heap w !! l = Some (Float3 t) ->
  Forall (fun x => x <> [] /\ Forall (fun row => length row = vocab) x) t ->
  exists ids cp w',
    sample l kw index_mapping w = (Ok (token_column ids, cp), w') /\
    length ids = length t /\ Forall (fun i => (i < vocab)%nat) ids /\
    length cp = length t /\ Forall (fun c => exists a b, c = [[a; b]]) cp /\
    trace w' = trace w /\ model w' = model w /\
    exists fresh, heap w' = heap w ++ fresh.
Proof.
  intros Hl Ht.
  assert (Hlast : forall x, x ∈ t ->
            exists row, last x = Some row /\ row <> [] /\ length row = vocab).
  { intros x Hx. rewrite Forall_forall in Ht. destruct (Ht x Hx) as [Hne Hrows].
    destruct (last x) as [row|] eqn:Hrow.
    - exists row. rewrite Forall_forall in Hrows.
      specialize (Hrows row (last_Some_elem_of _ _ Hrow)). cbn beta in Hrows.
      split; [done|]. split; [|done]. intros ->. simpl in Hrows. lia.
    - by apply last_None in Hrow. }
  assert (Ht' : Forall (fun x => exists row, last x = Some row /\ row <> []) t).
  { apply Forall_forall. intros x Hx.
    destruct (Hlast x Hx) as (row & ? & ? & _). by exists row. }
  destruct (sample_returns l kw index_mapping w t Hl Ht' draws_in_range)
    as (idx & cp & w' & Hrun & Hidx & Hcp & _ & Hshape).
  { intros d x row k v Hd Hx Hrow Hkv.
    destruct (Hlast x Hx) as (row' & Hrow' & _ & Hlen).
    rewrite Hrow in Hrow'. injection Hrow' as <-. rewrite Hlen.
    by eapply mapping_in_range. }
  destruct (sample_inv_rows l kw index_mapping w t idx cp w' Hl Ht' Hrun)
    as (lasts & lg & tc & ids & pcs & n & HF1 & HF2 & Hchoose & Hpcs
        & Eidx & Ecp & Ew).
  exists ids, cp, w'. subst idx. split; [exact Hrun|].
  rewrite length_map in Hidx. split; [done|]. split.
  { apply Forall_lookup. intros k i Hi.
    assert (Hk : (k < length lg)%nat).
    { apply lookup_lt_Some in Hi. apply Forall2_length in HF1, HF2.
      rewrite length_map in HF2. lia. }
    destruct (lookup_lt_is_Some_2 lg k Hk) as [row Hrow].
    assert (Hprobs : map (softmax expw) lg !! k = Some (softmax expw row)).
    { change (map ?f lg) with (f <$> lg). by rewrite list_lookup_fmap, Hrow. }
    destruct (choose_tokens_inv _ _ _ _ _ _ Hchoose k _ Hprobs)
      as (i' & p & Hi' & _ & Hp & _).
    rewrite Hi in Hi'. injection Hi' as <-.
    apply lookup_lt_Some in Hp. rewrite softmax_length in Hp.
    destruct (Forall2_lookup_r _ _ _ _ _ HF2 Hrow) as (row0 & Hrow0 & Hkeep).
    destruct Hkeep as [Hlen0 _].
    change (map ?f lasts) with (f <$> lasts) in Hrow0.
    rewrite list_lookup_fmap in Hrow0.
    destruct (lasts !! k) as [lr|] eqn:Hlr; [|done]. injection Hrow0 as <-.
    rewrite length_map in Hlen0.
    destruct (Forall2_lookup_r _ _ _ _ _ HF1 Hlr) as (x & Hx & Hlx & _).
    destruct (Hlast x (list_elem_of_lookup_2 _ _ _ Hx)) as (lr' & Hlr' & _ & Hv).
    rewrite Hlx in Hlr'. injection Hlr' as <-. lia. }
  split; [done|]. split; [done|].
  subst w'. cbn. split; [done|]. split; [done|]. by eexists.
Qed.

Lemma prefill_step cond_idx input_pos cfg_scale w :
  (1 <= cond_shape0 cond_idx)%nat ->
  ((1 < cfg_scale)%Q -> exists h, cond_shape0 cond_idx = (2 * h)%nat) ->
  exists ids cp w',
    prefill cond_idx input_pos cfg_scale index_mapping kw w
    = (Ok (token_column ids, cp), w') /\
    length ids
    = (if Qltb 1 cfg_scale then cond_shape0 cond_idx / 2
       else cond_shape0 cond_idx)%nat /\
    Forall (fun i => (i < vocab)%nat) ids /\
    length cp = length ids /\
    Forall (fun c => exists a b, c = [[a; b]]) cp /\
    trace w' = trace w ++ [CalledForward None (Some cond_idx) input_pos] /\
    exists fresh, heap w' = heap w ++ fresh.
Proof.
  intros Hb Heven.
  destruct (forward (model w) None (Some cond_idx) input_pos) as [lg m'] eqn:Hf.
  pose proof (forward_cond (model w) cond_idx input_pos) as Hshape.
  rewrite Hf in Hshape. cbn [fst] in Hshape.
  destruct (Qltb 1 cfg_scale) eqn:Hscale.
  - apply Qltb_lt in Hscale. destruct (Heven Hscale) as [h Hh].
    assert (1 <= h)%nat by lia. rewrite Hh in Hshape.
    rewrite (prefill_guided _ _ _ _ _ _ _ _ h Hscale Hf) by (destruct Hshape; lia).
    destruct (guided_logits_shape vocab cfg_scale true h lg Hshape)
      as [Hlen Hall].
    destruct (sample_step (S (length (heap w)))
                (after_forward w None (Some cond_idx) input_pos m'
                   [Float3 lg; Float3 (guided_logits cfg_scale true h lg)] [])
                (guided_logits cfg_scale true h lg) ltac:(cbn; rewrite lookup_app_r by lia;
                        by replace (S (length (heap w)) - length (heap w))%nat
                             with 1%nat by lia) Hall)
      as (ids & cp & w' & Hrun & Hids & Hrange & Hcp & Hpairs & Htr & _ & fresh
          & Hheap).
    exists ids, cp, w'. split; [done|].
    split. { rewrite Hids, Hlen, Hh, Nat.mul_comm. by rewrite Nat.div_mul. }
    split; [done|]. split; [lia|]. split; [done|].
    split. { rewrite Htr. cbn. by rewrite app_nil_r. }
    rewrite Hheap. cbn. rewrite <- app_assoc. by eexists.
  - apply Qltb_ge in Hscale.
    rewrite (prefill_plain _ _ _ _ _ _ _ _ Hscale Hf).
    destruct Hshape as [Hlen Hall].
    destruct (sample_step (length (heap w))
                (after_forward w None (Some cond_idx) input_pos m'
                   [Float3 lg] [])
                lg ltac:(apply after_forward_lookup_logits) Hall)
      as (ids & cp & w' & Hrun & Hids & Hrange & Hcp & Hpairs & Htr & _ & fresh
          & Hheap).
    exists ids, cp, w'. split; [done|]. split; [lia|].
    split; [done|]. split; [lia|]. split; [done|].
    split. { rewrite Htr. cbn. by rewrite app_nil_r. }
    rewrite Hheap. cbn. rewrite <- app_assoc. by eexists.
Qed.

Lemma decode_step x p cfg_scale cfg_flag w :
  x <> [] ->
  exists ids cp w',
    decode_one_token x [p] cfg_scale cfg_flag index_mapping kw w
    = (Ok (token_column ids, cp), w') /\
    length ids = length x /\
    Forall (fun i => (i < vocab)%nat) ids /\
    length cp = length x /\
    Forall (fun c => exists a b, c = [[a; b]]) cp /\
    trace w' = trace w ++ [CalledForward (Some (fed_tokens cfg_scale x)) None [p]] /\
    exists fresh, heap w' = heap w ++ fresh.
Proof.
  intros Hx. assert (1 <= length x)%nat by (destruct x; [done|simpl; lia]).
  unfold fed_tokens.
  destruct (Qltb 1 cfg_scale) eqn:Hscale.
  - apply Qltb_lt in Hscale.
    destruct (forward (model w) (Some (x ++ x)) None [p]) as [lg m'] eqn:Hf.
    pose proof (forward_tokens (model w) (x ++ x) [p]) as Hshape.
    rewrite Hf in Hshape. cbn [fst] in Hshape.
    replace (length (x ++ x)) with (2 * length x)%nat in Hshape
      by (rewrite length_app; lia).
    rewrite (decode_one_token_guided _ _ _ _ _ _ _ _ _ (length x) Hscale Hf)
      by (destruct Hshape; lia).
    destruct (guided_logits_shape vocab cfg_scale cfg_flag _ lg Hshape)
      as [Hlen Hall].
    destruct (sample_step (S (length (heap w)))
                (after_forward w (Some (x ++ x)) None [p] m'
                   [Float3 lg;
                    Float3 (guided_logits cfg_scale cfg_flag (length x) lg)] [])
                (guided_logits cfg_scale cfg_flag (length x) lg) ltac:(cbn; rewrite lookup_app_r by lia;
                        by replace (S (length (heap w)) - length (heap w))%nat
                             with 1%nat by lia) Hall)
      as (ids & cp & w' & Hrun & Hids & Hrange & Hcp & Hpairs & Htr & _ & fresh
          & Hheap).
    exists ids, cp, w'. split; [done|]. split; [lia|].
    split; [done|]. split; [lia|]. split; [done|].
    split. { rewrite Htr. cbn. by rewrite app_nil_r. }
    rewrite Hheap. cbn. rewrite <- app_assoc. by eexists.
  - apply Qltb_ge in Hscale.
    destruct (forward (model w) (Some x) None [p]) as [lg m'] eqn:Hf.
    pose proof (forward_tokens (model w) x [p]) as Hshape.
    rewrite Hf in Hshape. cbn [fst] in Hshape.
    rewrite (decode_one_token_plain _ _ _ _ _ _ _ _ _ Hscale Hf).
    destruct Hshape as [Hlen Hall].
    destruct (sample_step (length (heap w))
                (after_forward w (Some x) None [p] m' [Float3 lg] [])
                lg ltac:(apply after_forward_lookup_logits) Hall)
      as (ids & cp & w' & Hrun & Hids & Hrange & Hcp & Hpairs & Htr & _ & fresh
          & Hheap).
    exists ids, cp, w'. split; [done|]. split; [lia|].
    split; [done|]. split; [lia|]. split; [done|].
    split. { rewrite Htr. cbn. by rewrite app_nil_r. }
    rewrite Hheap. cbn. rewrite <- app_assoc. by eexists.
Qed.

Lemma decode_loop_total n : forall i cfg_flag cur p acc_t acc_c cfg_scale
    cfg_interval w,
  cur <> [] ->
  exists idss confs w',
    decode_loop n i cfg_flag cur [p] acc_t acc_c cfg_scale cfg_interval
                index_mapping kw w
    = (Ok (acc_t ++ map token_column idss, acc_c ++ confs), w') /\
    length idss = n /\ length confs = n /\
    Forall (fun ids => length ids = length cur /\
                       Forall (fun i => (i < vocab)%nat) ids) idss /\
    Forall (fun cp => length cp = length cur /\
                      Forall (fun c => exists a b, c = [[a; b]]) cp) confs /\
    trace w' = trace w ++ decode_calls cfg_scale cur p (map token_column idss) /\
    exists fresh, heap w' = heap w ++ fresh.
Proof.
  induction n as [|n IH]; intros i cfg_flag cur p acc_t acc_c cfg_scale
    cfg_interval w Hcur.
  - exists [], [], w. cbn. rewrite !app_nil_r.
    repeat split; try done. exists []. by rewrite app_nil_r.
  - cbn [decode_loop]. rewrite bind_run.
    set (flag := if (-1 <? cfg_interval)%Z && (cfg_interval <? i)%Z
                 then false else cfg_flag).
    destruct (decode_step cur p cfg_scale flag w Hcur)
      as (ids & cp & w1 & -> & Hids & Hrange & Hcp & Hpairs & Htr & fresh & Hheap).
    rewrite view_token_column. cbn [map].
    assert (Hcur' : token_column ids <> []).
    { unfold token_column. destruct ids; [|done].
      destruct cur; [done|simpl in Hids; lia]. }
    destruct (IH (i + 1)%Z flag (token_column ids) (p + 1)%Z
                 (acc_t ++ [token_column ids]) (acc_c ++ [cp])
                 cfg_scale cfg_interval w1 Hcur')
      as (idss & confs & w' & -> & Hn1 & Hn2 & Hall1 & Hall2 & Htr' & fresh'
          & Hheap').
    assert (Hlen_col : length (token_column ids) = length cur).
    { unfold token_column. by rewrite length_map. }
    exists (ids :: idss), (cp :: confs), w'.
    split. { cbn [map]. by rewrite <- !app_assoc. }
    split; [simpl; lia|]. split; [simpl; lia|].
    split. { constructor; [done|]. eapply Forall_impl; [exact Hall1|].
             intros ? [? ?]. cbn beta. split; [lia|done]. }
    split. { constructor; [done|]. eapply Forall_impl; [exact Hall2|].
             intros ? [? ?]. cbn beta. split; [lia|done]. }
    split. { rewrite Htr', Htr. cbn [map decode_calls]. by rewrite <- app_assoc. }
    rewrite Hheap', Hheap, <- app_assoc. by eexists.
Qed.


(** *** The output buffers *)

Lemma update_int2_run l f w t t' :
  heap w !! l = Some (Int2 t) -> f t = Ok t' ->
  update_int2 l f w = (Ok tt, set_heap (<[l := Int2 t']> (heap w)) w).
Proof.
  intros Hl Hf. unfold update_int2.
  by rewrite bind_run, (read_int2_run _ _ _ Hl), bind_run, lift_run, Hf.
Qed.

Lemma update_float3_run l f w t t' :
  heap w !! l = Some (Float3 t) -> f t = Ok t' ->
  update_float3 l f w = (Ok tt, set_heap (<[l := Float3 t']> (heap w)) w).
Proof.
  intros Hl Hf. unfold update_float3.
  by rewrite bind_run, (read_float3_run _ _ _ Hl), bind_run, lift_run, Hf.
Qed.

(** [buf[:, lo:hi] = src] on a buffer of one row, [src] of shape
    (1, hi - lo). *)
Lemma setitem_cols_one_row {A} (row srow : list A) lo hi :
  (lo < hi <= length row)%nat -> length srow = (hi - lo)%nat ->
  setitem_cols [row] lo hi [srow] = Ok [take lo row ++ srow ++ drop hi row].
Proof.
  intros Hr Hs. unfold setitem_cols. cbn [hd length].
  replace (Nat.min lo (length row)) with lo by lia.
  replace (Nat.min hi (length row) - lo)%nat with (hi - lo)%nat by lia.
  unfold setitem_ok, shape2. cbn [hd length]. rewrite Hs.
  rewrite bool_decide_eq_true_2 by done.
  cbn [orb bcast replicate zip_with].
  assert (Hb : bcast (hi - lo) srow = srow).
  { destruct srow as [|x [|y srow]]; try done. simpl in Hs. by rewrite <- Hs. }
  rewrite Hb. by replace (lo + (hi - lo))%nat with hi by lia.
Qed.

(** [buf[:, lo:lo+1] = src] on a buffer of one row of pairs, [src] of shape
    (1, 1, 2). *)
Lemma setitem_cols3_one_pair (crow : list (list Q)) a b lo :
  (lo < length crow)%nat -> Forall (fun pr => length pr = 2%nat) crow ->
  setitem_cols3 [crow] lo (lo + 1) [[[a; b]]]
  = Ok [take lo crow ++ [[a; b]] ++ drop (lo + 1) crow].
Proof.
  intros Hlo Hpairs. unfold setitem_cols3. cbn [hd length].
  replace (Nat.min lo (length crow)) with lo by lia.
  replace (Nat.min (lo + 1) (length crow) - lo)%nat with 1%nat by lia.
  replace (length (hd [] crow)) with 2%nat.
  2:{ destruct crow as [|pr crow]; [simpl in Hlo; lia|].
      apply Forall_cons in Hpairs as [Hp _]. cbn [hd]. by rewrite Hp. }
  reflexivity.
Qed.

(** [buf[:, j] = src] on a buffer of one row of pairs, [src] of shape
    (1, 1, 2). *)
Lemma setitem_col3_one_pair (crow : list (list Q)) a b j :
  (j < length crow)%nat -> Forall (fun pr => length pr = 2%nat) crow ->
  setitem_col3 [crow] j [[[a; b]]] = Ok [<[j := [a; b]]> crow].
Proof.
  intros Hj Hpairs. unfold setitem_col3. cbn [hd length].
  replace (length crow <=? j)%nat with false
    by (symmetry; apply Nat.leb_gt; lia).
  replace (length (hd [] crow)) with 2%nat.
  2:{ destruct crow as [|pr crow]; [simpl in Hj; lia|].
      apply Forall_cons in Hpairs as [Hp _]. cbn [hd]. by rewrite Hp. }
  reflexivity.
Qed.

Lemma store_confidences_run l T : forall confs i w crow,
  heap w !! l = Some (Float3 [crow]) ->
  Forall (fun pr => length pr = 2%nat) crow ->
  Forall (fun cp => exists a b, cp = [[[a; b]]]) confs ->
  (T + i + length confs < length crow)%nat ->
  exists crow',
    store_confidences l T i confs w
    = (Ok tt, set_heap (<[l := Float3 [crow']]> (heap w)) w) /\
    length crow' = length crow /\
    Forall (fun pr => length pr = 2%nat) crow'.
Proof.
  induction confs as [|cp confs IH]; intros i w crow Hl Hpairs Hconfs Hlen.
  - exists crow. cbn. by rewrite list_insert_id, set_heap_id.
  - apply Forall_cons in Hconfs as [(a & b & ->) Hconfs].
    cbn [store_confidences length] in *. rewrite bind_run.
    rewrite (update_float3_run l _ w [crow] [<[(T + i + 1)%nat := [a; b]]> crow])
      by first [done | apply setitem_col3_one_pair; [lia|done]].
    set (w1 := set_heap _ w).
    assert (Hl1 : heap w1 !! l
                  = Some (Float3 [<[(T + i + 1)%nat := [a; b]]> crow])).
    { subst w1. cbn. apply list_lookup_insert_eq. by eapply lookup_lt_Some. }
    destruct (IH (S i) w1 _ Hl1) as (crow' & Hrun & Hlen' & Hpairs').
    { apply Forall_insert; [done|done]. }
    { done. }
    { rewrite length_insert. lia. }
    exists crow'. rewrite Hrun. subst w1. cbn [heap set_heap].
    rewrite list_insert_insert_eq. rewrite length_insert in Hlen'.
    by unfold set_heap.
Qed.

(** [torch.cat] along dimension 1 of tensors of shape (1, 1). *)
Lemma torch_cat_single_rows (f : nat -> Z) flat :
  flat <> [] ->
  torch_cat_dim1 (map (fun i => [[f i]]) flat) = Ok [map f flat].
Proof.
  intros Hne. destruct flat as [|i flat]; [done|].
  cbn [map torch_cat_dim1].
  replace (forallb _ _) with true.
  2:{ symmetry. apply forallb_forall. intros u Hu.
      apply in_map_iff in Hu as (j & <- & _). done. }
  assert (Hfold : forall l : list nat,
            foldr (fun u acc : list (list Z) => zip_with app u acc) [[]]
                  (map (fun i0 => [[f i0]]) l) = [map f l]).
  { induction l as [|j l IH]; [done|]. cbn [map foldr]. by rewrite IH. }
  f_equal. exact (Hfold (i :: flat)).
Qed.

Lemma token_columns_flat idss :
  Forall (fun ids : list nat => length ids = 1%nat) idss ->
  map token_column idss
  = map (fun i => [[Z.of_nat i]]) (map (hd 0%nat) idss).
Proof.
  induction 1 as [|ids idss Hids _ IH]; [done|].
  cbn [map]. rewrite IH. f_equal.
  destruct ids as [|i [|j ids]]; done.
Qed.

(** *** A whole generation *)


(** *** Batches of two or more *)

Lemma bcast_same {A} n (l : list A) : length l = n -> bcast n l = l.
Proof. intros <-. by destruct l as [|x [|y l]]. Qed.

(** [buf[:, lo:hi] = src] for a source of the shape of the slice. *)
Lemma setitem_cols_shape {A} (buf src : list (list A)) lo hi n :
  buf <> [] -> Forall (fun row => length row = n) buf ->
  (lo < hi <= n)%nat ->
  length src = length buf ->
  Forall (fun r => length r = (hi - lo)%nat) src ->
  exists buf',
    setitem_cols buf lo hi src = Ok buf' /\
    length buf' = length buf /\ Forall (fun row => length row = n) buf'.
Proof.
  intros Hne Hbuf Hr Hlen Hsrc. unfold setitem_cols.
  assert (Hw : length (hd [] buf) = n).
  { destruct buf; [done|]. by apply Forall_cons in Hbuf as [? _]. }
  rewrite Hw. replace (Nat.min lo n) with lo by lia.
  replace (Nat.min hi n - lo)%nat with (hi - lo)%nat by lia.
  assert (Hshape : shape2 src = [length buf; (hi - lo)%nat]).
  { unfold shape2. rewrite Hlen. do 2 f_equal.
    destruct src as [|r src]; [by destruct buf|].
    by apply Forall_cons in Hsrc as [? _]. }
  unfold setitem_ok. rewrite Hshape, bool_decide_eq_true_2 by done. cbn [orb].
  rewrite (bcast_same (length buf) src Hlen).
  eexists. split; [reflexivity|]. split; [rewrite length_zip_with; lia|].
  apply Forall_forall. intros row Hin.
  apply list_elem_of_lookup_1 in Hin as [i Hi].
  apply lookup_zip_with_Some in Hi as (r0 & sr & -> & Hr0 & Hsr).
  rewrite Forall_forall in Hbuf. rewrite Forall_forall in Hsrc.
  specialize (Hbuf r0 (list_elem_of_lookup_2 _ _ _ Hr0)).
  specialize (Hsrc sr (list_elem_of_lookup_2 _ _ _ Hsr)). cbn beta in *.
  rewrite (bcast_same _ sr Hsrc).
  rewrite !length_app, length_take, length_drop. lia.
Qed.

(** [buf[:, lo:lo+1] = src] for a source of shape (batch, 1, 2). *)
Lemma setitem_cols3_shape (buf src : list (list (list Q))) lo n :
  buf <> [] ->
  Forall (fun row => length row = n /\
                     Forall (fun pr => length pr = 2%nat) row) buf ->
  (lo < n)%nat ->
  length src = length buf ->
  Forall (fun c => exists a b, c = [[a; b]]) src ->
  exists buf',
    setitem_cols3 buf lo (lo + 1) src = Ok buf' /\
    length buf' = length buf /\
    Forall (fun row => length row = n /\
                       Forall (fun pr => length pr = 2%nat) row) buf'.
Proof.
  intros Hne Hbuf Hlo Hlen Hsrc. unfold setitem_cols3.
  assert (Hw : length (hd [] buf) = n /\ length (hd [] (hd [] buf)) = 2%nat).
  { destruct buf as [|row buf]; [done|].
    apply Forall_cons in Hbuf as [[Hn Hp] _]. cbn [hd]. split; [done|].
    destruct row as [|pr row]; [simpl in Hn; lia|].
    by apply Forall_cons in Hp as [? _]. }
  destruct Hw as [-> ->]. replace (Nat.min lo n) with lo by lia.
  replace (Nat.min (lo + 1) n - lo)%nat with 1%nat by lia.
  assert (Hshape : shape3 src = [length buf; 1%nat; 2%nat]).
  { unfold shape3. rewrite Hlen. f_equal.
    destruct src as [|r src]; [by destruct buf|].
    by apply Forall_cons in Hsrc as [(a & b & ->) _]. }
  unfold setitem_ok. rewrite Hshape, bool_decide_eq_true_2 by done. cbn [orb].
  rewrite (bcast_same (length buf) src Hlen).
  eexists. split; [reflexivity|]. split; [rewrite length_zip_with; lia|].
  apply Forall_forall. intros row Hin.
  apply list_elem_of_lookup_1 in Hin as [i Hi].
  apply lookup_zip_with_Some in Hi as (r0 & sr & -> & Hr0 & Hsr).
  rewrite Forall_forall in Hbuf. rewrite Forall_forall in Hsrc.
  destruct (Hbuf r0 (list_elem_of_lookup_2 _ _ _ Hr0)) as [Hn Hp].
  destruct (Hsrc sr (list_elem_of_lookup_2 _ _ _ Hsr)) as (a & b & ->).
  cbn [bcast replicate map]. split.
  - rewrite !length_app, length_take, length_drop. simpl. lia.
  - apply Forall_app. split; [by apply Forall_take|].
    apply Forall_app. split; [by repeat constructor|by apply Forall_drop].
Qed.

(** [torch.cat] along dimension 1 of tensors of shape (batch, 1). *)
Lemma torch_cat_columns idss B :
  idss <> [] -> Forall (fun ids : list nat => length ids = B) idss ->
  exists cat,
    torch_cat_dim1 (map token_column idss) = Ok cat /\
    length cat = B /\ Forall (fun row => length row = length idss) cat.
Proof.
  intros Hne Hall.
  assert (Hfold : forall (l : list (list nat)) init,
    Forall (fun ids : list nat => length ids = B) l ->
    length init = B -> Forall (fun row : list Z => length row = 0%nat) init ->
    length (foldr (fun u acc : list (list Z) => zip_with app u acc) init
                  (map token_column l)) = B /\
    Forall (fun row => length row = length l)
      (foldr (fun u acc : list (list Z) => zip_with app u acc) init
             (map token_column l))).
  { induction l as [|ids l IH]; intros init Hl Hinit Hrows; [done|].
    apply Forall_cons in Hl as [Hids Hl].
    destruct (IH init Hl Hinit Hrows) as [IH1 IH2].
    cbn [map foldr]. split.
    - unfold token_column at 1. rewrite length_zip_with, length_map. lia.
    - apply Forall_forall. intros row Hin.
      apply list_elem_of_lookup_1 in Hin as [i Hi].
      apply lookup_zip_with_Some in Hi as (u & acc & -> & Hu & Hacc).
      unfold token_column in Hu. change (map ?f ids) with (f <$> ids) in Hu.
      rewrite list_lookup_fmap in Hu.
      destruct (ids !! i); [|done]. injection Hu as <-.
      rewrite Forall_forall in IH2.
      specialize (IH2 acc (list_elem_of_lookup_2 _ _ _ Hacc)).
      cbn. by rewrite IH2. }
  destruct idss as [|ids0 rest]; [done|].
  cbn [map torch_cat_dim1].
  replace (forallb _ _) with true.
  2:{ symmetry. apply forallb_forall. intros u Hu.
      apply in_map_iff in Hu as (ids & <- & Hin).
      apply Forall_cons in Hall as [H0 Hrest].
      rewrite Forall_forall in Hrest.
      specialize (Hrest ids (proj2 (list_elem_of_In _ _) Hin)).
      unfold token_column. rewrite !length_map. apply Nat.eqb_eq.
      cbn beta in *. lia. }
  eexists. split; [reflexivity|].
  apply (Hfold (ids0 :: rest)); [done| |].
  - unfold token_column. rewrite !length_map.
    by apply Forall_cons in Hall as [? _].
  - apply Forall_map. by apply Forall_forall.
Qed.

(** [confidences[:, j] = conf] with [conf] of shape (batch, 1, 2) and a batch
    of two or more: the value has a dimension more than the slice, and its
    first dimension is not 1. *)
Lemma store_confidences_rejects_batch l T w buf n cp rest :
  heap w !! l = Some (Float3 buf) ->
  Forall (fun row => length row = n /\
                     Forall (fun pr => length pr = 2%nat) row) buf ->
  (2 <= length buf)%nat -> (T + 1 < n)%nat ->
  length cp = length buf ->
  Forall (fun c => exists a b, c = [[a; b]]) cp ->
  store_confidences l T 0 (cp :: rest) w = (Raise RuntimeError, w).
Proof.
  intros Hl Hbuf HB Hn Hlen Hcp. cbn [store_confidences].
  rewrite bind_run. unfold update_float3.
  rewrite bind_run, (read_float3_run _ _ _ Hl), bind_run, lift_run.
  replace (setitem_col3 buf (T + 0 + 1) cp) with (@Raise (list (list (list Q))) RuntimeError);
    [done|].
  unfold setitem_col3.
  assert (Hw : length (hd [] buf) = n /\ length (hd [] (hd [] buf)) = 2%nat).
  { destruct buf as [|row buf]; [simpl in HB; lia|].
    apply Forall_cons in Hbuf as [[Hn' Hp] _]. cbn [hd]. split; [done|].
    destruct row as [|pr row]; [simpl in Hn'; lia|].
    by apply Forall_cons in Hp as [? _]. }
  destruct Hw as [-> ->].
  replace (n <=? T + 0 + 1)%nat with false by (symmetry; apply Nat.leb_gt; lia).
  assert (Hshape : shape3 cp = [length buf; 1%nat; 2%nat]).
  { unfold shape3. rewrite Hlen. f_equal.
    destruct cp as [|r cp]; [simpl in Hlen; lia|].
    by apply Forall_cons in Hcp as [(a & b & ->) _]. }
  rewrite Hshape. unfold setitem_ok.
  rewrite bool_decide_eq_false_2 by done.
  destruct (length buf) as [|[|B]]; [lia|lia|]. reflexivity.
Qed.

Lemma decode_calls_length cfg_scale tokens : forall cur p,
  length (decode_calls cfg_scale cur p tokens) = length tokens.
Proof.
  induction tokens as [|tok rest IH]; intros cur p; [done|].
  cbn. by rewrite IH.
Qed.


(** X4. [sample] on a stored tensor of shape (batch, positions >= 1, vocab): it
    returns one token id below [vocab] per batch row, as a tensor of shape
    (batch, 1), and one confidence pair per batch row, as a tensor of shape
    (batch, 1, 2); it calls no model and prints nothing, and the cells of the
    store that existed before are still there. *)
Theorem sample_returns_tokens_of_the_vocabulary l w t :
  heap w !! l = Some (Float3 t) ->
  Forall (fun x => x <> [] /\ Forall (fun row => length row = vocab) x) t ->
  exists ids cp w',
    sample l kw index_mapping w = (Ok (token_column ids, cp), w') /\
    length ids = length t /\ Forall (fun i => (i < vocab)%nat) ids /\
    length cp = length t /\ Forall (fun c => exists a b, c = [[a; b]]) cp /\
    trace w' = trace w /\ model w' = model w /\
    exists fresh, heap w' = heap w ++ fresh.
Proof. apply sample_step. Qed.

End Contract.

(** ** Steps without guidance, and steps that fail *)

(** X8. Without guidance ([cfg_scale <= 1]) both step functions call the model
    once, on the batch as it was given, and hand its logits, unchanged and in
    place, to [sample]; nothing is printed.  With guidance and the flag off,
    [decode_one_token] still feeds the doubled batch, and hands the
    conditional half of the logits alone to [sample]. *)
Theorem steps_without_guidance w cond_idx x p input_pos cfg_scale cfg_flag
    index_mapping kw :
  ((cfg_scale <= 1)%Q ->
   (forall logits m',
      forward (model w) None (Some cond_idx) input_pos = (logits, m') ->
      prefill cond_idx input_pos cfg_scale index_mapping kw w
      = sample (length (heap w)) kw index_mapping
          (after_forward w None (Some cond_idx) input_pos m'
             [Float3 logits] [])) /\
   (forall logits m',
      forward (model w) (Some x) None [p] = (logits, m') ->
      decode_one_token x [p] cfg_scale cfg_flag index_mapping kw w
      = sample (length (heap w)) kw index_mapping
          (after_forward w (Some x) None [p] m' [Float3 logits] []))) /\
  ((1 < cfg_scale)%Q ->
   forall logits m' h,
     forward (model w) (Some (x ++ x)) None [p] = (logits, m') ->
     length logits = (2 * h)%nat -> (1 <= h)%nat ->
     decode_one_token x [p] cfg_scale false index_mapping kw w
     = sample (S (length (heap w))) kw index_mapping
         (after_forward w (Some (x ++ x)) None [p] m'
            [Float3 logits; Float3 (take h logits)] [])).
Proof.
  split.
  - intros Hscale. split; intros logits m' Hf.
    + by apply prefill_plain.
    + by apply decode_one_token_plain.
  - intros Hscale logits m' h Hf Hlen Hh.
    by rewrite (decode_one_token_guided _ _ _ false _ _ _ _ _ h Hscale Hf).
Qed.

Lemma decode_odd_batch_raises w x p cfg_scale cfg_flag index_mapping kw h
    logits m' :
  (1 < cfg_scale)%Q -> (1 <= h)%nat ->
  forward (model w) (Some (x ++ x)) None [p] = (logits, m') ->
  length logits = (2 * h + 1)%nat ->
  decode_one_token x [p] cfg_scale cfg_flag index_mapping kw w
  = (Raise ValueError,
     after_forward w (Some (x ++ x)) None [p] m' [Float3 logits] []).
Proof.
  intros Hscale Hh Hf Hlen. apply Qltb_lt in Hscale. unfold decode_one_token.
  rewrite bind_run. cbn [length Nat.eqb mret M_ret].
  rewrite bind_run, Hscale, bind_run, (call_model_run _ _ _ _ _ _ Hf).
  rewrite bind_run, (read_float3_run _ _ logits)
    by apply after_forward_lookup_logits.
  replace (2 <=? length logits)%nat with true
    by (symmetry; apply Nat.leb_le; lia).
  by rewrite bind_run, lift_run, (torch_split_odd logits h Hlen Hh).
Qed.

(** X9. With guidance, logits of an odd batch of three or more rows make both
    step functions raise [ValueError]: [torch.split] by half the batch gives
    three pieces, and two names are unpacked.  The model has been called by
    then, nothing is printed, and [sample] is not reached. *)
Theorem guided_step_rejects_odd_batch w cond_idx x p input_pos cfg_scale
    cfg_flag index_mapping kw h logits m' :
  (1 < cfg_scale)%Q -> (1 <= h)%nat ->
  length logits = (2 * h + 1)%nat ->
  (forward (model w) None (Some cond_idx) input_pos = (logits, m') ->
   prefill cond_idx input_pos cfg_scale index_mapping kw w
   = (Raise ValueError,
      after_forward w None (Some cond_idx) input_pos m' [Float3 logits] []))
  /\
  (forward (model w) (Some (x ++ x)) None [p] = (logits, m') ->
   decode_one_token x [p] cfg_scale cfg_flag index_mapping kw w
   = (Raise ValueError,
      after_forward w (Some (x ++ x)) None [p] m' [Float3 logits] [])).
Proof.
  intros Hscale Hh Hlen. split; intros Hf.
  - by eapply prefill_odd_batch_raises.
  - by eapply decode_odd_batch_raises.
Qed.

(** ** Early failures of [generate] *)

(** X15. In class-conditional mode an [emb_masks] whose batch size is not that of
    the conditioning, or whose rows do not have length 1, stops [generate]
    with [AssertionError]; by then [setup_caches] has been called and has
    replaced the model's caches, and the model has not been called. *)
Theorem generate_checks_emb_masks_after_setup c emb_masks max_new_tokens
    cfg_scale cfg_interval confidence_threshold index_mapping kw w :
  model_type (model w) = "c2i" ->
  emb_masks <> [] ->
  length emb_masks <> length c \/ length (hd [] emb_masks) <> 1%nat ->
  let batch :=
    if Qltb 1 cfg_scale then (Z.of_nat (length c) * 2)%Z
    else Z.of_nat (length c) in
  exists w',
    generate (ClassCond c) max_new_tokens (Some emb_masks) cfg_scale
             cfg_interval confidence_threshold index_mapping kw w
    = (Raise AssertionError, w') /\
    heap w' = heap w /\
    trace w' = trace w ++ [CalledSetupCaches batch (1 + max_new_tokens)] /\
    model w' = setup_caches batch (1 + max_new_tokens) (model w).
Proof.
  intros Hmode _ Hbad batch.
  unfold generate. rewrite bind_run. cbn [get_model]. rewrite Hmode.
  rewrite String.eqb_refl.
  assert (Hcc : exists cc,
    (cond_combined ←
       (if Qltb 1 cfg_scale
        then lift (torch_cat_cond (ClassCond c)
                     (null_class (ClassCond c) (num_classes (model w))))
        else mret (ClassCond c));
     mret (cond_combined, 1%nat)) w
    = (Ok (cc, 1%nat), w)).
  { rewrite bind_run. destruct (Qltb 1 cfg_scale); by eexists. }
  destruct Hcc as [cc Hcc].
  rewrite bind_run, Hcc. cbn [cond_shape0].
  change (Z.of_nat 1) with 1%Z. fold batch.
  rewrite bind_run. unfold call_setup_caches at 1.
  rewrite bind_run. cbn [emit]. rewrite bind_run. cbn [get_model set_model].
  rewrite bind_run. unfold adjust_causal_mask. rewrite bind_run.
  destruct (length emb_masks =? length c)%nat eqn:Hb.
  2:{ by eexists. }
  cbn [mret M_ret]. rewrite bind_run.
  destruct (length (hd [] emb_masks) =? 1)%nat eqn:HT.
  2:{ by eexists. }
  apply Nat.eqb_eq in Hb, HT. by destruct Hbad.
Qed.

(** X16. In text-conditional mode class ids for a conditioning stop [generate]
    before anything is touched: with guidance [torch.cat] refuses the class
    ids next to the null embedding ([RuntimeError]), without guidance
    [cond.shape[1]] does not exist ([IndexError]). *)
Theorem text_mode_rejects_class_ids c max_new_tokens emb_masks cfg_scale
    cfg_interval confidence_threshold index_mapping kw w :
  model_type (model w) = "t2i" ->
  generate (ClassCond c) max_new_tokens emb_masks cfg_scale cfg_interval
           confidence_threshold index_mapping kw w
  = (Raise (if Qltb 1 cfg_scale then RuntimeError else IndexError), w).
Proof.
  intros Hmode. unfold generate. rewrite bind_run. cbn [get_model].
  rewrite Hmode. cbn [String.eqb Ascii.eqb Bool.eqb].
  rewrite bind_run, bind_run. by destruct (Qltb 1 cfg_scale).
Qed.

End Engine.

(** * The embedding mask in [generate]

    [generate] against two instances of [setup_caches]. *)

Section MaskedGeneration.

Variable expw : Q -> Q.
Variable rounding : Q -> list num -> nat -> Q.
Variable multinomial_draw : nat -> list Q -> nat.
Variable Cache : Type.
Variable setup_caches : Z -> Z -> Model Cache -> Model Cache.
Variable forward :
  Model Cache -> option (list (list Z)) -> option cond_t -> list Z ->
  list (list (list Q)) * Model Cache.

End MaskedGeneration.

(** * Instances of the theorems *)

Abbreviation demo_generate :=
  (generate exp_model no_rounding draw_first nat demo_setup_caches demo_forward).

Abbreviation demo_prefill :=
  (prefill exp_model no_rounding draw_first nat demo_forward).

Abbreviation demo_decode_one_token :=
  (decode_one_token exp_model no_rounding draw_first nat demo_forward).

Abbreviation demo_sample := (sample exp_model no_rounding draw_first nat).

Lemma generate_unsupported_mode_witness :
  demo_generate (ClassCond [7%Z]) 3 None 1 (-1) (8 # 10) None
                (greedy_kwargs 0 1) (demo_world "i2i" [])
  = (Raise (Exception "please check model type"), demo_world "i2i" []).
Proof.
  apply (generate_unsupported_mode exp_model no_rounding draw_first nat demo_setup_caches
           demo_forward); vm_compute; discriminate.
Defined.

Lemma top_k_keeps_k_largest_witness :
  exists rows',
    top_k_top_p_filtering exp_model no_rounding nat 0 2 1 NegInf 1
      (demo_world "c2i" [Float2 [[Fin 2; Fin 1; Fin (1 # 10); Fin (1 # 10)]]])
    = (Ok 0%nat,
       set_heap nat
         (<[0%nat := Float2 rows']>
            [Float2 [[Fin 2; Fin 1; Fin (1 # 10); Fin (1 # 10)]]])
         (demo_world "c2i"
            [Float2 [[Fin 2; Fin 1; Fin (1 # 10); Fin (1 # 10)]]])) /\
    Forall2 (fun row row' =>
      let k := clamp_top_k 2 1 (length row) in
      (1 <= k <= Z.of_nat (length row))%Z /\
      (Z.min 1 (Z.of_nat (length row)) <= k)%Z /\
      ((1 <= 2 <= Z.of_nat (length row))%Z -> k = 2%Z) /\
      exists thr,
        map fst (sort_desc row) !! (Z.to_nat k - 1)%nat = Some thr /\
        row' = map (fun x => if num_lt x thr then NegInf else x) row /\
        (Z.to_nat k <= countb is_fin row')%nat /\
        (countb (num_eqb thr) row = 1%nat -> countb is_fin row' = Z.to_nat k))
      [[Fin 2; Fin 1; Fin (1 # 10); Fin (1 # 10)]] rows'.
Proof.
  apply (top_k_keeps_k_largest exp_model no_rounding nat
           (demo_world "c2i"
              [Float2 [[Fin 2; Fin 1; Fin (1 # 10); Fin (1 # 10)]]])
           0%nat [[Fin 2; Fin 1; Fin (1 # 10); Fin (1 # 10)]] 2 1 1).
  - reflexivity.
  - lia.
  - vm_compute. discriminate.
  - repeat constructor; discriminate.
Defined.

Lemma guided_logits_formula_witness :
  let logits := [[[0%Q; 1%Q; 0%Q; 0%Q]]; [[1%Q; 1%Q; 0%Q; 0%Q]]] in
  (exists effective,
     prefill exp_model no_rounding draw_first nat graded_forward
       (ClassCond [7%Z; 1000%Z]) [0%Z] 2 None (greedy_kwargs 0 1)
       (demo_world "c2i" [])
     = demo_sample 1 (greedy_kwargs 0 1) None
         (after_forward nat (demo_world "c2i" []) None
            (Some (ClassCond [7%Z; 1000%Z])) [0%Z] (demo_model "c2i")
            [Float3 logits; Float3 effective] []) /\
     entry3 effective 0 0 0 = Some (1 + (0 - 1) * 2)%Q)
  /\
  (exists effective,
     decode_one_token exp_model no_rounding draw_first nat graded_forward
       [[0%Z]] [1%Z] 2 true None (greedy_kwargs 0 1) (demo_world "c2i" [])
     = demo_sample 1 (greedy_kwargs 0 1) None
         (after_forward nat (demo_world "c2i" []) (Some ([[0%Z]] ++ [[0%Z]]))
            None [1%Z] (demo_model "c2i")
            [Float3 logits; Float3 effective] []) /\
     entry3 effective 0 0 0 = Some (1 + (0 - 1) * 2)%Q).
Proof.
  intros logits.
  assert (Hscale : (1 < 2)%Q) by reflexivity.
  pose proof (guided_logits_formula exp_model no_rounding draw_first nat graded_forward
                (demo_world "c2i" []) (ClassCond [7%Z; 1000%Z]) [[0%Z]] [0%Z]
                2 None (greedy_kwargs 0 1) 1 Hscale (le_n 1)) as [Hprefill _].
  pose proof (guided_logits_formula exp_model no_rounding draw_first nat graded_forward
                (demo_world "c2i" []) (ClassCond [7%Z; 1000%Z]) [[0%Z]] [1%Z]
                2 None (greedy_kwargs 0 1) 1 Hscale (le_n 1)) as [_ Hdecode].
  split.
  - destruct (Hprefill logits (demo_model "c2i") eq_refl eq_refl)
      as (effective & Hrun & _ & Hentry).
    exists effective. split; [exact Hrun|].
    exact (Hentry 0%nat 0%nat 0%nat (le_n 1)).
  - destruct (Hdecode logits (demo_model "c2i") eq_refl eq_refl eq_refl)
      as (effective & Hrun & _ & Hentry).
    exists effective. split; [exact Hrun|].
    exact (Hentry 0%nat 0%nat 0%nat (le_n 1)).
Defined.

(** C2 as stated fails on an odd batch of two or more.  With guidance and
    logits of five batch rows [torch.split] gives three pieces, and
    [prefill] raises instead of mixing anything. *)
Lemma guided_prefill_of_five_rows_raises :
  fst (demo_prefill (ClassCond [1%Z; 2%Z; 3%Z; 4%Z; 5%Z]) [0%Z] (3 # 2) None
                    (greedy_kwargs 0 1) (demo_world "c2i" []))
  = Raise ValueError.
Proof. vm_compute. reflexivity. Qed.

(** C3 as stated fails: on logits of a batch of three rows under guidance,
    [prefill] raises [ValueError]; the trace holds the model call and no
    warning. *)
Lemma odd_batch_raises :
  demo_prefill (ClassCond [1%Z; 2%Z; 3%Z]) [0%Z] 2 None (greedy_kwargs 0 1)
               (demo_world "c2i" [])
  = (Raise ValueError,
     {| heap := [Float3 (replicate 3 [[2%Q; 1%Q; (1 # 10)%Q; (1 # 10)%Q]])];
        trace := [CalledForward None (Some (ClassCond [1%Z; 2%Z; 3%Z])) [0%Z]];
        model := demo_model "c2i";
        rng := 0%nat |}).
Proof. vm_compute. reflexivity. Qed.

Lemma small_batch_falls_back_witness :
  let logits := replicate 1 [[2%Q; 1%Q; (1 # 10)%Q; (1 # 10)%Q]] in
  demo_prefill (ClassCond [7%Z]) [0%Z] 2 None (greedy_kwargs 0 1)
               (demo_world "c2i" [])
  = demo_sample 0 (greedy_kwargs 0 1) None
      (after_forward nat (demo_world "c2i" []) None (Some (ClassCond [7%Z]))
         [0%Z] (demo_model "c2i") [Float3 logits]
         [Printed "Warning: Not enough samples for CFG in prefill"]).
Proof.
  intros logits.
  assert (Hscale : (1 < 2)%Q) by reflexivity.
  pose proof (small_batch_falls_back exp_model no_rounding draw_first nat demo_forward
                (demo_world "c2i" []) (ClassCond [7%Z]) [] [0%Z]
                2 None (greedy_kwargs 0 1) true Hscale) as [Hprefill _].
  apply (Hprefill logits (demo_model "c2i") eq_refl). simpl. lia.
Defined.

Lemma adjust_causal_mask_example :
  exists w',
    adjust_causal_mask nat [[0%Z]] 1 1 1 (demo_world "c2i" []) = (Ok tt, w') /\
    causal_mask (model w')
    = [[[1; 0; 0]; [0; 1; 0]; [0; 1; 1]]]%Z /\
    diagonal_ones (causal_mask (model w')).
Proof.
  eexists. split; [vm_compute; reflexivity|]. split; [reflexivity|].
  eapply (adjust_causal_mask_inv nat [[0%Z]] 1 1 1 (demo_world "c2i" [])).
  vm_compute. reflexivity.
Qed.


(** The same call, run: it returns, and the model is left with the mask of
    ones on the diagonal. *)
Lemma generate_with_emb_masks_example :
  exists r w',
    demo_generate (ClassCond [7%Z]) 3 (Some [[0%Z]]) 1 (-1) (8 # 10) None
                  (greedy_kwargs 0 1) (demo_world "c2i" [])
    = (Ok r, w') /\
    causal_mask (model w')
    = [[[1; 0; 0; 0]; [0; 1; 0; 0]; [0; 1; 1; 0]; [0; 1; 1; 1]]]%Z.
Proof.
  eexists _, _. split; [vm_compute; reflexivity|]. reflexivity.
Qed.

(** The scenario of the specification: [index_mapping = {0: 2}], sampled id 0;
    the paired confidence is the probability of id 2. *)
Lemma paired_confidence_lookup_witness :
  let w := demo_world "c2i"
             [Float3 [[[2%Q; 1%Q; (1 # 10)%Q; (3 # 10)%Q]]]] in
  exists w' row tc pc,
    demo_sample 0 (greedy_kwargs 0 1) (Some [(3, 0); (2, 0)]%Z) w
    = (Ok ([[0%Z]], [[[tc; pc]]]), w') /\
    heap w' = heap w ++ [Float2 [row]] /\
    softmax exp_model row !! 3%nat = Some pc.
Proof.
  intros w.
  assert (Hrun : exists cp w',
            demo_sample 0 (greedy_kwargs 0 1) (Some [(3, 0); (2, 0)]%Z) w
            = (Ok ([[0%Z]], cp), w')).
  { vm_compute. eexists _, _. reflexivity. }
  destruct Hrun as (cp & w' & Hrun).
  destruct (paired_confidence_lookup exp_model no_rounding draw_first nat 0%nat
              (greedy_kwargs 0 1) [(3, 0); (2, 0)]%Z w [[0%Z]] cp w' Hrun)
    as [(lg & Hheap & Hlen_idx & Hlen_cp & Hrows) _].
  destruct lg as [|row [|? ?]]; try discriminate.
  destruct (Hrows 0%nat (softmax exp_model row) eq_refl)
    as (i & tc & pc & Hi & Hcp & _ & Hval & _).
  injection Hi as Hi.
  assert (i = 0%nat) by lia. subst i.
  destruct (Hval ltac:(intros k' v' [[= <- <-]|[[= <- <-]|[]]]; discriminate)
              [] 3%Z [(2, 0)%Z] eq_refl ltac:(intros k' v' []))
    as (j & Hj & Hj3).
  assert (j = 3%nat) by (cbn in Hj3; lia). subst j.
  destruct cp as [|c [|? ?]]; try discriminate.
  injection Hcp as ->.
  exists w', row, tc, pc. split; [exact Hrun|]. split; [exact Hheap|exact Hj].
Defined.

Lemma exp_model_pos q : (0 < exp_model q)%Q.
Proof.
  unfold exp_model. destruct (Qltb q 0) eqn:Hq.
  - apply Qltb_lt in Hq. apply Qlt_shift_div_l; lra.
  - apply Qltb_ge in Hq. lra.
Qed.

Lemma exp_model_proper x y : (x == y)%Q -> (exp_model x == exp_model y)%Q.
Proof.
  intros Hxy. unfold exp_model.
  destruct (Qltb x 0) eqn:Hx, (Qltb y 0) eqn:Hy.
  - rewrite Hxy. reflexivity.
  - apply Qltb_lt in Hx. apply Qltb_ge in Hy. lra.
  - apply Qltb_ge in Hx. apply Qltb_lt in Hy. lra.
  - rewrite Hxy. reflexivity.
Qed.



(** C1 at its failing input: one class id, [max_new_tokens = 1], no guidance.
    The prefill step succeeds, the decode loop returns an empty list, and
    [torch.cat] of it raises. *)
Lemma generate_one_new_token_fails :
  fst (demo_generate (ClassCond [7%Z]) 1 None 1 (-1) (8 # 10) None
                     (greedy_kwargs 0 1) (demo_world "c2i" []))
  = Raise RuntimeError /\
  decode_n_tokens exp_model no_rounding draw_first nat demo_forward [[0%Z]] [1%Z] (1 - 1)
                  1 (-1) None (greedy_kwargs 0 1) (demo_world "c2i" [])
  = (Ok ([], []), demo_world "c2i" []) /\
  torch_cat_dim1 (A := Z) [] = Raise RuntimeError.
Proof. repeat split; vm_compute; reflexivity. Qed.

(** With one conditioning row and three new tokens, [generate] returns a
    [(1, 3)] token buffer and a [(1, 3, 2)] confidence buffer. *)
Lemma generate_three_tokens_example :
  fst (demo_generate (ClassCond [7%Z]) 3 None 2 (-1) (8 # 10)
                     (Some [(0, 1)%Z]) (greedy_kwargs 2 1)
                     (demo_world "c2i" []))
  = Ok ([[0; 0; 0]%Z],
        [[[(3 # 5)%Q; (2 # 5)%Q]; [(3 # 5)%Q; (2 # 5)%Q];
          [(3 # 5)%Q; (2 # 5)%Q]]]).
Proof. vm_compute. reflexivity. Qed.

(** With two conditioning rows, the assignment of a [(2, 1, 2)] confidence
    to the [(2, 2)] slot [confidences[:, T+i+1]] is refused. *)
Lemma generate_batch_two_fails :
  fst (demo_generate (ClassCond [7%Z; 8%Z]) 3 None 1 (-1) (8 # 10) None
                     (greedy_kwargs 0 1) (demo_world "c2i" []))
  = Raise RuntimeError /\
  setitem_ok [2; 2]%nat [2; 1; 2]%nat = false /\
  setitem_ok [1; 2]%nat [1; 1; 2]%nat = true.
Proof. repeat split; vm_compute; reflexivity. Qed.

(** * The added properties on the concrete predictor *)

Lemma demo_forward_cond (m : Model nat) c pos :
  well_shaped 4 (cond_shape0 c) (fst (demo_forward m None (Some c) pos)).
Proof.
  cbn. split; [apply length_replicate|].
  apply Forall_replicate. split; [done|]. by repeat constructor.
Qed.

Lemma demo_forward_tokens (m : Model nat) x pos :
  well_shaped 4 (length x) (fst (demo_forward m (Some x) None pos)).
Proof.
  cbn. split; [apply length_replicate|].
  apply Forall_replicate. split; [done|]. by repeat constructor.
Qed.

Lemma draw_first_in_range (kw : sampling_kwargs) :
  sample_logits kw = true ->
  forall n (row : list Q), row <> [] -> (draw_first n row < length row)%nat.
Proof. intros _ n [|x row] Hne; [done|]. unfold draw_first. simpl. lia. Qed.

Lemma pairing_demo_in_range d k v :
  Some pairing_demo = Some d -> In (k, v) d ->
  valid_index 4 k /\ valid_index 4 v.
Proof.
  intros [= <-]. unfold pairing_demo. cbn [In].
  intros [[= <- <-]|[]]. unfold valid_index. cbn. lia.
Qed.

Lemma filter_never_empties_a_row_witness :
  let w := demo_world "c2i" [Float2 [[Fin 2; NegInf; Fin 1]]] in
  exists rows',
    top_k_top_p_filtering exp_model no_rounding nat 0 1 (1 # 100) NegInf 1 w
    = (Ok 0%nat, set_heap nat (<[0%nat := Float2 rows']> (heap w)) w) /\
    length rows' = 1%nat.
Proof.
  intros w.
  destruct (filter_never_empties_a_row exp_model no_rounding nat w 0
              [[Fin 2; NegInf; Fin 1]] 1 (1 # 100) 1)
    as (rows' & Hrun & HF).
  - reflexivity.
  - constructor; [discriminate|constructor].
  - exists rows'. split; [exact Hrun|].
    apply Forall2_length in HF. symmetry. exact HF.
Defined.

Lemma filter_cuts_nothing_witness :
  let w := demo_world "c2i" [Float2 [[Fin 2; NegInf; Fin 1]]] in
  top_k_top_p_filtering exp_model no_rounding nat 0 10 1 NegInf 1 w = (Ok 0%nat, w).
Proof.
  intros w.
  apply (filter_cuts_nothing exp_model no_rounding nat w 0 [[Fin 2; NegInf; Fin 1]]
           10 1 NegInf 1).
  - reflexivity.
  - apply Qle_refl.
  - right. constructor; [|constructor]. split; [discriminate|cbn; lia].
Defined.

Lemma nucleus_keeps_min_tokens_witness :
  let row := [Fin 2; Fin 1; Fin (1 # 10); Fin (1 # 20)] in
  let w := demo_world "c2i" [Float2 [row]] in
  exists rows',
    top_k_top_p_filtering exp_model no_rounding nat 0 0 (1 # 100) NegInf 2 w
    = (Ok 0%nat, set_heap nat (<[0%nat := Float2 rows']> (heap w)) w) /\
    forall row', rows' !! 0%nat = Some row' ->
      (3 <= countb is_fin row')%nat /\ row' !! 1%nat = Some (Fin 1).
Proof.
  intros row w.
  destruct (nucleus_keeps_min_tokens exp_model no_rounding nat w 0 [row] 0 (1 # 100) 2)
    as (rows' & Hrun & HF).
  - reflexivity.
  - lia.
  - lia.
  - constructor; [|constructor]. split; [discriminate|].
    repeat constructor.
  - exists rows'. split; [exact Hrun|]. intros row' Hrow'.
    destruct (Forall2_lookup_r _ _ _ 0%nat row' HF Hrow')
      as (row0 & Hrow0 & _ & _ & Hcount & Habove).
    injection Hrow0 as <-. split.
    + cbn in Hcount. lia.
    + apply (Habove (Fin (1 # 10)) 1%nat (Fin 1)); reflexivity.
Defined.

Lemma sample_confidences_are_probabilities_witness :
  let t := [[[2%Q; 1%Q; (1 # 10)%Q; (1 # 10)%Q]]] in
  let w := demo_world "c2i" [Float3 t] in
  exists idx cp w' lg,
    demo_sample 0 sampling_kwargs_demo (Some pairing_demo) w
    = (Ok (idx, cp), w') /\
    heap w' = heap w ++ [Float2 lg] /\ length lg = 1%nat.
Proof.
  intros t w.
  assert (Hrun : exists idx cp w',
            demo_sample 0 sampling_kwargs_demo (Some pairing_demo) w
            = (Ok (idx, cp), w')).
  { vm_compute. eexists _, _, _. reflexivity. }
  destruct Hrun as (idx & cp & w' & Hrun).
  destruct (sample_confidences_are_probabilities exp_model no_rounding draw_first nat
              exp_model_pos 0 sampling_kwargs_demo (Some pairing_demo) w t
              idx cp w')
    as (lg & Hheap & Hlen & _).
  - reflexivity.
  - constructor; [|constructor]. eexists. split; [reflexivity|discriminate].
  - exact Hrun.
  - exists idx, cp, w', lg. split; [exact Hrun|]. split; [exact Hheap|exact Hlen].
Defined.

Lemma logits_to_probs_returns_distributions_witness :
  let w := demo_world "c2i" [Float2 [[Fin 2; NegInf; Fin 1]]] in
  exists lg,
    logits_to_probs exp_model no_rounding nat 0 1 (1 # 2) (Some 2%Z) w
    = (Ok (map (softmax exp_model) lg),
       set_heap nat (heap w ++ [Float2 lg]) w) /\
    length lg = 1%nat.
Proof.
  intros w.
  destruct (logits_to_probs_returns_distributions exp_model no_rounding nat exp_model_pos
              0 1 (1 # 2) 2 w [[Fin 2; NegInf; Fin 1]])
    as (lg & Hrun & HF).
  - reflexivity.
  - constructor; [|constructor]. exists (Fin 2). split; [left|reflexivity].
  - exists lg. split; [exact Hrun|].
    apply Forall2_length in HF. symmetry. exact HF.
Defined.

Lemma emb_masks_scale_conditioning_columns_witness :
  exists w' mat' row',
    adjust_causal_mask nat [[0%Z]] 1 1 1 (demo_world "c2i" []) = (Ok tt, w') /\
    causal_mask (model w') !! 0%nat = Some mat' /\
    mat' !! 1%nat = Some row' /\ row' !! 0%nat = Some 0%Z.
Proof.
  destruct (emb_masks_scale_conditioning_columns nat [[0%Z]] 1 1 1
              (demo_world "c2i" []))
    as (w' & Hrun & _ & _ & _ & Hentry).
  - discriminate.
  - reflexivity.
  - constructor; [reflexivity|constructor].
  - reflexivity.
  - vm_compute. repeat constructor.
  - destruct (Hentry 0%nat [[1; 0; 0]; [1; 1; 0]; [1; 1; 1]]%Z 1%nat
                [1; 1; 0]%Z 0%nat 1%Z [0%Z])
      as (mat' & row' & Hmat & Hrow & Hv); try reflexivity.
    exists w', mat', row'. split; [exact Hrun|].
    split; [exact Hmat|]. split; [exact Hrow|exact Hv].
Defined.




Lemma sample_returns_tokens_of_the_vocabulary_witness :
  let t := [[[2%Q; 1%Q; (1 # 10)%Q; (1 # 10)%Q]]] in
  exists ids cp w',
    demo_sample 0 sampling_kwargs_demo (Some pairing_demo)
                (demo_world "c2i" [Float3 t])
    = (Ok (token_column ids, cp), w') /\
    length ids = 1%nat.
Proof.
  intros t.
  destruct (sample_returns_tokens_of_the_vocabulary exp_model no_rounding draw_first nat
              4 sampling_kwargs_demo (Some pairing_demo)
              ltac:(lia) (draw_first_in_range sampling_kwargs_demo)
              pairing_demo_in_range 0 (demo_world "c2i" [Float3 t]) t)
    as (ids & cp & w' & Hrun & Hlen & _).
  - reflexivity.
  - constructor; [|constructor]. split; [discriminate|].
    constructor; [reflexivity|constructor].
  - exists ids, cp, w'. split; [exact Hrun|exact Hlen].
Defined.

Lemma guided_step_rejects_odd_batch_witness :
  let logits := replicate 3 [[2%Q; 1%Q; (1 # 10)%Q; (1 # 10)%Q]] in
  demo_prefill (ClassCond [1%Z; 2%Z; 3%Z]) [0%Z] 2 None (greedy_kwargs 0 1)
               (demo_world "c2i" [])
  = (Raise ValueError,
     after_forward nat (demo_world "c2i" []) None
       (Some (ClassCond [1%Z; 2%Z; 3%Z])) [0%Z] (demo_model "c2i")
       [Float3 logits] []).
Proof.
  intros logits.
  assert (Hscale : (1 < 2)%Q) by reflexivity.
  apply (proj1 (guided_step_rejects_odd_batch exp_model no_rounding draw_first nat
                  demo_forward (demo_world "c2i" [])
                  (ClassCond [1%Z; 2%Z; 3%Z]) [] 0 [0%Z] 2 true None
                  (greedy_kwargs 0 1) 1 logits (demo_model "c2i")
                  Hscale (le_n 1) eq_refl)).
  reflexivity.
Defined.

Lemma generate_checks_emb_masks_after_setup_witness :
  exists w',
    demo_generate (ClassCond [7%Z]) 3 (Some [[1%Z]; [1%Z]]) 1 (-1) (4 # 5)
                  None (greedy_kwargs 0 1) (demo_world "c2i" [])
    = (Raise AssertionError, w') /\
    trace w' = [CalledSetupCaches 1 4].
Proof.
  destruct (generate_checks_emb_masks_after_setup exp_model no_rounding draw_first nat
              demo_setup_caches demo_forward [7%Z] [[1%Z]; [1%Z]] 3 1 (-1)
              (4 # 5) None (greedy_kwargs 0 1) (demo_world "c2i" []))
    as (w' & Hrun & _ & Htrace & _).
  - reflexivity.
  - discriminate.
  - left. cbn. lia.
  - exists w'. split; [exact Hrun|exact Htrace].
Defined.

Lemma text_mode_rejects_class_ids_witness :
  demo_generate (ClassCond [7%Z]) 3 None 1 (-1) (4 # 5) None
                (greedy_kwargs 0 1) (demo_world "t2i" [])
  = (Raise IndexError, demo_world "t2i" []).
Proof.
  apply (text_mode_rejects_class_ids exp_model no_rounding draw_first nat
           demo_setup_caches demo_forward [7%Z] 3 None 1 (-1) (4 # 5) None
           (greedy_kwargs 0 1) (demo_world "t2i" [])).
  reflexivity.
Defined.
